(** * Content-Scrape: the link ingestion pipeline of [bot.js]

    A shallow embedding of the Discord bot that collects Twitter/X links:
    the link extractor ([extractTwitterLinks]), the shortener resolver
    ([expandShortUrl]), the storage gateway ([saveLinkToDatabase], in test
    mode and on MongoDB), the message pipeline ([processMessage]), the
    historical scraper ([scrapeHistoricalMessages]) and the live handler
    registered in [setupEventListeners].

    Console output is not modelled.  The collaborators the bot talks to
    (wall clock, HTTP, the Discord history API, MongoDB) are explicit
    arguments or explicit state. *)

From Stdlib Require Import List Bool Arith ZArith NArith Lia String Ascii Sorted
  Permutation.
Import ListNotations.

Set Implicit Arguments.

(* ================================================================== *)
(** * JavaScript strings *)

(** A JavaScript string is a sequence of UTF-16 code units; a regular
    expression without the [u] flag works on code units. *)
Definition jschar := N.
Definition jsstring := list jschar.

(** A string literal of the source (ASCII only). *)
Definition lit (s : string) : jsstring :=
  map N_of_ascii (list_ascii_of_string s).

Fixpoint jseqb (a b : jsstring) : bool :=
  match a, b with
  | [], [] => true
  | x :: a', y :: b' => N.eqb x y && jseqb a' b'
  | _, _ => false
  end.

(** [s.startsWith(p)] *)
Fixpoint starts_with (p s : jsstring) : bool :=
  match p, s with
  | [], _ => true
  | x :: p', y :: s' => N.eqb x y && starts_with p' s'
  | _ :: _, [] => false
  end.

(** [s.includes(p)] *)
Fixpoint includes (p s : jsstring) : bool :=
  starts_with p s ||
  match s with
  | [] => false
  | _ :: s' => includes p s'
  end.

(** ** Character classes of the regular expressions in the source *)

Definition in_range (lo hi c : N) : bool := N.leb lo c && N.leb c hi.

(** [\d] *)
Definition is_digit (c : jschar) : bool := in_range 48 57 c.

(** [\w]: [A-Za-z0-9_] *)
Definition is_word (c : jschar) : bool :=
  in_range 97 122 c || in_range 65 90 c || is_digit c || N.eqb c 95.

(** [\s]: ECMAScript WhiteSpace and LineTerminator code units. *)
Definition is_space (c : jschar) : bool :=
  in_range 9 13 c || N.eqb c 32 || N.eqb c 160 || N.eqb c 5760 ||
  in_range 8192 8202 c || N.eqb c 8232 || N.eqb c 8233 || N.eqb c 8239 ||
  N.eqb c 8287 || N.eqb c 12288 || N.eqb c 65279.

(** [[^\s]] *)
Definition not_space (c : jschar) : bool := negb (is_space c).

(** [[.,;!?]] *)
Definition is_punct (c : jschar) : bool :=
  N.eqb c 46 || N.eqb c 44 || N.eqb c 59 || N.eqb c 33 || N.eqb c 63.

(** Canonicalisation of the [i] flag without [u]: only ASCII letters fold
    onto ASCII letters. *)
Definition upcase (c : jschar) : jschar :=
  if in_range 97 122 c then (c - 32)%N else c.

(** A pattern character: exact, or up to case under the [i] flag. *)
Definition chr_is (ci : bool) (x : jschar) (c : jschar) : bool :=
  if ci then N.eqb (upcase c) (upcase x) else N.eqb c x.

(* ================================================================== *)
(** * Regular expressions, as a backtracking matcher *)

(** The fragment of ECMAScript patterns used by [bot.js]: pattern
    characters and classes, sequence, alternation, the greedy [?] on a
    group, the greedy [+] on a class, and the [$] assertion. *)
Inductive regex : Type :=
| Eps
| Chr (p : jschar -> bool)
| Seq (r1 r2 : regex)
| Alt (r1 r2 : regex)
| Opt (r : regex)
| Plus (p : jschar -> bool)
| Eol.

Declare Scope regex_scope.
Delimit Scope regex_scope with re.
Bind Scope regex_scope with regex.
Infix ">>" := Seq (at level 61, right associativity) : regex_scope.

(** The pattern for a literal piece of text. *)
Fixpoint chars (ci : bool) (l : jsstring) : regex :=
  match l with
  | [] => Eps
  | c :: l' => Seq (Chr (chr_is ci c)) (chars ci l')
  end.

Definition text (ci : bool) (s : string) : regex := chars ci (lit s).

(** Greedy repetition of a class followed by the continuation [k]: the
    longest run is tried first, then shorter ones. *)
Fixpoint star_k {A} (p : jschar -> bool) (k : jsstring -> option A)
         (s : jsstring) : option A :=
  match s with
  | c :: s' =>
      if p c then
        match star_k p k s' with
        | Some x => Some x
        | None => k s
        end
      else k s
  | [] => k []
  end.

(** [rmatch r s k]: match [r] at the start of [s], then run [k] on what is
    left; alternatives are tried in the priority order of ECMAScript. *)
Fixpoint rmatch {A} (r : regex) (s : jsstring)
         (k : jsstring -> option A) : option A :=
  match r with
  | Eps => k s
  | Chr p =>
      match s with
      | c :: s' => if p c then k s' else None
      | [] => None
      end
  | Seq r1 r2 => rmatch r1 s (fun s1 => rmatch r2 s1 k)
  | Alt r1 r2 =>
      match rmatch r1 s k with
      | Some x => Some x
      | None => rmatch r2 s k
      end
  | Opt r1 =>
      match rmatch r1 s k with
      | Some x => Some x
      | None => k s
      end
  | Plus p =>
      match s with
      | c :: s' => if p c then star_k p k s' else None
      | [] => None
      end
  | Eol =>
      match s with
      | [] => k []
      | _ :: _ => None
      end
  end.

(** A match anchored at the start of [s]: the matched text and the rest. *)
Definition exec (r : regex) (s : jsstring) : option (jsstring * jsstring) :=
  match rmatch r s (fun rest => Some rest) with
  | Some rest => Some (firstn (List.length s - List.length rest) s, rest)
  | None => None
  end.

(** The first match in [s] (a pattern without the [g] flag): the text
    before it, the match, the text after it. *)
Fixpoint search (r : regex) (s : jsstring)
  : option (jsstring * jsstring * jsstring) :=
  match exec r s with
  | Some (m, rest) => Some ([], m, rest)
  | None =>
      match s with
      | [] => None
      | c :: s' =>
          match search r s' with
          | Some (b, m, a) => Some (c :: b, m, a)
          | None => None
          end
      end
  end.

(** [s.match(r)] for a pattern with the [g] flag: all matches, leftmost
    first, each search resuming where the last match ended ([skip] counts
    the code units still covered by the last match). *)
Fixpoint scan (r : regex) (skip : nat) (s : jsstring) {struct s}
  : list jsstring :=
  match skip with
  | S n =>
      match s with
      | [] => []
      | _ :: s' => scan r n s'
      end
  | O =>
      match exec r s with
      | Some (m, _) =>
          m :: match s with
               | [] => []
               | _ :: s' => scan r (pred (List.length m)) s'
               end
      | None =>
          match s with
          | [] => []
          | _ :: s' => scan r 0 s'
          end
      end
  end.

Definition match_all (r : regex) (s : jsstring) : list jsstring := scan r 0 s.

(** [s.replace(r, '')] for a pattern without the [g] flag. *)
Definition remove_first (r : regex) (s : jsstring) : jsstring :=
  match search r s with
  | Some (b, _, a) => b ++ a
  | None => s
  end.

(* ================================================================== *)
(** * The link extractor *)

(** [https?:\/\/(www\.)?(twitter\.com|x\.com)\/], the common start of the
    two patterns below, with or without the [i] flag. *)
Definition urlHead (ci : bool) : regex :=
  (text ci "http" >> Opt (text ci "s") >> text ci "://" >>
   Opt (text ci "www.") >>
   Alt (text ci "twitter.com") (text ci "x.com") >>
   text ci "/")%re.

(** [/https?:\/\/(www\.)?(twitter\.com|x\.com)\/[^\s]+/gi] *)
Definition allUrlPattern : regex :=
  (urlHead true >> Plus not_space)%re.

(** [/(https?:\/\/(www\.)?(twitter\.com|x\.com)\/\w+\/status\/\d+)/] *)
Definition statusPattern : regex :=
  (urlHead false >> Plus is_word >> text false "/status/" >>
   Plus is_digit)%re.

(** [/https?:\/\/t\.co\/\w+/gi] *)
Definition shortPattern : regex :=
  (text true "http" >> Opt (text true "s") >> text true "://t.co/" >>
   Plus is_word)%re.

(** [/[.,;!?]+$/] *)
Definition trailingPunct : regex := (Plus is_punct >> Eol)%re.

(** [link.replace(/[.,;!?]+$/, '')] *)
Definition cleanUrl (link : jsstring) : jsstring :=
  remove_first trailingPunct link.

(** A [Set] of strings, in insertion order. *)
Definition set_add (x : jsstring) (links : list jsstring) : list jsstring :=
  if existsb (jseqb x) links then links else links ++ [x].

Definition add_url_match (links : list jsstring) (link : jsstring)
  : list jsstring :=
  let clean := cleanUrl link in
  if includes (lit "/status/") clean then
    match search statusPattern clean with
    | Some (_, m, _) => set_add m links
    | None => links
    end
  else set_add clean links.

Definition add_short_match (links : list jsstring) (link : jsstring)
  : list jsstring :=
  set_add (cleanUrl link) links.

Definition extractTwitterLinks (txt : jsstring) : list jsstring :=
  let links := fold_left add_url_match (match_all allUrlPattern txt) [] in
  fold_left add_short_match (match_all shortPattern txt) links.

(* ================================================================== *)
(** * Messages, records and configuration *)

(** [message.author], [message.channel], [message.guild] of discord.js. *)
Record Author := {
  author_id : jsstring;
  username : jsstring;
  displayName : option jsstring;
  bot : bool
}.

Record Channel := {
  channel_id : jsstring;
  channel_name : jsstring
}.

Record Guild := {
  guild_id : jsstring;
  guild_name : jsstring
}.

(** A message; [msg_createdAt] is the creation time in milliseconds. *)
Record Message := {
  msg_id : jsstring;
  msg_content : jsstring;
  msg_createdAt : Z;
  msg_author : Author;
  msg_channel : Channel;
  msg_guild : option Guild
}.

(** The [linkData] object of [processMessage]; a stored MongoDB document
    has the same fields and [createdAt], which [linkData] never has
    ([None] is an absent field). *)
Record LinkData := {
  url : jsstring;
  originalUrl : jsstring;
  messageId : jsstring;
  channelId : jsstring;
  channelName : jsstring;
  guildId : option jsstring;
  guildName : option jsstring;
  authorId : jsstring;
  authorUsername : jsstring;
  authorDisplayName : jsstring;
  messageContent : jsstring;
  messageTimestamp : Z;
  foundAt : Z;
  createdAt : option Z
}.

(** The constants read from the environment at the top of [bot.js]. *)
Record Config := {
  GUILD_ID : option jsstring;
  CHANNEL_ID_1 : option jsstring;
  CHANNEL_ID_2 : option jsstring;
  TEST_MODE : bool;
  SCRAPE_FROM_DATE : option jsstring;
  ENABLE_HISTORICAL_SCRAPING : bool;
  BATCH_SIZE : Z
}.

(** Truthiness of a value that is a string or [undefined]. *)
Definition truthy (s : option jsstring) : bool :=
  match s with
  | Some (_ :: _) => true
  | _ => false
  end.

(** [x || null] *)
Definition or_null (s : option jsstring) : option jsstring :=
  if truthy s then s else None.

(** [[CHANNEL_ID_1, CHANNEL_ID_2].filter(Boolean)] *)
Definition allowedChannels (cfg : Config) : list jsstring :=
  flat_map (fun c => match c with
                     | Some v => if truthy c then [v] else []
                     | None => []
                     end)
           [CHANNEL_ID_1 cfg; CHANNEL_ID_2 cfg].

(* ================================================================== *)
(** * The MongoDB collection *)

Inductive field : Type := F_url | F_messageId | F_createdAt | F_messageTimestamp.

Inductive value : Type :=
| VStr (s : jsstring)
| VDate (t : Z)
| VNull.

Definition get_field (f : field) (d : LinkData) : value :=
  match f with
  | F_url => VStr (url d)
  | F_messageId => VStr (messageId d)
  | F_createdAt => match createdAt d with Some t => VDate t | None => VNull end
  | F_messageTimestamp => VDate (messageTimestamp d)
  end.

Definition value_eqb (a b : value) : bool :=
  match a, b with
  | VStr x, VStr y => jseqb x y
  | VDate x, VDate y => Z.eqb x y
  | VNull, VNull => true
  | _, _ => false
  end.

Definition field_eqb (f g : field) : bool :=
  match f, g with
  | F_url, F_url | F_messageId, F_messageId | F_createdAt, F_createdAt
  | F_messageTimestamp, F_messageTimestamp => true
  | _, _ => false
  end.

(** A single-field index, as [createIndex({ f: 1 }, { unique })] and
    [createIndex({ f: -1 }, { unique })] make: its key pattern (the field
    and the direction) and its [unique] option. *)
Record Index := {
  idx_field : field;
  idx_descending : bool;
  idx_unique : bool
}.

Record Collection := {
  docs : list LinkData;
  indexes : list Index
}.

(** Two documents clash on an index when it is unique and they carry the
    same key. *)
Definition clash (i : Index) (d e : LinkData) : bool :=
  idx_unique i && value_eqb (get_field (idx_field i) d) (get_field (idx_field i) e).

(** [d] cannot be stored next to [others]: some unique index rejects it
    (the server's duplicate key error, E11000). *)
Definition duplicate_key (ixs : list Index) (others : list LinkData)
           (d : LinkData) : bool :=
  existsb (fun i => existsb (clash i d) others) ixs.

Fixpoint no_duplicates (i : Index) (ds : list LinkData) : bool :=
  match ds with
  | [] => true
  | d :: ds' => negb (existsb (clash i d) ds') && no_duplicates i ds'
  end.

(** The two indexes have the same key pattern. *)
Definition same_pattern (i j : Index) : bool :=
  field_eqb (idx_field i) (idx_field j) &&
  Bool.eqb (idx_descending i) (idx_descending j).

(** [collection.createIndex(keys, options)].  When the collection has an
    index with this key pattern, the call does nothing if the options are
    the same and is refused if they differ (the server's
    IndexOptionsConflict).  Otherwise the index is built, which fails when
    it is unique and the stored documents already clash on it. *)
Definition createIndex (f : field) (descending unique : bool) (c : Collection)
  : option Collection :=
  let i := {| idx_field := f; idx_descending := descending;
              idx_unique := unique |} in
  match find (same_pattern i) (indexes c) with
  | Some j => if Bool.eqb (idx_unique j) unique then Some c else None
  | None =>
      if no_duplicates i (docs c)
      then Some {| docs := docs c; indexes := indexes c ++ [i] |}
      else None
  end.

Inductive write_result : Type :=
| Upserted
| Modified
| Matched
| WriteError.

(** The filter [{ messageId: linkData.messageId, url: linkData.url }]. *)
Definition same_key (linkData link : LinkData) : bool :=
  jseqb (messageId link) (messageId linkData) && jseqb (url link) (url linkData).

(** [$set: linkData] on a stored document: every field of [linkData] is
    written, [createdAt] is kept. *)
Definition set_fields (linkData old : LinkData) : LinkData :=
  {| url := url linkData;
     originalUrl := originalUrl linkData;
     messageId := messageId linkData;
     channelId := channelId linkData;
     channelName := channelName linkData;
     guildId := guildId linkData;
     guildName := guildName linkData;
     authorId := authorId linkData;
     authorUsername := authorUsername linkData;
     authorDisplayName := authorDisplayName linkData;
     messageContent := messageContent linkData;
     messageTimestamp := messageTimestamp linkData;
     foundAt := foundAt linkData;
     createdAt := createdAt old |}.

(** [$setOnInsert: { createdAt: now }] on the document being inserted. *)
Definition set_on_insert (now : Z) (linkData : LinkData) : LinkData :=
  set_fields linkData
    {| url := []; originalUrl := []; messageId := []; channelId := [];
       channelName := []; guildId := None; guildName := None; authorId := [];
       authorUsername := []; authorDisplayName := []; messageContent := [];
       messageTimestamp := 0; foundAt := 0; createdAt := Some now |}.

Definition LinkData_eqb (a b : LinkData) : bool :=
  jseqb (url a) (url b) && jseqb (originalUrl a) (originalUrl b) &&
  jseqb (messageId a) (messageId b) && jseqb (channelId a) (channelId b) &&
  jseqb (channelName a) (channelName b) &&
  value_eqb (match guildId a with Some s => VStr s | None => VNull end)
            (match guildId b with Some s => VStr s | None => VNull end) &&
  value_eqb (match guildName a with Some s => VStr s | None => VNull end)
            (match guildName b with Some s => VStr s | None => VNull end) &&
  jseqb (authorId a) (authorId b) &&
  jseqb (authorUsername a) (authorUsername b) &&
  jseqb (authorDisplayName a) (authorDisplayName b) &&
  jseqb (messageContent a) (messageContent b) &&
  Z.eqb (messageTimestamp a) (messageTimestamp b) &&
  Z.eqb (foundAt a) (foundAt b) &&
  value_eqb (get_field F_createdAt a) (get_field F_createdAt b).

(** The first document matching the filter is updated in place. *)
Fixpoint update_first (ixs : list Index) (linkData : LinkData)
         (before rest : list LinkData) : option (list LinkData * write_result) :=
  match rest with
  | [] => None
  | d :: rest' =>
      if same_key linkData d then
        let d' := set_fields linkData d in
        if duplicate_key ixs (before ++ rest') d'
        then Some (before ++ rest, WriteError)
        else Some (before ++ d' :: rest',
                   if LinkData_eqb d d' then Matched else Modified)
      else update_first ixs linkData (before ++ [d]) rest'
  end.

(** [collection.updateOne(filter, { $set: linkData, $setOnInsert:
    { createdAt: now } }, { upsert: true })].  An update document that
    names [createdAt] under both operators is refused by the server. *)
Definition updateOne (c : Collection) (linkData : LinkData) (now : Z)
  : Collection * write_result :=
  match createdAt linkData with
  | Some _ => (c, WriteError)
  | None =>
      match update_first (indexes c) linkData [] (docs c) with
      | Some (ds, res) => ({| docs := ds; indexes := indexes c |}, res)
      | None =>
          let d := set_on_insert now linkData in
          if duplicate_key (indexes c) (docs c) d
          then (c, WriteError)
          else ({| docs := docs c ++ [d]; indexes := indexes c |}, Upserted)
      end
  end.

(* ================================================================== *)
(** * The bot *)

(** What [axios.head] gives: a failure (time-out, DNS, too many
    redirects, bad status), or a response with its final URL if any. *)
Inductive head_result : Type :=
| HeadFailed
| HeadOk (responseUrl : option jsstring).

Inductive fetch_result : Type :=
| Page (messages : list Message)
| FetchError (code : Z).

(** What [client.channels.fetch(channelId)] gives: an exception, nothing
    usable ([!channel || !channel.messages]), or a channel with its
    [messages.fetch({ limit, before })]. *)
Inductive channel_lookup : Type :=
| LookupError
| NoChannel
| TextChannel (name : jsstring)
              (messages_fetch : option jsstring -> Z -> fetch_result).

(** The world outside the process.  The clock and the HTTP client answer
    by the number of interactions so far, so they may change over time.
    [MongoClient_connect] says whether [mongoClient.connect()] succeeds. *)
Record Env := {
  Date_now : nat -> Z;
  Date_parse : jsstring -> option Z;
  axios_head : nat -> jsstring -> head_result;
  channels_fetch : jsstring -> channel_lookup;
  MongoClient_connect : bool
}.

(** The fields of [TwitterLinkBot], the documents behind
    [this.collection], the HTTP requests issued so far and the number of
    interactions with the clock and the network. *)
Record Bot := {
  historicalScrapingComplete : bool;
  scrapingInProgress : bool;
  testModeLinks : list LinkData;
  collection : Collection;
  requests : list jsstring;
  ticks : nat
}.

(** [new TwitterLinkBot()], next to a database holding [db]. *)
Definition TwitterLinkBot (db : Collection) : Bot :=
  {| historicalScrapingComplete := false;
     scrapingInProgress := false;
     testModeLinks := [];
     collection := db;
     requests := [];
     ticks := 0 |}.

Definition fresh_db : Collection := {| docs := []; indexes := [] |}.

Definition with_collection (c : Collection) (b : Bot) : Bot :=
  {| historicalScrapingComplete := historicalScrapingComplete b;
     scrapingInProgress := scrapingInProgress b;
     testModeLinks := testModeLinks b;
     collection := c;
     requests := requests b;
     ticks := ticks b |}.

Definition with_testModeLinks (l : list LinkData) (b : Bot) : Bot :=
  {| historicalScrapingComplete := historicalScrapingComplete b;
     scrapingInProgress := scrapingInProgress b;
     testModeLinks := l;
     collection := collection b;
     requests := requests b;
     ticks := ticks b |}.

Definition with_flags (complete inProgress : bool) (b : Bot) : Bot :=
  {| historicalScrapingComplete := complete;
     scrapingInProgress := inProgress;
     testModeLinks := testModeLinks b;
     collection := collection b;
     requests := requests b;
     ticks := ticks b |}.

(** ** A state monad over the bot *)

Definition M (A : Type) : Type := Bot -> A * Bot.

Definition ret {A} (a : A) : M A := fun b => (a, b).

Definition bind {A B} (m : M A) (k : A -> M B) : M B :=
  fun b => let (a, b') := m b in k a b'.

Notation "x <- m ;; k" := (bind m (fun x => k))
  (at level 100, m at next level, right associativity).

Fixpoint for_each {A} (f : A -> M unit) (l : list A) : M unit :=
  match l with
  | [] => ret tt
  | a :: l' => _ <- f a ;; for_each f l'
  end.

(** One more interaction with the outside world. *)
Definition tick (b : Bot) : Bot :=
  {| historicalScrapingComplete := historicalScrapingComplete b;
     scrapingInProgress := scrapingInProgress b;
     testModeLinks := testModeLinks b;
     collection := collection b;
     requests := requests b;
     ticks := S (ticks b) |}.

Definition with_request (u : jsstring) (b : Bot) : Bot :=
  {| historicalScrapingComplete := historicalScrapingComplete b;
     scrapingInProgress := scrapingInProgress b;
     testModeLinks := testModeLinks b;
     collection := collection b;
     requests := requests b ++ [u];
     ticks := ticks b |}.

(** [new Date()] *)
Definition new_Date (env : Env) : M Z :=
  fun b => (Date_now env (ticks b), tick b).

(** [axios.head(url, { maxRedirects: 5, timeout: 5000 })] *)
Definition head_request (env : Env) (u : jsstring) : M head_result :=
  fun b => (axios_head env (ticks b) u, tick (with_request u b)).

(** ** [parseScrapingDate] *)
Definition parseScrapingDate (env : Env) (dateString : option jsstring)
  : option Z :=
  if truthy dateString then
    match dateString with
    | Some s => Date_parse env s
    | None => None
    end
  else None.

(** ** [connectToMongoDB] *)

(** [None] is the exception the function rethrows: the connection could
    not be made, or one of the indexes could not be created.  The check
    of [MONGODB_URI] cannot fail here, [TEST_MODE] being set whenever the
    URI is missing. *)
Definition connectToMongoDB (cfg : Config) (env : Env) (b : Bot) : option Bot :=
  if TEST_MODE cfg then Some b
  else if negb (MongoClient_connect env) then None
  else
    match createIndex F_url false true (collection b) with
    | None => None
    | Some c1 =>
        match createIndex F_createdAt true false c1 with
        | None => None
        | Some c2 =>
            match createIndex F_messageTimestamp true false c2 with
            | None => None
            | Some c3 =>
                match createIndex F_messageId false true c3 with
                | None => None
                | Some c4 => Some (with_collection c4 b)
                end
            end
        end
    end.

(** ** [expandShortUrl] *)
Definition expandShortUrl (env : Env) (u : jsstring) : M jsstring :=
  if includes (lit "t.co") u then
    r <- head_request env u ;;
    match r with
    | HeadOk (Some (c :: rest)) => ret (c :: rest)
    | HeadOk _ => ret u
    | HeadFailed => ret u
    end
  else ret u.

(** ** [saveLinkToDatabase] *)
Definition saveLinkToDatabase (cfg : Config) (env : Env) (linkData : LinkData)
  : M unit :=
  if TEST_MODE cfg then
    fun b =>
      if existsb (same_key linkData) (testModeLinks b)
      then (tt, b)
      else (tt, with_testModeLinks (testModeLinks b ++ [linkData]) b)
  else
    now <- new_Date env ;;
    fun b =>
      let (c, _) := updateOne (collection b) linkData now in
      (tt, with_collection c b).

(** ** [processMessage] *)
Definition build_linkData (message : Message) (link expandedUrl : jsstring)
           (now : Z) : LinkData :=
  {| url := expandedUrl;
     originalUrl := link;
     messageId := msg_id message;
     channelId := channel_id (msg_channel message);
     channelName := channel_name (msg_channel message);
     guildId := or_null (option_map guild_id (msg_guild message));
     guildName := or_null (option_map guild_name (msg_guild message));
     authorId := author_id (msg_author message);
     authorUsername := username (msg_author message);
     authorDisplayName :=
       if truthy (displayName (msg_author message))
       then match displayName (msg_author message) with
            | Some d => d
            | None => username (msg_author message)
            end
       else username (msg_author message);
     messageContent := msg_content message;
     messageTimestamp := msg_createdAt message;
     foundAt := now;
     createdAt := None |}.

Definition guild_rejected (cfg : Config) (message : Message) : bool :=
  truthy (GUILD_ID cfg) &&
  match msg_guild message, GUILD_ID cfg with
  | Some g, Some wanted => negb (jseqb (guild_id g) wanted)
  | _, _ => true
  end.

Definition channel_rejected (cfg : Config) (message : Message) : bool :=
  negb (Nat.eqb (List.length (allowedChannels cfg)) 0) &&
  negb (existsb (jseqb (channel_id (msg_channel message))) (allowedChannels cfg)).

Definition processMessage (cfg : Config) (env : Env) (message : Message)
  : M unit :=
  if bot (msg_author message) then ret tt
  else if guild_rejected cfg message then ret tt
  else if channel_rejected cfg message then ret tt
  else
    for_each
      (fun link =>
         expandedUrl <- expandShortUrl env link ;;
         now <- new_Date env ;;
         saveLinkToDatabase cfg env (build_linkData message link expandedUrl now))
      (extractTwitterLinks (msg_content message)).

Definition process (cfg : Config) (env : Env) (message : Message) (b : Bot)
  : Bot :=
  snd (processMessage cfg env message b).

(* ================================================================== *)
(** * The historical scraper *)

(** The traversal of [scrapeHistoricalMessages], for any state [S] and any
    per-message action [proc] in place of [this.processMessage]. *)
Section Traversal.

Variable S : Type.
Variable proc : Message -> S -> S.

(** [for (const message of messages.values())]: the state, the cursor
    [lastMessageId], [messagesInDateRange] and [hasMoreMessages]. *)
Fixpoint scan_page (fromDate : Z) (page : list Message) (st : S)
         (lastMessageId : option jsstring) (inRange : nat)
  : S * option jsstring * nat * bool :=
  match page with
  | [] => (st, lastMessageId, inRange, true)
  | message :: page' =>
      if Z.ltb (msg_createdAt message) fromDate
      then (st, lastMessageId, inRange, false)
      else scan_page fromDate page' (proc message st)
                     (Some (msg_id message)) (Datatypes.S inRange)
  end.

(** [while (hasMoreMessages)]; [None] when [fuel] pages were not enough. *)
Fixpoint scrape_pages (fuel : nat)
         (messages_fetch : option jsstring -> Z -> fetch_result)
         (fromDate batch : Z) (lastMessageId : option jsstring) (st : S)
  : option S :=
  match fuel with
  | O => None
  | Datatypes.S fuel' =>
      match messages_fetch lastMessageId batch with
      | FetchError _ => Some st
      | Page [] => Some st
      | Page (m :: ms) =>
          match scan_page fromDate (m :: ms) st lastMessageId 0 with
          | (st', lastMessageId', inRange, hasMoreMessages) =>
              if hasMoreMessages && negb (Nat.eqb inRange 0)
              then scrape_pages fuel' messages_fetch fromDate batch
                                lastMessageId' st'
              else Some st'
          end
      end
  end.

(** [for (const channelId of allowedChannels)] *)
Fixpoint scrape_channels (fuel : nat) (env : Env) (fromDate batch : Z)
         (channels : list jsstring) (st : S) : option S :=
  match channels with
  | [] => Some st
  | channelId :: channels' =>
      match channels_fetch env channelId with
      | TextChannel _ messages_fetch =>
          match scrape_pages fuel messages_fetch fromDate batch None st with
          | Some st' => scrape_channels fuel env fromDate batch channels' st'
          | None => None
          end
      | NoChannel => scrape_channels fuel env fromDate batch channels' st
      | LookupError => scrape_channels fuel env fromDate batch channels' st
      end
  end.

End Traversal.

(** [scrapeHistoricalMessages] *)
Definition scrapeHistoricalMessages (cfg : Config) (env : Env) (fuel : nat)
           (b : Bot) : option Bot :=
  if negb (ENABLE_HISTORICAL_SCRAPING cfg) then Some b
  else
    match parseScrapingDate env (SCRAPE_FROM_DATE cfg) with
    | None => Some b
    | Some fromDate =>
        let b1 := with_flags (historicalScrapingComplete b) true b in
        match allowedChannels cfg with
        | [] => Some (with_flags (historicalScrapingComplete b1) false b1)
        | _ :: _ =>
            match scrape_channels (process cfg env) fuel env fromDate
                                  (BATCH_SIZE cfg) (allowedChannels cfg) b1 with
            | Some b2 => Some (with_flags true false b2)
            | None => None
            end
        end
    end.

(** ** The handlers of [setupEventListeners] *)

(** [client.once('ready', ...)] *)
Definition on_ready (cfg : Config) (env : Env) (fuel : nat) (b : Bot)
  : option Bot :=
  if ENABLE_HISTORICAL_SCRAPING cfg
  then scrapeHistoricalMessages cfg env fuel b
  else Some b.

(** [client.on('messageCreate', ...)] *)
Definition on_messageCreate (cfg : Config) (env : Env) (message : Message)
           (b : Bot) : Bot :=
  if negb (ENABLE_HISTORICAL_SCRAPING cfg) || historicalScrapingComplete b
  then process cfg env message b
  else b.

(* ================================================================== *)
(** * Reading the store *)

(** The records a reader of the store sees. *)
Definition stored (cfg : Config) (b : Bot) : list LinkData :=
  if TEST_MODE cfg then testModeLinks b else docs (collection b).

(** [[...new Set(xs)]] *)
Definition distinct (xs : list jsstring) : list jsstring :=
  fold_left (fun acc x => set_add x acc) xs [].

(** [xs.reduce((best, current) => better(current, best) ? current : best)] *)
Definition reduce_best (better : LinkData -> LinkData -> bool)
           (xs : list LinkData) : option LinkData :=
  match xs with
  | [] => None
  | x :: xs' =>
      Some (fold_left (fun best current =>
                         if better current best then current else best) xs' x)
  end.

Record Summary := {
  total : nat;
  channels : list jsstring;
  authors : list jsstring;
  oldest : option Z;
  newest : option Z
}.

(** What [showTestSummary] prints of [this.testModeLinks]. *)
Definition showTestSummary (links : list LinkData) : Summary :=
  {| total := List.length links;
     channels := distinct (map channelName links);
     authors := distinct (map authorUsername links);
     oldest := option_map messageTimestamp
                 (reduce_best (fun c o => Z.ltb (messageTimestamp c) (messageTimestamp o)) links);
     newest := option_map messageTimestamp
                 (reduce_best (fun c n => Z.ltb (messageTimestamp n) (messageTimestamp c)) links) |}.

(** ** The message history of a channel *)

(** The history API of the chat platform, an outside service, as the
    scraper relies on it: [hist] is the channel's history in the order the
    platform hands it out; a page holds up to [limit] messages (1 to 100,
    anything else is refused) that come after the message [before]. *)
Fixpoint older_than (i : jsstring) (hist : list Message) : list Message :=
  match hist with
  | [] => []
  | m :: hist' => if jseqb (msg_id m) i then hist' else older_than i hist'
  end.

Definition history_fetch (hist : list Message) (before : option jsstring)
           (limit : Z) : fetch_result :=
  if Z.leb 1 limit && Z.leb limit 100 then
    Page (firstn (Z.to_nat limit)
                 (match before with
                  | None => hist
                  | Some i => older_than i hist
                  end))
  else FetchError 50035.

(** The messages of [hist] from the newest down to the first one older
    than [fromDate]. *)
Fixpoint in_range_prefix (fromDate : Z) (hist : list Message) : list Message :=
  match hist with
  | [] => []
  | m :: hist' =>
      if Z.ltb (msg_createdAt m) fromDate then []
      else m :: in_range_prefix fromDate hist'
  end.

(* ================================================================== *)
(** * Notions used by the statements *)

(** ** The language of a pattern *)

(** [matches r m]: the text [m] is one that [r] can match. *)
Inductive matches : regex -> jsstring -> Prop :=
| M_Eps : matches Eps []
| M_Chr (p : jschar -> bool) (c : jschar) :
    p c = true -> matches (Chr p) [c]
| M_Seq (r1 r2 : regex) (m1 m2 : jsstring) :
    matches r1 m1 -> matches r2 m2 -> matches (Seq r1 r2) (m1 ++ m2)
| M_AltL (r1 r2 : regex) (m : jsstring) :
    matches r1 m -> matches (Alt r1 r2) m
| M_AltR (r1 r2 : regex) (m : jsstring) :
    matches r2 m -> matches (Alt r1 r2) m
| M_OptSome (r : regex) (m : jsstring) :
    matches r m -> matches (Opt r) m
| M_OptNone (r : regex) : matches (Opt r) []
| M_Plus (p : jschar -> bool) (c : jschar) (w : jsstring) :
    p c = true -> Forall (fun x => p x = true) w -> matches (Plus p) (c :: w)
| M_Eol : matches Eol [].

(** A pattern without the [$] assertion. *)
Fixpoint anchor_free (r : regex) : bool :=
  match r with
  | Eps | Chr _ | Plus _ => true
  | Seq r1 r2 | Alt r1 r2 => anchor_free r1 && anchor_free r2
  | Opt r1 => anchor_free r1
  | Eol => false
  end.

(** No character test of [r] accepts the code unit [b]. *)
Fixpoint avoids (b : jschar) (r : regex) : Prop :=
  match r with
  | Eps | Eol => True
  | Chr p | Plus p => p b = false
  | Seq r1 r2 | Alt r1 r2 => avoids b r1 /\ avoids b r2
  | Opt r1 => avoids b r1
  end.

(** The run of a class ends here: the text is over or goes on with a
    character outside the class. *)
Definition stops (p : jschar -> bool) (rest : jsstring) : Prop :=
  match rest with
  | [] => True
  | c :: _ => p c = false
  end.

(** Two optional results, related by [R] when both are there. *)
Definition orel {A B} (R : A -> B -> Prop) (a : option A) (b : option B)
  : Prop :=
  match a, b with
  | Some x, Some y => R x y
  | None, None => True
  | _, _ => False
  end.

(** ** Status links *)

(** A link of the shape [scheme://host/username/status/id]. *)
Record StatusUrl := {
  secure : bool;
  www : bool;
  on_x : bool;
  user : jsstring;
  status_id : jsstring
}.

Definition url_head (u : StatusUrl) : jsstring :=
  lit "http" ++ (if secure u then lit "s" else []) ++ lit "://" ++
  (if www u then lit "www." else []) ++
  (if on_x u then lit "x.com" else lit "twitter.com") ++ lit "/".

Definition url_path (u : StatusUrl) : jsstring :=
  user u ++ lit "/status/" ++ status_id u.

Definition render (u : StatusUrl) : jsstring := url_head u ++ url_path u.

Definition well_formed (u : StatusUrl) : Prop :=
  user u <> [] /\ Forall (fun c => is_word c = true) (user u) /\
  status_id u <> [] /\ Forall (fun c => is_digit c = true) (status_id u).

(** What may follow a link inside its word: nothing, or text without
    white space that does not go on with a digit (a query string, a
    fragment, punctuation). *)
Definition link_tail (q : jsstring) : Prop :=
  Forall (fun c => not_space c = true) q /\
  match q with
  | [] => True
  | c :: _ => is_digit c = false
  end.

(** The text stops here or goes on with white space. *)
Definition word_end (post : jsstring) : Prop :=
  match post with
  | [] => True
  | c :: _ => is_space c = true
  end.

(** The text is empty or ends in white space. *)
Definition word_start (pre : jsstring) : Prop :=
  pre = [] \/ exists pre' c, pre = pre' ++ [c] /\ is_space c = true.

(** ** Stores *)

(** A record without its [createdAt]: the [linkData] that was saved. *)
Definition linkData_of (d : LinkData) : LinkData :=
  {| url := url d;
     originalUrl := originalUrl d;
     messageId := messageId d;
     channelId := channelId d;
     channelName := channelName d;
     guildId := guildId d;
     guildName := guildName d;
     authorId := authorId d;
     authorUsername := authorUsername d;
     authorDisplayName := authorDisplayName d;
     messageContent := messageContent d;
     messageTimestamp := messageTimestamp d;
     foundAt := foundAt d;
     createdAt := None |}.

(** A sequence of [saveLinkToDatabase] calls. *)
Definition upserts (cfg : Config) (env : Env) (rs : list LinkData) (b : Bot)
  : Bot :=
  fold_left (fun b r => snd (saveLinkToDatabase cfg env r b)) rs b.

(** A sequence of [processMessage] calls. *)
Definition process_all (cfg : Config) (env : Env) (ms : list Message) (b : Bot)
  : Bot :=
  fold_left (fun b m => process cfg env m b) ms b.

(** The indexes [connectToMongoDB] creates. *)
Definition bot_indexes : list Index :=
  [ {| idx_field := F_url; idx_descending := false; idx_unique := true |};
    {| idx_field := F_createdAt; idx_descending := true; idx_unique := false |};
    {| idx_field := F_messageTimestamp; idx_descending := true;
       idx_unique := false |};
    {| idx_field := F_messageId; idx_descending := false; idx_unique := true |} ].

(** The bot once [connectToMongoDB] has run on an empty database. *)
Definition connected : Bot :=
  with_collection {| docs := []; indexes := bot_indexes |}
                  (TwitterLinkBot fresh_db).

(** The bot after [start()] against an empty database. *)
Definition started (cfg : Config) (env : Env) : option Bot :=
  connectToMongoDB cfg env (TwitterLinkBot fresh_db).

(** [m] leaves [historicalScrapingComplete] alone. *)
Definition keeps_flag {A} (m : M A) : Prop :=
  forall b, historicalScrapingComplete (snd (m b)) = historicalScrapingComplete b.

(** ** Histories *)

(** The history is newest first: no message is younger than one before it. *)
Definition newest_first (hist : list Message) : Prop :=
  StronglySorted (fun a c => (msg_createdAt c <= msg_createdAt a)%Z) hist.

(** The cursor after the messages [l] were processed one by one. *)
Definition cursor_after (cursor : option jsstring) (l : list Message)
  : option jsstring :=
  fold_left (fun _ m => Some (msg_id m)) l cursor.

(** ** Sample values *)

Definition sample_env : Env :=
  {| Date_now := fun n => (1700000000000 + Z.of_nat n)%Z;
     Date_parse := fun _ => None;
     axios_head := fun _ _ => HeadOk (Some (lit "https://x.com/i/flow/login"));
     channels_fetch := fun _ => NoChannel;
     MongoClient_connect := true |}.

Definition test_cfg : Config :=
  {| GUILD_ID := None; CHANNEL_ID_1 := None; CHANNEL_ID_2 := None;
     TEST_MODE := true; SCRAPE_FROM_DATE := None;
     ENABLE_HISTORICAL_SCRAPING := false; BATCH_SIZE := 100 |}.

Definition mongo_cfg : Config :=
  {| GUILD_ID := None; CHANNEL_ID_1 := None; CHANNEL_ID_2 := None;
     TEST_MODE := false; SCRAPE_FROM_DATE := None;
     ENABLE_HISTORICAL_SCRAPING := false; BATCH_SIZE := 100 |}.

(** Historical scraping switched on, with the cut-off date as given. *)
Definition scraping_cfg (date : option jsstring) : Config :=
  {| GUILD_ID := None; CHANNEL_ID_1 := Some (lit "900"); CHANNEL_ID_2 := None;
     TEST_MODE := true; SCRAPE_FROM_DATE := date;
     ENABLE_HISTORICAL_SCRAPING := true; BATCH_SIZE := 100 |}.

Definition sample_author : Author :=
  {| author_id := lit "42"; username := lit "ann"; displayName := None;
     bot := false |}.

Definition sample_channel : Channel :=
  {| channel_id := lit "900"; channel_name := lit "general" |}.

Definition sample_message (i : string) (t : Z) (body : string) : Message :=
  {| msg_id := lit i; msg_content := lit body; msg_createdAt := t;
     msg_author := sample_author; msg_channel := sample_channel;
     msg_guild := None |}.

Definition sample_link (i u : string) (found : Z) : LinkData :=
  build_linkData (sample_message i 1699999990000 u) (lit u) (lit u) found.

(** One message with two links, and two messages with the same link. *)
Definition two_links : Message :=
  sample_message "1" 1699999990000 "https://x.com/alice https://x.com/bob".

Definition same_link_twice : list Message :=
  [ sample_message "1" 1699999990000 "https://x.com/alice";
    sample_message "2" 1699999995000 "again: https://x.com/alice" ].

Definition live_message : Message :=
  sample_message "77" 1704500000000 "look https://x.com/foo/status/555?s=20".

Definition foo_555 : StatusUrl :=
  {| secure := true; www := false; on_x := true;
     user := lit "foo"; status_id := lit "555" |}.

(** The spec's scenario: cut-off 2024-01-01, a page holding a message of
    2024-01-05 and then one of 2023-12-20. *)
Definition jan_1_2024 : Z := 1704067200000.

Definition scenario_history : list Message :=
  [ sample_message "30" 1704412800000 "https://x.com/foo/status/555?s=20";
    sample_message "20" 1703030400000 "https://x.com/old/status/1" ].

Definition scenario_env : Env :=
  {| Date_now := Date_now sample_env;
     Date_parse := fun _ => Some jan_1_2024;
     axios_head := axios_head sample_env;
     channels_fetch := fun _ => TextChannel (lit "general")
                                            (history_fetch scenario_history);
     MongoClient_connect := true |}.

(* ================================================================== *)
(** * The queries of [TwitterLinkQuery] *)

(** [cursor.sort({ key: 1 })], [cursor.sort({ key: -1 })] and the [$sort]
    stage: [d] goes before the first element that [ahead] does not put
    ahead of it.  The server leaves the order of elements with equal keys
    open; here they keep the order they had. *)
Fixpoint insert_by {A} (ahead : A -> A -> bool) (d : A) (l : list A) : list A :=
  match l with
  | [] => [d]
  | e :: l' => if ahead e d then e :: insert_by ahead d l' else d :: l
  end.

Definition sort_by {A} (ahead : A -> A -> bool) (l : list A) : list A :=
  fold_right (insert_by ahead) [] l.

(** [{ key: -1 }]: larger keys first. *)
Definition descending (key : LinkData -> Z) (e d : LinkData) : bool :=
  Z.ltb (key d) (key e).

(** [{ key: 1 }]: smaller keys first. *)
Definition ascending (key : LinkData -> Z) (e d : LinkData) : bool :=
  Z.ltb (key e) (key d).

(** [cursor.limit(n)] for a count [n]; a limit of 0 is no limit. *)
Definition limit {A} (n : nat) (l : list A) : list A :=
  match n with
  | O => l
  | Datatypes.S _ => firstn n l
  end.

(** [getLinksByUser(authorId, limit = 10)] *)
Definition getLinksByUser (c : Collection) (author : jsstring)
           (lim : option nat) : list LinkData :=
  limit (match lim with Some n => n | None => 10 end)
        (sort_by (descending foundAt)
                 (filter (fun d => jseqb (authorId d) author) (docs c))).

(** [getLinksByChannel(channelId, limit = 10)] *)
Definition getLinksByChannel (c : Collection) (chan : jsstring)
           (lim : option nat) : list LinkData :=
  limit (match lim with Some n => n | None => 10 end)
        (sort_by (descending foundAt)
                 (filter (fun d => jseqb (channelId d) chan) (docs c))).

(** [getLinksByDateRange(startDate, endDate)] *)
Definition getLinksByDateRange (c : Collection) (startDate endDate : Z)
  : list LinkData :=
  sort_by (descending messageTimestamp)
          (filter (fun d => Z.leb startDate (messageTimestamp d) &&
                            Z.leb (messageTimestamp d) endDate)
                  (docs c)).

(** A row of [getTopPosters]. *)
Record Poster := {
  poster_id : jsstring;
  poster_username : jsstring;
  poster_count : nat
}.

(** [$group: { _id: '$authorId', username: { $first: '$authorUsername' },
    count: { $sum: 1 } }], one document at a time. *)
Fixpoint count_in (d : LinkData) (groups : list Poster) : list Poster :=
  match groups with
  | [] => [ {| poster_id := authorId d;
               poster_username := authorUsername d;
               poster_count := 1 |} ]
  | g :: groups' =>
      if jseqb (poster_id g) (authorId d)
      then {| poster_id := poster_id g;
              poster_username := poster_username g;
              poster_count := S (poster_count g) |} :: groups'
      else g :: count_in d groups'
  end.

Definition group_by_author (ds : list LinkData) : list Poster :=
  fold_left (fun groups d => count_in d groups) ds [].

(** [$sort: { count: -1 }] *)
Definition sort_posters (l : list Poster) : list Poster :=
  sort_by (fun e g => Nat.ltb (poster_count g) (poster_count e)) l.

(** [getTopPosters(limit = 10)]; the [$limit] stage refuses 0. *)
Definition getTopPosters (c : Collection) (lim : option nat)
  : option (list Poster) :=
  match match lim with Some n => n | None => 10 end with
  | O => None
  | Datatypes.S n => Some (firstn (S n) (sort_posters (group_by_author (docs c))))
  end.

(** The result of [getScrapingStats]. *)
Record Stats := {
  totalLinks : nat;
  stats_oldest : option Z;
  stats_newest : option Z
}.

(** [getScrapingStats()]: [countDocuments()] and the first document in
    each order of [messageTimestamp]. *)
Definition getScrapingStats (c : Collection) : Stats :=
  {| totalLinks := List.length (docs c);
     stats_oldest := option_map messageTimestamp
                       (hd_error (sort_by (ascending messageTimestamp) (docs c)));
     stats_newest := option_map messageTimestamp
                       (hd_error (sort_by (descending messageTimestamp) (docs c))) |}.

(** ** Notions for the statements about stores and queries *)

(** What identifies a stored record and must not change: its key and its
    [createdAt]. *)
Definition identity (d : LinkData) : jsstring * jsstring * option Z :=
  (messageId d, url d, createdAt d).

(** Sorted by decreasing [key]. *)
Definition decreasing {A} (key : A -> Z) (l : list A) : Prop :=
  StronglySorted (fun a c => (key c <= key a)%Z) l.

(** The number of records of an author. *)
Definition links_of (author : jsstring) (ds : list LinkData) : nat :=
  List.length (filter (fun d => jseqb (authorId d) author) ds).

(** The channels the scraper can read. *)
Definition readable (env : Env) (c : jsstring) : bool :=
  match channels_fetch env c with
  | TextChannel _ _ => true
  | _ => false
  end.

(** The per-message action that only notes the message. *)
Definition note (message : Message) (seen : list Message) : list Message :=
  seen ++ [message].


(** A pattern character that is no letter: the [i] flag does not matter
    for it. *)
Definition plain (x : jschar) : bool :=
  negb (in_range 65 90 x) && negb (in_range 97 122 x).

(** The start of a link: [http] in any case first, [://] somewhere, a
    slash last. *)
Definition link_start (h : jsstring) : Prop :=
  map upcase (firstn 4 h) = lit "HTTP" /\
  includes (lit "://") h = true /\
  (forall body c, h = body ++ [c] -> c = 47%N).


(** A link of the shortener, written in lower case. *)
Definition short_link (secure : bool) (w : jsstring) : jsstring :=
  lit "http" ++ (if secure then lit "s" else []) ++ lit "://t.co/" ++ w.

(** ** Notions for the statements about [processMessage] *)

(** The message passes the filters of [processMessage]. *)
Definition accepted (cfg : Config) (message : Message) : bool :=
  negb (bot (msg_author message)) && negb (guild_rejected cfg message) &&
  negb (channel_rejected cfg message).

(** The record [d] is one that [processMessage] makes from [message]: the
    message passed the filters, the original link is one of the extracted
    links, the fields are those of the [linkData] object, and the URL is
    the link itself unless [t.co] occurs in the link. *)
Definition made_from (cfg : Config) (message : Message) (d : LinkData) : Prop :=
  accepted cfg message = true /\
  In (originalUrl d) (extractTwitterLinks (msg_content message)) /\
  linkData_of d =
    build_linkData message (originalUrl d) (url d) (foundAt d) /\
  (includes (lit "t.co") (originalUrl d) = false -> url d = originalUrl d).

(** The two unique indexes of [connectToMongoDB]. *)
Definition url_index : Index :=
  {| idx_field := F_url; idx_descending := false; idx_unique := true |}.

Definition messageId_index : Index :=
  {| idx_field := F_messageId; idx_descending := false; idx_unique := true |}.

(** The index [i] is declared on [c] and holds of its documents. *)
Definition enforced (i : Index) (c : Collection) : Prop :=
  In i (indexes c) /\ no_duplicates i (docs c) = true.

(** The key under which [saveLinkToDatabase] files a record. *)
Definition record_key (d : LinkData) : jsstring * jsstring :=
  (messageId d, url d).

(** The messages the traversal hands to its per-message action, in order;
    [None] when [fuel] pages were not enough. *)
Definition visited (fuel : nat) (env : Env) (fromDate batch : Z)
           (chans : list jsstring) : option (list Message) :=
  scrape_channels note fuel env fromDate batch chans [].

(** The counts of the rows for an author, added up. *)
Definition tally (author : jsstring) (groups : list Poster) : nat :=
  list_sum (map poster_count
                (filter (fun g => jseqb (poster_id g) author) groups)).

(** Every index declared on [c] holds of its documents, as on a server,
    which builds an index before it declares it and checks every write
    against it. *)
Definition consistent (c : Collection) : Prop :=
  forall i, In i (indexes c) -> no_duplicates i (docs c) = true.

(** [c] has no index with the key pattern of [i]. *)
Definition unindexed (c : Collection) (i : Index) : Prop :=
  find (same_pattern i) (indexes c) = None.

(** No status link starts inside [w0] in the word [w0 ++ rest]: no piece
    of the word that begins in [w0] is matched by the status pattern. *)
Definition no_status_before (w0 rest : jsstring) : Prop :=
  forall a m c,
    w0 ++ rest = a ++ m ++ c ->
    List.length a < List.length w0 ->
    ~ matches statusPattern m.

(** The same channel configured under both names. *)
Definition same_channel_twice : Config :=
  {| GUILD_ID := None; CHANNEL_ID_1 := Some (lit "900");
     CHANNEL_ID_2 := Some (lit "900"); TEST_MODE := true;
     SCRAPE_FROM_DATE := Some (lit "2024-01-01");
     ENABLE_HISTORICAL_SCRAPING := true; BATCH_SIZE := 100 |}.

(* ================================================================== *)
(** * The scraper on the event loop *)

(** [messageCreate] events, handled one after the other. *)
Definition deliver (cfg : Config) (env : Env) (events : list Message)
           (b : Bot) : Bot :=
  fold_left (fun b message => on_messageCreate cfg env message b) events b.

(** [scrapeHistoricalMessages] with the [messageCreate] handler running in
    between.  The function is asynchronous: from the first channel lookup
    on it awaits the lookups, the pages and [processMessage], and at
    these points the handler runs on the events that have arrived:
    [early] before the first message is processed, [arrivals m] when the
    step for the message [m] is done.  The returns before the traversal,
    and the two assignments after it, happen without a wait. *)
Definition scrapeHistoricalMessages_among (cfg : Config) (env : Env)
           (fuel : nat) (early : list Message)
           (arrivals : Message -> list Message) (b : Bot) : option Bot :=
  if negb (ENABLE_HISTORICAL_SCRAPING cfg) then Some b
  else
    match parseScrapingDate env (SCRAPE_FROM_DATE cfg) with
    | None => Some b
    | Some fromDate =>
        let b1 := with_flags (historicalScrapingComplete b) true b in
        match allowedChannels cfg with
        | [] => Some (with_flags (historicalScrapingComplete b1) false b1)
        | _ :: _ =>
            match scrape_channels
                    (fun message b =>
                       deliver cfg env (arrivals message)
                               (process cfg env message b))
                    fuel env fromDate (BATCH_SIZE cfg) (allowedChannels cfg)
                    (deliver cfg env early b1) with
            | Some b2 => Some (with_flags true false b2)
            | None => None
            end
        end
    end.

(* ================================================================== *)
(** * Strings *)

Lemma jseqb_eq (a b : jsstring) : jseqb a b = true <-> a = b.
Proof.
  revert b; induction a as [|x a IH]; intros [|y b]; simpl;
    try (split; [discriminate | discriminate]); try tauto.
  rewrite andb_true_iff, N.eqb_eq, IH.
  split; [intros [-> ->]; reflexivity | intros H; inversion H; auto].
Qed.

Lemma jseqb_refl (a : jsstring) : jseqb a a = true.
Proof. apply jseqb_eq; reflexivity. Qed.

Lemma jseqb_neq (a b : jsstring) : jseqb a b = false <-> a <> b.
Proof.
  rewrite <- jseqb_eq. destruct (jseqb a b); split; congruence.
Qed.

Lemma same_key_iff (r d : LinkData) :
  same_key r d = true <-> messageId d = messageId r /\ url d = url r.
Proof.
  unfold same_key. rewrite andb_true_iff, !jseqb_eq. tauto.
Qed.

(* ================================================================== *)
(** * The in-memory store *)

Lemma save_test_mode (cfg : Config) (env : Env) (r : LinkData) (b : Bot) :
  TEST_MODE cfg = true ->
  saveLinkToDatabase cfg env r b =
  (tt, if existsb (same_key r) (testModeLinks b) then b
       else with_testModeLinks (testModeLinks b ++ [r]) b).
Proof.
  intros H. unfold saveLinkToDatabase. rewrite H.
  destruct (existsb _ _); reflexivity.
Qed.

Lemma expand_keeps_links (env : Env) (u : jsstring) (b : Bot) :
  testModeLinks (snd (expandShortUrl env u b)) = testModeLinks b.
Proof.
  unfold expandShortUrl. destruct (includes _ u); [|reflexivity].
  unfold bind, head_request.
  destruct (axios_head env (ticks b) u) as [|[[|c rest]|]]; reflexivity.
Qed.

Section NoCreatedAt.

Variables (cfg : Config) (env : Env).
Hypothesis test_mode : TEST_MODE cfg = true.

Let clean (b : Bot) : Prop :=
  Forall (fun r => createdAt r = None) (testModeLinks b).

Lemma save_clean (r : LinkData) (b : Bot) :
  createdAt r = None -> clean b ->
  clean (snd (saveLinkToDatabase cfg env r b)).
Proof.
  intros Hr Hb. rewrite save_test_mode by exact test_mode. simpl.
  destruct (existsb _ _); [exact Hb|].
  unfold clean; simpl. apply Forall_app; split; [exact Hb|].
  constructor; [exact Hr | constructor].
Qed.

Lemma links_clean (message : Message) (links : list jsstring) (b : Bot) :
  clean b ->
  clean (snd (for_each
                (fun link =>
                   expandedUrl <- expandShortUrl env link ;;
                   now <- new_Date env ;;
                   saveLinkToDatabase cfg env
                     (build_linkData message link expandedUrl now))
                links b)).
Proof.
  revert b; induction links as [|link links IH]; intros b Hb; [exact Hb|].
  simpl. unfold bind at 1.
  match goal with |- context [let (_, _) := ?m b in _] =>
    destruct m as [[] b'] eqn:E end.
  apply IH.
  replace b' with (snd (tt, b')) by reflexivity. rewrite <- E.
  unfold bind.
  destruct (expandShortUrl env link b) as [e b1] eqn:E1.
  unfold new_Date at 1.
  apply save_clean; [reflexivity|].
  unfold clean; simpl.
  replace (testModeLinks b1) with (testModeLinks b); [exact Hb|].
  rewrite <- (expand_keeps_links env link b), E1; reflexivity.
Qed.

Lemma process_clean (message : Message) (b : Bot) :
  clean b -> clean (process cfg env message b).
Proof.
  intros Hb. unfold process, processMessage.
  destruct (bot _); [exact Hb|].
  destruct (guild_rejected _ _); [exact Hb|].
  destruct (channel_rejected _ _); [exact Hb|].
  apply links_clean; exact Hb.
Qed.

Lemma process_all_clean (ms : list Message) (b : Bot) :
  clean b -> clean (process_all cfg env ms b).
Proof.
  revert b; induction ms as [|m ms IH]; intros b Hb; [exact Hb|].
  simpl. apply IH, process_clean, Hb.
Qed.

End NoCreatedAt.

(** C10.  In test mode [saveLinkToDatabase] only ever inserts: when a
    record with the same [messageId] and [url] is already in
    [testModeLinks], the call leaves the whole bot (so the collection and
    that record's [foundAt]) as it was; and whatever messages are run
    through [processMessage] from a new bot, no record of [testModeLinks]
    has a [createdAt]. *)
Theorem C10_test_mode_insert_only (cfg : Config) (env : Env) :
  TEST_MODE cfg = true ->
  (forall (linkData : LinkData) (b : Bot),
      (exists link, In link (testModeLinks b) /\
                    messageId link = messageId linkData /\
                    url link = url linkData) ->
      saveLinkToDatabase cfg env linkData b = (tt, b)) /\
  (forall (db : Collection) (ms : list Message),
      Forall (fun r => createdAt r = None)
             (testModeLinks (process_all cfg env ms (TwitterLinkBot db)))).
Proof.
  intros Ht; split.
  - intros r b (link & Hin & Hm & Hu).
    rewrite save_test_mode by exact Ht.
    replace (existsb (same_key r) (testModeLinks b)) with true; [reflexivity|].
    symmetry. apply existsb_exists. exists link; split; [exact Hin|].
    apply same_key_iff; auto.
  - intros db ms. apply process_all_clean; [exact Ht | constructor].
Qed.

Lemma C10_test_mode_insert_only_witness :
  TEST_MODE test_cfg = true /\
  saveLinkToDatabase test_cfg sample_env (sample_link "1" "https://x.com/a" 7)
    (with_testModeLinks [sample_link "1" "https://x.com/a" 5]
                        (TwitterLinkBot fresh_db)) =
  (tt, with_testModeLinks [sample_link "1" "https://x.com/a" 5]
                          (TwitterLinkBot fresh_db)).
Proof.
  split; [reflexivity|].
  apply (proj1 (C10_test_mode_insert_only test_cfg sample_env eq_refl)).
  exists (sample_link "1" "https://x.com/a" 5).
  split; [left; reflexivity | split; reflexivity].
Defined.

(* ================================================================== *)
(** * The MongoDB store *)

Lemma started_mongo : started mongo_cfg sample_env = Some connected.
Proof. reflexivity. Qed.

Lemma save_mongo (cfg : Config) (env : Env) (r : LinkData) (b : Bot) :
  TEST_MODE cfg = false ->
  saveLinkToDatabase cfg env r b =
  (tt, with_collection
         (fst (updateOne (collection b) r (Date_now env (ticks b)))) (tick b)).
Proof.
  intros H. unfold saveLinkToDatabase. rewrite H.
  unfold bind, new_Date. simpl.
  destruct (updateOne _ _ _); reflexivity.
Qed.

Lemma update_first_length ixs r before rest ds res :
  update_first ixs r before rest = Some (ds, res) ->
  List.length ds = List.length (before ++ rest).
Proof.
  revert before; induction rest as [|d rest IH]; intros before; simpl;
    [discriminate|].
  destruct (same_key r d).
  - destruct (duplicate_key _ _ _); intros H; inversion H; subst;
      [reflexivity|]. rewrite !length_app; reflexivity.
  - intros H. apply IH in H. rewrite H, <- app_assoc. reflexivity.
Qed.

Lemma update_first_none ixs r before rest :
  update_first ixs r before rest = None <->
  forallb (fun d => negb (same_key r d)) rest = true.
Proof.
  revert before; induction rest as [|d rest IH]; intros before; simpl;
    [tauto|].
  destruct (same_key r d); simpl.
  - destruct (duplicate_key _ _ _); split; discriminate.
  - apply IH.
Qed.

Lemma update_first_skip ixs r before pre rest :
  forallb (fun d => negb (same_key r d)) pre = true ->
  update_first ixs r before (pre ++ rest) =
  update_first ixs r (before ++ pre) rest.
Proof.
  revert before; induction pre as [|d pre IH]; intros before H; simpl.
  - rewrite app_nil_r; reflexivity.
  - simpl in H. apply andb_true_iff in H as [Hd Hp].
    apply negb_true_iff in Hd. rewrite Hd, IH by exact Hp.
    rewrite <- app_assoc; reflexivity.
Qed.

(** On the bot's indexes only [url] and [messageId] can reject a record. *)
Lemma duplicate_key_bot (others : list LinkData) (d : LinkData) :
  duplicate_key bot_indexes others d =
  existsb (fun e => jseqb (url d) (url e)) others ||
  existsb (fun e => jseqb (messageId d) (messageId e)) others.
Proof.
  unfold duplicate_key, bot_indexes, clash; simpl.
  rewrite !orb_false_r.
  replace (existsb (fun _ => false) others) with false
    by (induction others; simpl; auto).
  reflexivity.
Qed.

Lemma filter_none {A} (f : A -> bool) (l : list A) :
  forallb (fun x => negb (f x)) l = true -> filter f l = [].
Proof.
  induction l as [|x l IH]; simpl; [reflexivity|].
  intros H. apply andb_true_iff in H as [Hx Hl].
  apply negb_true_iff in Hx. rewrite Hx. auto.
Qed.

(** What a call that made the store grow did: it inserted. *)
Lemma updateOne_grows (c : Collection) (r : LinkData) (now : Z) :
  List.length (docs (fst (updateOne c r now))) = S (List.length (docs c)) ->
  createdAt r = None /\
  forallb (fun d => negb (same_key r d)) (docs c) = true /\
  duplicate_key (indexes c) (docs c) (set_on_insert now r) = false /\
  fst (updateOne c r now) =
  {| docs := docs c ++ [set_on_insert now r]; indexes := indexes c |}.
Proof.
  unfold updateOne. destruct (createdAt r); simpl; [lia|].
  destruct (update_first _ r [] (docs c)) as [[ds res]|] eqn:E; simpl.
  - apply update_first_length in E. simpl in E. lia.
  - apply update_first_none in E.
    destruct (duplicate_key _ _ _); simpl; [lia|]. auto.
Qed.

Section Resave.

Variables (cfg : Config) (env : Env) (r1 r2 : LinkData) (b : Bot).
Hypothesis same_message : messageId r2 = messageId r1.
Hypothesis same_url : url r2 = url r1.

Let b1 : Bot := snd (saveLinkToDatabase cfg env r1 b).
Let b2 : Bot := snd (saveLinkToDatabase cfg env r2 b1).

Lemma same_key_r2 (d : LinkData) : same_key r2 d = same_key r1 d.
Proof. unfold same_key. rewrite same_message, same_url. reflexivity. Qed.

Lemma none_r2 (l : list LinkData) :
  forallb (fun d => negb (same_key r2 d)) l =
  forallb (fun d => negb (same_key r1 d)) l.
Proof.
  induction l as [|d l IH]; simpl; [reflexivity|].
  rewrite same_key_r2, IH; reflexivity.
Qed.

Lemma resave_mongo :
  TEST_MODE cfg = false ->
  indexes (collection b) = bot_indexes ->
  createdAt r2 = None ->
  List.length (stored cfg b1) = S (List.length (stored cfg b)) ->
  stored cfg b2 =
  stored cfg b ++ [set_fields r2 (set_on_insert (Date_now env (ticks b)) r1)] /\
  filter (same_key r1) (stored cfg b2) =
  [set_fields r2 (set_on_insert (Date_now env (ticks b)) r1)].
Proof.
  intros Hm Hix Hc2. unfold stored, b2, b1. rewrite Hm.
  rewrite !save_mongo by exact Hm. simpl. intros Hlen.
  apply updateOne_grows in Hlen as (Hc1 & Hnone & Hdup & ->).
  set (d1 := set_on_insert (Date_now env (ticks b)) r1) in *.
  assert (Hskip : forallb (fun d => negb (same_key r2 d)) (docs (collection b)) = true).
  { rewrite none_r2; exact Hnone. }
  assert (Hk : same_key r2 d1 = true).
  { apply same_key_iff. simpl. auto. }
  assert (Hdup' : duplicate_key bot_indexes (docs (collection b)) (set_fields r2 d1) = false).
  { rewrite Hix in Hdup. rewrite duplicate_key_bot in *. simpl in *.
    rewrite same_message, same_url. exact Hdup. }
  match goal with |- context [updateOne ?c r2 ?t] =>
    assert (Hu : fst (updateOne c r2 t) =
                 {| docs := docs (collection b) ++ [set_fields r2 d1];
                    indexes := bot_indexes |})
  end.
  { unfold updateOne. rewrite Hc2. simpl.
    rewrite (update_first_skip _ _ [] _ [d1] Hskip). simpl.
    rewrite Hk, app_nil_r, Hix, Hdup'. reflexivity. }
  rewrite Hu. simpl.
  split; [reflexivity|].
  rewrite filter_app, filter_none by exact Hnone. simpl.
  replace (same_key r1 (set_fields r2 d1)) with true; [reflexivity|].
  symmetry; apply same_key_iff; simpl; auto.
Qed.

Lemma resave_test :
  TEST_MODE cfg = true ->
  List.length (stored cfg b1) = S (List.length (stored cfg b)) ->
  stored cfg b2 = stored cfg b ++ [r1] /\
  filter (same_key r1) (stored cfg b2) = [r1].
Proof.
  intros Ht. unfold stored, b2, b1. rewrite Ht.
  rewrite !save_test_mode by exact Ht. simpl.
  destruct (existsb (same_key r1) (testModeLinks b)) eqn:E; simpl; [lia|].
  intros _.
  replace (existsb (same_key r2) (testModeLinks b ++ [r1])) with true.
  - simpl. split; [reflexivity|].
    rewrite filter_app, filter_none; simpl.
    + replace (same_key r1 r1) with true; [reflexivity|].
      symmetry; apply same_key_iff; auto.
    + clear -E. induction (testModeLinks b) as [|d l IH]; simpl in *; [reflexivity|].
      apply orb_false_iff in E as [-> E]. simpl. auto.
  - symmetry. rewrite existsb_app. simpl.
    replace (same_key r2 r1) with true; [rewrite orb_true_r; reflexivity|].
    symmetry; apply same_key_iff; auto.
Qed.

End Resave.




(** C1, on the code.  [connectToMongoDB] makes [messageId] alone and [url]
    alone unique, and nothing makes the pair unique.  So of the two
    records of one message only the first is stored on MongoDB, and of two
    messages with the same link only the first gets a record, while test
    mode stores both records in either case. *)
Theorem C1_second_link_rejected :
  extractTwitterLinks (msg_content two_links) =
    [lit "https://x.com/alice"; lit "https://x.com/bob"] /\
  started mongo_cfg sample_env = Some connected /\
  map url (stored mongo_cfg (process mongo_cfg sample_env two_links connected)) =
    [lit "https://x.com/alice"] /\
  map url (stored test_cfg
             (process test_cfg sample_env two_links (TwitterLinkBot fresh_db))) =
    [lit "https://x.com/alice"; lit "https://x.com/bob"] /\
  map messageId
      (stored mongo_cfg (process_all mongo_cfg sample_env same_link_twice connected)) =
    [lit "1"] /\
  map messageId
      (stored test_cfg
         (process_all test_cfg sample_env same_link_twice (TwitterLinkBot fresh_db))) =
    [lit "1"; lit "2"].
Proof. vm_compute. repeat split. Qed.

(* ================================================================== *)
(** * The two stores side by side *)

Lemma linkData_of_insert (now : Z) (r : LinkData) :
  createdAt r = None -> linkData_of (set_on_insert now r) = r.
Proof. destruct r; simpl; intros ->; reflexivity. Qed.

Lemma existsb_false {A} (f : A -> bool) (l : list A) :
  (forall x, In x l -> f x = false) -> existsb f l = false.
Proof.
  induction l as [|x l IH]; simpl; intros H; [reflexivity|].
  rewrite (H x) by auto. apply IH; auto.
Qed.

Lemma forallb_true {A} (f : A -> bool) (l : list A) :
  (forall x, In x l -> f x = true) -> forallb f l = true.
Proof.
  induction l as [|x l IH]; simpl; intros H; [reflexivity|].
  rewrite (H x) by auto. apply IH; auto.
Qed.

Section SideBySide.

Variables (cfg_t cfg_m : Config) (env : Env).
Hypothesis test_mode : TEST_MODE cfg_t = true.
Hypothesis mongo_mode : TEST_MODE cfg_m = false.

(** No stored record shares a [messageId] or a [url] with [r]. *)
Let apart (r : LinkData) (ds : list LinkData) : Prop :=
  forall d, In d ds -> messageId d <> messageId r /\ url d <> url r.

Lemma upserts_distinct (rs : list LinkData) :
  forall bt bm : Bot,
    indexes (collection bm) = bot_indexes ->
    Forall (fun r => createdAt r = None) rs ->
    NoDup (map messageId rs) ->
    NoDup (map url rs) ->
    (forall r, In r rs -> apart r (docs (collection bm))) ->
    map linkData_of (docs (collection bm)) = testModeLinks bt ->
    map linkData_of (docs (collection (upserts cfg_m env rs bm))) =
    testModeLinks (upserts cfg_t env rs bt).
Proof.
  induction rs as [|r rs IH]; intros bt bm Hix Hc Hm Hu Hap Heq;
    [exact Heq|].
  simpl. inversion Hc as [|? ? Hr Hc']; subst.
  inversion Hm as [|? ? Hm1 Hm2]; subst.
  inversion Hu as [|? ? Hu1 Hu2]; subst.
  assert (Hr_ap : apart r (docs (collection bm))) by (apply Hap; left; reflexivity).
  rewrite (save_test_mode cfg_t env r bt test_mode).
  rewrite (save_mongo cfg_m env r bm mongo_mode). simpl.
  assert (Hnone : forallb (fun d => negb (same_key r d)) (docs (collection bm)) = true).
  { apply forallb_true. intros d Hd. apply negb_true_iff.
    destruct (same_key r d) eqn:E; [|reflexivity].
    apply same_key_iff in E as [E _]. destruct (Hr_ap d Hd); contradiction. }
  assert (Hnew : existsb (same_key r) (testModeLinks bt) = false).
  { rewrite <- Heq. apply existsb_false. intros d Hd.
    apply in_map_iff in Hd as (e & <- & He).
    destruct (same_key r (linkData_of e)) eqn:E; [|reflexivity].
    apply same_key_iff in E as [E _]. simpl in E.
    destruct (Hr_ap e He); contradiction. }
  rewrite Hnew.
  assert (Hup : fst (updateOne (collection bm) r (Date_now env (ticks bm))) =
                {| docs := docs (collection bm) ++ [set_on_insert (Date_now env (ticks bm)) r];
                   indexes := bot_indexes |}).
  { unfold updateOne. rewrite Hr.
    replace (update_first _ r [] (docs (collection bm))) with (@None (list LinkData * write_result))
      by (symmetry; apply update_first_none; exact Hnone).
    rewrite Hix, duplicate_key_bot. simpl.
    rewrite !existsb_false; [reflexivity| |].
    - intros d Hd. apply jseqb_neq. intros E. destruct (Hr_ap d Hd); congruence.
    - intros d Hd. apply jseqb_neq. intros E. destruct (Hr_ap d Hd); congruence. }
  rewrite Hup. apply IH; simpl; try assumption; try reflexivity.
  - intros r' Hr' d Hd. apply in_app_or in Hd as [Hd|[<-|[]]].
    + apply (Hap r'); [right; exact Hr' | exact Hd].
    + simpl. split; intros E.
      * apply Hm1. rewrite E. apply in_map; exact Hr'.
      * apply Hu1. rewrite E. apply in_map; exact Hr'.
  - rewrite map_app, Heq. simpl. rewrite linkData_of_insert by exact Hr.
    reflexivity.
Qed.

End SideBySide.

Lemma reduce_best_map (better : LinkData -> LinkData -> bool) (l : list LinkData) :
  (forall a c, better (linkData_of a) (linkData_of c) = better a c) ->
  reduce_best better (map linkData_of l) =
  option_map linkData_of (reduce_best better l).
Proof.
  intros Hb. destruct l as [|x l]; [reflexivity|]. simpl. f_equal.
  revert x; induction l as [|y l IH]; intros x; [reflexivity|].
  simpl. rewrite Hb. destruct (better y x); apply IH.
Qed.

Lemma summary_of_linkData (l : list LinkData) :
  showTestSummary (map linkData_of l) = showTestSummary l.
Proof.
  unfold showTestSummary.
  rewrite length_map, !map_map, !reduce_best_map by reflexivity.
  f_equal; destruct (reduce_best _ l); reflexivity.
Qed.

(** C6, as the code has it.  Over a sequence of records that carry no
    [createdAt] and share no [messageId] and no [url], started on empty
    stores, the MongoDB store and the test-mode store hold the same
    records in the same order, field for field once the [createdAt] that
    only MongoDB adds is left out, and [showTestSummary] reads the same
    from both. *)
Theorem C6_stores_agree_on_distinct (cfg_t cfg_m : Config) (env : Env)
        (rs : list LinkData) :
  TEST_MODE cfg_t = true ->
  TEST_MODE cfg_m = false ->
  Forall (fun r => createdAt r = None) rs ->
  NoDup (map messageId rs) ->
  NoDup (map url rs) ->
  let t := stored cfg_t (upserts cfg_t env rs (TwitterLinkBot fresh_db)) in
  let m := stored cfg_m (upserts cfg_m env rs connected) in
  map linkData_of m = t /\ showTestSummary m = showTestSummary t.
Proof.
  intros Ht Hm Hc Hmid Hurl t m.
  assert (E : map linkData_of m = t).
  { unfold t, m, stored. rewrite Ht, Hm.
    apply upserts_distinct; auto; intros r _ d []. }
  split; [exact E|]. rewrite <- E. symmetry. apply summary_of_linkData.
Qed.

Lemma C6_stores_agree_on_distinct_witness :
  map linkData_of
      (stored mongo_cfg
         (upserts mongo_cfg sample_env
            [sample_link "1" "https://x.com/a" 5;
             sample_link "2" "https://x.com/b" 9] connected)) =
  stored test_cfg
         (upserts test_cfg sample_env
            [sample_link "1" "https://x.com/a" 5;
             sample_link "2" "https://x.com/b" 9] (TwitterLinkBot fresh_db)).
Proof.
  refine (proj1 (@C6_stores_agree_on_distinct test_cfg mongo_cfg sample_env
                   [sample_link "1" "https://x.com/a" 5;
                    sample_link "2" "https://x.com/b" 9]
                   eq_refl eq_refl _ _ _)).
  - repeat constructor.
  - repeat constructor; simpl; intuition discriminate.
  - repeat constructor; simpl; intuition discriminate.
Defined.

(** The same record saved twice, the second time found later: MongoDB
    holds the later [foundAt], test mode the earlier one. *)
Lemma C6_counterexample :
  let rs := [sample_link "1" "https://x.com/a" 5;
             sample_link "1" "https://x.com/a" 9] in
  map linkData_of (stored mongo_cfg (upserts mongo_cfg sample_env rs connected))
  <> stored test_cfg (upserts test_cfg sample_env rs (TwitterLinkBot fresh_db)).
Proof. vm_compute. discriminate. Qed.

(* ================================================================== *)
(** * The resolver *)

(** A URL that does not contain the text [t.co] comes back unchanged and
    the bot is as before: no request was issued, no clock or network
    interaction took place. *)
Lemma expand_identity (env : Env) (u : jsstring) (b : Bot) :
  includes (lit "t.co") u = false ->
  expandShortUrl env u b = (u, b).
Proof.
  intros H. unfold expandShortUrl. rewrite H. reflexivity.
Qed.

(** A URL that contains the text [t.co], wherever, is requested. *)
Lemma expand_requests (env : Env) (u : jsstring) (b : Bot) :
  includes (lit "t.co") u = true ->
  requests (snd (expandShortUrl env u b)) = requests b ++ [u].
Proof.
  intros H. unfold expandShortUrl. rewrite H. unfold bind, head_request.
  destruct (axios_head env (ticks b) u) as [|[[|c rest]|]]; reflexivity.
Qed.

(** C8, on the code.  A profile link on [x.com] whose path happens to
    contain [t.co]: the extractor keeps it as it is, no shortener link
    occurs in it, and yet [expandShortUrl] issues a request for it and
    returns the URL the response reports instead of the link. *)
Theorem C8_profile_link_dereferenced :
  let u := lit "https://x.com/scott.codes" in
  let r := expandShortUrl sample_env u (TwitterLinkBot fresh_db) in
  extractTwitterLinks u = [u] /\
  search shortPattern u = None /\
  requests (snd r) = [u] /\
  fst r = lit "https://x.com/i/flow/login".
Proof. vm_compute. repeat split. Qed.

(* ================================================================== *)
(** * The traversal of a channel *)

Section TraversalFacts.

Variable S : Type.
Variable proc : Message -> S -> S.
Variable fromDate : Z.

Let run (l : list Message) (st : S) : S :=
  fold_left (fun s m => proc m s) l st.

Let fresh (m : Message) : bool := negb (Z.ltb (msg_createdAt m) fromDate).

Lemma scan_page_spec (page : list Message) :
  forall st cursor n,
    scan_page proc fromDate page st cursor n =
    (run (in_range_prefix fromDate page) st,
     cursor_after cursor (in_range_prefix fromDate page),
     n + List.length (in_range_prefix fromDate page),
     forallb fresh page).
Proof.
  induction page as [|m page IH]; intros st cursor n; simpl.
  - rewrite Nat.add_0_r; reflexivity.
  - unfold fresh at 1. destruct (Z.ltb (msg_createdAt m) fromDate); simpl.
    + rewrite Nat.add_0_r; reflexivity.
    + rewrite IH, Nat.add_succ_r. reflexivity.
Qed.

Lemma prefix_all_fresh (l : list Message) :
  forallb fresh l = true -> in_range_prefix fromDate l = l.
Proof.
  induction l as [|m l IH]; simpl; [reflexivity|].
  unfold fresh at 1. destruct (Z.ltb _ _); simpl; [discriminate|].
  intros H; rewrite IH by exact H; reflexivity.
Qed.

Lemma prefix_app_fresh (a c : list Message) :
  forallb fresh a = true ->
  in_range_prefix fromDate (a ++ c) = a ++ in_range_prefix fromDate c.
Proof.
  induction a as [|m a IH]; simpl; [reflexivity|].
  unfold fresh at 1. destruct (Z.ltb _ _); simpl; [discriminate|].
  intros H; rewrite IH by exact H; reflexivity.
Qed.

Lemma prefix_app_stale (a c : list Message) :
  forallb fresh a = false ->
  in_range_prefix fromDate (a ++ c) = in_range_prefix fromDate a.
Proof.
  induction a as [|m a IH]; simpl; [discriminate|].
  unfold fresh at 1. destruct (Z.ltb _ _); simpl; [reflexivity|].
  intros H; rewrite IH by exact H; reflexivity.
Qed.

Lemma prefix_fresh (l : list Message) :
  Forall (fun m => (fromDate <= msg_createdAt m)%Z) (in_range_prefix fromDate l).
Proof.
  induction l as [|m l IH]; simpl; [constructor|].
  destruct (Z.ltb_spec (msg_createdAt m) fromDate); constructor; [lia | exact IH].
Qed.

Lemma prefix_is_filter (l : list Message) :
  newest_first l ->
  in_range_prefix fromDate l =
  filter (fun m => Z.leb fromDate (msg_createdAt m)) l.
Proof.
  induction 1 as [|m l Hs IH Hm]; simpl; [reflexivity|].
  destruct (Z.ltb_spec (msg_createdAt m) fromDate) as [Hlt|Hge].
  - replace (Z.leb fromDate (msg_createdAt m)) with false
      by (symmetry; apply Z.leb_gt; exact Hlt).
    symmetry. clear IH Hs. induction Hm as [|x l Hx Hm IH]; simpl; [reflexivity|].
    cbv beta in Hx.
    replace (Z.leb fromDate (msg_createdAt x)) with false
      by (symmetry; apply Z.leb_gt; lia).
    exact IH.
  - replace (Z.leb fromDate (msg_createdAt m)) with true
      by (symmetry; apply Z.leb_le; exact Hge).
    rewrite IH; reflexivity.
Qed.

(** The cursor names the last message handed out. *)
Lemma older_than_last (done rest : list Message) (m : Message) :
  NoDup (map msg_id (done ++ m :: rest)) ->
  older_than (msg_id m) (done ++ m :: rest) = rest.
Proof.
  induction done as [|d done IH]; simpl; intros H.
  - rewrite jseqb_refl; reflexivity.
  - inversion H as [|? ? Hd H']; subst.
    replace (jseqb (msg_id d) (msg_id m)) with false; [apply IH; exact H'|].
    symmetry. apply jseqb_neq. intros E. apply Hd.
    rewrite E, map_app. apply in_or_app. right; left; reflexivity.
Qed.

Lemma cursor_after_last (cursor : option jsstring) (l : list Message) (m : Message) :
  cursor_after cursor (l ++ [m]) = Some (msg_id m).
Proof. unfold cursor_after. rewrite fold_left_app. reflexivity. Qed.

Variable hist : list Message.
Variable batch : Z.
Hypothesis distinct_ids : NoDup (map msg_id hist).
Hypothesis batch_ok : (1 <= batch <= 100)%Z.

(** What is left of the history once [done] was handed out. *)
Lemma fetch_rest (done rest : list Message) :
  hist = done ++ rest ->
  history_fetch hist (cursor_after None done) batch =
  Page (firstn (Z.to_nat batch) rest).
Proof.
  intros E. unfold history_fetch.
  replace (Z.leb 1 batch && Z.leb batch 100) with true
    by (symmetry; apply andb_true_iff; split; apply Z.leb_le; lia).
  destruct (rev done) as [|m rdone] eqn:R.
  - apply (f_equal (@rev _)) in R. rewrite rev_involutive in R. simpl in R.
    subst done. simpl in *. subst; reflexivity.
  - apply (f_equal (@rev _)) in R. rewrite rev_involutive in R. simpl in R.
    subst done. rewrite cursor_after_last.
    rewrite E, <- app_assoc. simpl. rewrite older_than_last; [reflexivity|].
    rewrite E, <- app_assoc in distinct_ids. exact distinct_ids.
Qed.

Lemma cursor_after_app (cursor : option jsstring) (a c : list Message) :
  cursor_after cursor (a ++ c) = cursor_after (cursor_after cursor a) c.
Proof. unfold cursor_after. apply fold_left_app. Qed.

Lemma scrape_pages_history (fuel : nat) :
  forall (done rest : list Message) (st : S),
    hist = done ++ rest ->
    List.length rest < fuel ->
    scrape_pages proc fuel (history_fetch hist) fromDate batch
                 (cursor_after None done) st =
    Some (run (in_range_prefix fromDate rest) st).
Proof.
  induction fuel as [|fuel IH]; intros done rest st E Hlen; [lia|].
  cbn [scrape_pages]. rewrite (fetch_rest done rest E).
  destruct (Z.to_nat batch) as [|n] eqn:Hn; [lia|].
  destruct rest as [|m rest]; [reflexivity|].
  cbn [firstn]. set (page := m :: firstn n rest).
  assert (Hsplit : m :: rest = page ++ skipn n rest).
  { unfold page. simpl. rewrite firstn_skipn. reflexivity. }
  rewrite (scan_page_spec page). cbn [Nat.add].
  destruct (forallb fresh page) eqn:F.
  - rewrite (prefix_all_fresh page F).
    replace (Nat.eqb (List.length page) 0) with false by reflexivity.
    cbn [andb negb].
    rewrite <- cursor_after_app.
    rewrite (IH (done ++ page) (skipn n rest)).
    + rewrite Hsplit, (prefix_app_fresh _ _ F).
      unfold run. rewrite fold_left_app. reflexivity.
    + rewrite <- app_assoc, <- Hsplit. exact E.
    + rewrite length_skipn. simpl in Hlen. lia.
  - cbn [andb]. rewrite Hsplit, (prefix_app_stale _ _ F). reflexivity.
Qed.

Lemma scrape_pages_channel (fuel : nat) (st : S) :
  List.length hist < fuel ->
  scrape_pages proc fuel (history_fetch hist) fromDate batch None st =
  Some (run (in_range_prefix fromDate hist) st).
Proof.
  intros H. apply (@scrape_pages_history fuel [] hist st eq_refl H).
Qed.

End TraversalFacts.

(** The traversal of the channels whose pages come from their histories. *)
Lemma scrape_channels_history (S : Type) (proc : Message -> S -> S) (env : Env)
      (history : jsstring -> list Message) (fromDate batch : Z)
      (fuel : nat) (chans : list jsstring) :
  (1 <= batch <= 100)%Z ->
  (forall c, In c chans ->
             (exists name,
                 channels_fetch env c = TextChannel name (history_fetch (history c))) /\
             NoDup (map msg_id (history c)) /\
             List.length (history c) < fuel) ->
  forall st,
    scrape_channels proc fuel env fromDate batch chans st =
    Some (fold_left (fun s m => proc m s)
                    (flat_map (fun c => in_range_prefix fromDate (history c)) chans)
                    st).
Proof.
  intros Hb Hch.
  induction chans as [|c chans' IH]; intros st; [reflexivity|].
  simpl. destruct (Hch c (or_introl eq_refl)) as ((name & ->) & Hnd & Hlen).
  rewrite (@scrape_pages_channel _ proc fromDate _ batch Hnd Hb fuel st Hlen).
  rewrite IH by (intros c' Hc'; apply Hch; right; exact Hc').
  rewrite fold_left_app. reflexivity.
Qed.

(** The same for the bot: with a usable cut-off date and at least one
    channel, [scrapeHistoricalMessages] ends with the flag set, having run
    [processMessage] on the messages in range and on nothing else. *)
Lemma scrapeHistoricalMessages_history (cfg : Config) (env : Env)
      (history : jsstring -> list Message) (fromDate : Z) (fuel : nat) (b : Bot) :
  ENABLE_HISTORICAL_SCRAPING cfg = true ->
  parseScrapingDate env (SCRAPE_FROM_DATE cfg) = Some fromDate ->
  allowedChannels cfg <> [] ->
  (1 <= BATCH_SIZE cfg <= 100)%Z ->
  (forall c, In c (allowedChannels cfg) ->
             (exists name,
                 channels_fetch env c = TextChannel name (history_fetch (history c))) /\
             NoDup (map msg_id (history c)) /\
             List.length (history c) < fuel) ->
  scrapeHistoricalMessages cfg env fuel b =
  Some (with_flags true false
          (process_all cfg env
             (flat_map (fun c => in_range_prefix fromDate (history c))
                       (allowedChannels cfg))
             (with_flags (historicalScrapingComplete b) true b))).
Proof.
  intros He Hp Hne Hb Hch. unfold scrapeHistoricalMessages.
  rewrite He, Hp. simpl.
  destruct (allowedChannels cfg) as [|c chans] eqn:E; [contradiction|].
  rewrite (@scrape_channels_history _ (process cfg env) env history fromDate
             (BATCH_SIZE cfg) fuel (c :: chans) Hb Hch).
  reflexivity.
Qed.

Lemma prefix_split (fromDate : Z) (hist : list Message) :
  exists rest, hist = in_range_prefix fromDate hist ++ rest.
Proof.
  induction hist as [|m hist [rest IH]]; simpl; [exists []; reflexivity|].
  destruct (Z.ltb (msg_createdAt m) fromDate).
  - exists (m :: hist). reflexivity.
  - exists rest. simpl. rewrite <- IH. reflexivity.
Qed.

Lemma NoDup_append {A} (l1 l2 : list A) :
  NoDup l1 -> NoDup l2 -> (forall x, In x l1 -> ~ In x l2) ->
  NoDup (l1 ++ l2).
Proof.
  induction 1 as [|x l1 Hx Hl1 IH]; intros H2 Hdis; simpl; [exact H2|].
  constructor.
  - rewrite in_app_iff. intros [H|H]; [contradiction|].
    exact (Hdis x (or_introl eq_refl) H).
  - apply IH; [exact H2|]. intros y Hy. apply Hdis. right; exact Hy.
Qed.

Lemma fold_note (l : list Message) :
  forall seen, fold_left (fun s m => note m s) l seen = seen ++ l.
Proof.
  induction l as [|m l IH]; intros seen; simpl.
  - rewrite app_nil_r. reflexivity.
  - rewrite IH. unfold note. rewrite <- app_assoc. reflexivity.
Qed.

(** Distinct channels with distinct messages: no message is met twice. *)
Lemma processed_once (history : jsstring -> list Message) (fromDate : Z)
      (chans : list jsstring) :
  NoDup chans ->
  (forall c, In c chans -> NoDup (map msg_id (history c))) ->
  (forall c c' m m',
      In c chans -> In c' chans -> In m (history c) -> In m' (history c') ->
      msg_id m = msg_id m' -> c = c') ->
  NoDup (map msg_id
             (flat_map (fun c => in_range_prefix fromDate (history c)) chans)).
Proof.
  assert (Hsub : forall c m, In m (in_range_prefix fromDate (history c)) ->
                             In m (history c)).
  { intros c m Hm. destruct (prefix_split fromDate (history c)) as [rest E].
    rewrite E. apply in_or_app. left; exact Hm. }
  induction 1 as [|c chans Hc Hnd IH]; intros Hids Hcross; simpl;
    [constructor|].
  rewrite map_app. apply NoDup_append.
  - specialize (Hids c (or_introl eq_refl)).
    destruct (prefix_split fromDate (history c)) as [rest E].
    rewrite E, map_app in Hids. apply NoDup_app_remove_r in Hids. exact Hids.
  - apply IH.
    + intros c' Hc'. apply Hids. right; exact Hc'.
    + intros c1 c2 m m' H1 H2. apply Hcross; right; assumption.
  - intros i Hi Hi'.
    apply in_map_iff in Hi as (m & Em & Hm).
    apply in_map_iff in Hi' as (m' & Em' & Hm').
    apply in_flat_map in Hm' as (c' & Hc' & Hm').
    assert (E : c = c').
    { apply (Hcross c c' m m'); auto.
      - left; reflexivity.
      - right; exact Hc'.
      - congruence. }
    subst c'. contradiction.
Qed.

(** C5.  Let scraping be switched on with a usable cut-off date, and let
    the allow-listed channels be distinct and answer with pages of their
    histories (newest first, distinct message ids, no id shared between
    two channels, pages of 1 to 100 messages, enough fuel for the
    lengths).  Then [scrapeHistoricalMessages] ends, and what it has done
    is to run [processMessage], in order, on the list [processed] of the
    messages of each channel that come before the first one older than
    the cut-off; these are the messages the traversal visits.  No message
    of [processed] is older than the cut-off, none occurs twice, and a
    message of an allow-listed channel is in [processed] exactly when it
    is not older than the cut-off. *)
Theorem C5_history_traversal (cfg : Config) (env : Env)
        (history : jsstring -> list Message) (fromDate : Z) (fuel : nat)
        (b : Bot) :
  ENABLE_HISTORICAL_SCRAPING cfg = true ->
  parseScrapingDate env (SCRAPE_FROM_DATE cfg) = Some fromDate ->
  allowedChannels cfg <> [] ->
  NoDup (allowedChannels cfg) ->
  (1 <= BATCH_SIZE cfg <= 100)%Z ->
  (forall c, In c (allowedChannels cfg) ->
             (exists name,
                 channels_fetch env c = TextChannel name (history_fetch (history c))) /\
             NoDup (map msg_id (history c)) /\
             List.length (history c) < fuel) ->
  (forall c, In c (allowedChannels cfg) -> newest_first (history c)) ->
  (forall c c' m m',
      In c (allowedChannels cfg) -> In c' (allowedChannels cfg) ->
      In m (history c) -> In m' (history c') ->
      msg_id m = msg_id m' -> c = c') ->
  let processed :=
    flat_map (fun c => in_range_prefix fromDate (history c))
             (allowedChannels cfg) in
  scrapeHistoricalMessages cfg env fuel b =
    Some (with_flags true false
            (process_all cfg env processed
               (with_flags (historicalScrapingComplete b) true b))) /\
  visited fuel env fromDate (BATCH_SIZE cfg) (allowedChannels cfg)
    = Some processed /\
  Forall (fun m => (fromDate <= msg_createdAt m)%Z) processed /\
  NoDup (map msg_id processed) /\
  (forall c m, In c (allowedChannels cfg) -> In m (history c) ->
               (In m processed <-> (fromDate <= msg_createdAt m)%Z)).
Proof.
  intros He Hp Hne Hnd Hb Hch Hnew Hcross processed.
  assert (Hfresh : Forall (fun m => (fromDate <= msg_createdAt m)%Z) processed).
  { subst processed. clear. induction (allowedChannels cfg) as [|c chans IH];
      simpl; [constructor|].
    apply Forall_app; split; [apply prefix_fresh | exact IH]. }
  split; [|split; [|split; [|split]]].
  - apply scrapeHistoricalMessages_history; assumption.
  - unfold visited.
    rewrite (@scrape_channels_history _ note env history fromDate
               (BATCH_SIZE cfg) fuel (allowedChannels cfg) Hb Hch).
    rewrite fold_note. reflexivity.
  - exact Hfresh.
  - apply processed_once; [exact Hnd | intros c Hc; apply (Hch c Hc) | exact Hcross].
  - intros c m Hc Hm. split.
    + intros Hin. rewrite Forall_forall in Hfresh. apply Hfresh, Hin.
    + intros Hge. apply in_flat_map. exists c. split; [exact Hc|].
      rewrite (prefix_is_filter fromDate (Hnew c Hc)).
      apply filter_In. split; [exact Hm | apply Z.leb_le, Hge].
Qed.

Lemma C5_history_traversal_witness :
  scrapeHistoricalMessages (scraping_cfg (Some (lit "2024-01-01")))
                           scenario_env 3 (TwitterLinkBot fresh_db) =
  Some (with_flags true false
          (process_all (scraping_cfg (Some (lit "2024-01-01"))) scenario_env
             [sample_message "30" 1704412800000
                             "https://x.com/foo/status/555?s=20"]
             (with_flags false true (TwitterLinkBot fresh_db)))).
Proof.
  refine (proj1 (@C5_history_traversal
                   (scraping_cfg (Some (lit "2024-01-01"))) scenario_env
                   (fun _ => scenario_history) jan_1_2024 3
                   (TwitterLinkBot fresh_db) eq_refl eq_refl _ _ _ _ _ _)).
  - discriminate.
  - repeat constructor. simpl. tauto.
  - simpl. lia.
  - intros c _. split; [exists (lit "general"); reflexivity|].
    split; [|simpl; lia].
    repeat constructor; simpl; intuition discriminate.
  - intros c _. repeat constructor. simpl. lia.
  - intros c c' m m' [<-|[]] [<-|[]] _ _ _. reflexivity.
Defined.

(** With one channel configured under both names the traversal goes
    through it twice: the message in range is visited, and run through
    [processMessage], two times. *)
Lemma C5_counterexample :
  let b0 := TwitterLinkBot fresh_db in
  let m30 := sample_message "30" 1704412800000
                            "https://x.com/foo/status/555?s=20" in
  visited 3 scenario_env jan_1_2024 100 (allowedChannels same_channel_twice)
    = Some [m30; m30] /\
  scrapeHistoricalMessages same_channel_twice scenario_env 3 b0 =
    Some (with_flags true false
            (process_all same_channel_twice scenario_env [m30; m30]
               (with_flags false true b0))) /\
  ~ (exists processed,
        visited 3 scenario_env jan_1_2024 100
                (allowedChannels same_channel_twice) = Some processed /\
        NoDup (map msg_id processed)).
Proof.
  intros b0 m30.
  assert (E : visited 3 scenario_env jan_1_2024 100
                      (allowedChannels same_channel_twice) = Some [m30; m30])
    by (vm_compute; reflexivity).
  split; [exact E|]. split; [vm_compute; reflexivity|].
  intros (processed & Hv & Hnd). rewrite E in Hv.
  inversion Hv; subst processed.
  inversion Hnd as [|? ? Hn _]; subst. apply Hn. left; reflexivity.
Qed.

(* ================================================================== *)
(** * The gate between scraper and live handler *)

Lemma keeps_ret {A} (a : A) : keeps_flag (ret a).
Proof. intros b; reflexivity. Qed.

Lemma keeps_bind {A B} (m : M A) (k : A -> M B) :
  keeps_flag m -> (forall a, keeps_flag (k a)) -> keeps_flag (bind m k).
Proof.
  intros Hm Hk b. unfold bind. specialize (Hm b).
  destruct (m b) as [a b']. rewrite Hk. exact Hm.
Qed.

Lemma keeps_for_each {A} (f : A -> M unit) (l : list A) :
  (forall a, keeps_flag (f a)) -> keeps_flag (for_each f l).
Proof.
  intros Hf. induction l as [|a l IH]; simpl; [apply keeps_ret|].
  apply keeps_bind; [apply Hf | intros _; exact IH].
Qed.

Lemma keeps_new_Date (env : Env) : keeps_flag (new_Date env).
Proof. intros b; reflexivity. Qed.

Lemma keeps_expand (env : Env) (u : jsstring) : keeps_flag (expandShortUrl env u).
Proof.
  unfold expandShortUrl. destruct (includes _ u); [|apply keeps_ret].
  apply keeps_bind; [intros b; reflexivity|].
  intros [|[[|c rest]|]]; apply keeps_ret.
Qed.

Lemma keeps_save (cfg : Config) (env : Env) (r : LinkData) :
  keeps_flag (saveLinkToDatabase cfg env r).
Proof.
  unfold saveLinkToDatabase. destruct (TEST_MODE cfg).
  - intros b. destruct (existsb _ _); reflexivity.
  - apply keeps_bind; [apply keeps_new_Date|].
    intros now b. destruct (updateOne _ _ _); reflexivity.
Qed.

Lemma keeps_processMessage (cfg : Config) (env : Env) (message : Message) :
  keeps_flag (processMessage cfg env message).
Proof.
  unfold processMessage.
  destruct (bot _); [apply keeps_ret|].
  destruct (guild_rejected _ _); [apply keeps_ret|].
  destruct (channel_rejected _ _); [apply keeps_ret|].
  apply keeps_for_each. intros link.
  apply keeps_bind; [apply keeps_expand|]. intros e.
  apply keeps_bind; [apply keeps_new_Date|]. intros now.
  apply keeps_save.
Qed.

Section TraversalInvariant.

Variable S : Type.
Variable proc : Message -> S -> S.
Variable P : S -> Prop.
Hypothesis proc_keeps : forall m st, P st -> P (proc m st).

Lemma run_keeps (l : list Message) (st : S) :
  P st -> P (fold_left (fun s m => proc m s) l st).
Proof.
  revert st; induction l as [|m l IH]; intros st H; [exact H|].
  simpl. apply IH, proc_keeps, H.
Qed.

Lemma scrape_pages_keeps (fuel : nat) fetch fromDate batch :
  forall cursor st st',
    scrape_pages proc fuel fetch fromDate batch cursor st = Some st' ->
    P st -> P st'.
Proof.
  induction fuel as [|fuel IH]; intros cursor st st'; [discriminate|].
  cbn [scrape_pages].
  destruct (fetch cursor batch) as [[|m ms]|code];
    try (intros E H; inversion E; subst; exact H).
  rewrite scan_page_spec.
  destruct (_ && _); intros E H.
  - apply IH in E; [exact E|]. apply run_keeps, H.
  - inversion E; subst. apply run_keeps, H.
Qed.

Lemma scrape_channels_keeps (fuel : nat) (env : Env) fromDate batch chans :
  forall st st',
    scrape_channels proc fuel env fromDate batch chans st = Some st' ->
    P st -> P st'.
Proof.
  induction chans as [|c chans IH]; intros st st'; simpl.
  - intros E H; inversion E; subst; exact H.
  - destruct (channels_fetch env c) as [| |name fetch]; try apply IH.
    destruct (scrape_pages _ _ _ _ _ _ _) as [st1|] eqn:E1; [|discriminate].
    intros E H. apply (IH _ _ E).
    eapply scrape_pages_keeps; eassumption.
Qed.

End TraversalInvariant.

Section TraversalMap.

Variables S1 S2 : Type.
Variable proc1 : Message -> S1 -> S1.
Variable proc2 : Message -> S2 -> S2.
Variable f : S1 -> S2.
Hypothesis commute : forall m st, f (proc1 m st) = proc2 m (f st).

Lemma run_map (l : list Message) (st : S1) :
  f (fold_left (fun s m => proc1 m s) l st) =
  fold_left (fun s m => proc2 m s) l (f st).
Proof.
  revert st; induction l as [|m l IH]; intros st; [reflexivity|].
  simpl. rewrite IH, commute. reflexivity.
Qed.

Lemma scrape_pages_map (fuel : nat) fetch fromDate batch :
  forall cursor st,
    option_map f (scrape_pages proc1 fuel fetch fromDate batch cursor st) =
    scrape_pages proc2 fuel fetch fromDate batch cursor (f st).
Proof.
  induction fuel as [|fuel IH]; intros cursor st; [reflexivity|].
  cbn [scrape_pages].
  destruct (fetch cursor batch) as [[|m ms]|code]; try reflexivity.
  rewrite !scan_page_spec.
  destruct (_ && _).
  - rewrite IH, run_map. reflexivity.
  - simpl. rewrite run_map. reflexivity.
Qed.

Lemma scrape_channels_map (fuel : nat) (env : Env) fromDate batch chans :
  forall st,
    option_map f (scrape_channels proc1 fuel env fromDate batch chans st) =
    scrape_channels proc2 fuel env fromDate batch chans (f st).
Proof.
  induction chans as [|c chans IH]; intros st; [reflexivity|].
  simpl. destruct (channels_fetch env c) as [| |name fetch]; try apply IH.
  rewrite <- scrape_pages_map.
  destruct (scrape_pages proc1 _ _ _ _ _ _) as [st1|]; simpl;
    [apply IH | reflexivity].
Qed.

End TraversalMap.

Lemma gate_closed (cfg : Config) (env : Env) (message : Message) (b : Bot) :
  ENABLE_HISTORICAL_SCRAPING cfg = true ->
  historicalScrapingComplete b = false ->
  on_messageCreate cfg env message b = b.
Proof.
  intros He Hc. unfold on_messageCreate. rewrite He, Hc. reflexivity.
Qed.

(** When the cut-off date cannot be used, [scrapeHistoricalMessages]
    returns before it sets the flag the live handler waits for. *)
Lemma skipped_scrape_gates_live (cfg : Config) (env : Env) (fuel : nat) (b : Bot) :
  ENABLE_HISTORICAL_SCRAPING cfg = true ->
  parseScrapingDate env (SCRAPE_FROM_DATE cfg) = None ->
  historicalScrapingComplete b = false ->
  on_ready cfg env fuel b = Some b /\
  forall message, on_messageCreate cfg env message b = b.
Proof.
  intros He Hp Hc. split.
  - unfold on_ready, scrapeHistoricalMessages. rewrite He, Hp. reflexivity.
  - intros m. apply gate_closed; assumption.
Qed.

(** C3, on the code.  Scraping is switched on and the cut-off date is
    missing, or is a text the date parser rejects.  The [ready] handler
    returns the bot unchanged, without a crash; a message that arrives
    afterwards is not processed, although [processMessage] would have
    stored its link. *)
Theorem C3_live_gated_after_skip :
  let b0 := TwitterLinkBot fresh_db in
  (on_ready (scraping_cfg None) sample_env 5 b0 = Some b0 /\
   on_messageCreate (scraping_cfg None) sample_env live_message b0 = b0 /\
   map url (stored (scraping_cfg None)
                   (process (scraping_cfg None) sample_env live_message b0)) =
     [lit "https://x.com/foo/status/555"]) /\
  (on_ready (scraping_cfg (Some (lit "yesterday"))) sample_env 5 b0 = Some b0 /\
   on_messageCreate (scraping_cfg (Some (lit "yesterday"))) sample_env
                    live_message b0 = b0).
Proof. vm_compute. repeat split. Qed.

(* ================================================================== *)
(** * The matcher and the language of a pattern *)

Lemma star_k_sound {A} (p : jschar -> bool) (k : jsstring -> option A) :
  forall s x,
    star_k p k s = Some x ->
    exists w rest, s = w ++ rest /\ Forall (fun c => p c = true) w /\
                   k rest = Some x.
Proof.
  induction s as [|c s IH]; intros x; simpl.
  - intros H. exists [], []. auto.
  - destruct (p c) eqn:Hc.
    + destruct (star_k p k s) as [y|] eqn:E.
      * intros H; inversion H; subst y.
        destruct (IH x eq_refl) as (w & rest & -> & Hw & Hk).
        exists (c :: w), rest. auto.
      * intros H. exists [], (c :: s). auto.
    + intros H. exists [], (c :: s). auto.
Qed.

Lemma rmatch_sound (r : regex) :
  forall A (k : jsstring -> option A) s x,
    rmatch r s k = Some x ->
    exists m rest, s = m ++ rest /\ matches r m /\ k rest = Some x.
Proof.
  induction r as [|p|r1 IH1 r2 IH2|r1 IH1 r2 IH2|r1 IH1|p|];
    intros A k s x; simpl.
  - intros H. exists [], s. repeat split; [constructor | exact H].
  - destruct s as [|c s]; [discriminate|].
    destruct (p c) eqn:Hc; [|discriminate].
    intros H. exists [c], s. repeat split; [constructor; exact Hc | exact H].
  - intros H. apply IH1 in H as (m1 & rest1 & -> & Hm1 & H).
    apply IH2 in H as (m2 & rest & -> & Hm2 & H).
    exists (m1 ++ m2), rest. rewrite app_assoc.
    repeat split; [constructor; assumption | exact H].
  - destruct (rmatch r1 s k) as [y|] eqn:E.
    + intros H; inversion H; subst y.
      apply IH1 in E as (m & rest & -> & Hm & Hk).
      exists m, rest. repeat split; [apply M_AltL; exact Hm | exact Hk].
    + intros H. apply IH2 in H as (m & rest & -> & Hm & Hk).
      exists m, rest. repeat split; [apply M_AltR; exact Hm | exact Hk].
  - destruct (rmatch r1 s k) as [y|] eqn:E.
    + intros H; inversion H; subst y.
      apply IH1 in E as (m & rest & -> & Hm & Hk).
      exists m, rest. repeat split; [apply M_OptSome; exact Hm | exact Hk].
    + intros H. exists [], s. repeat split; [apply M_OptNone | exact H].
  - destruct s as [|c s]; [discriminate|].
    destruct (p c) eqn:Hc; [|discriminate].
    intros H. apply star_k_sound in H as (w & rest & -> & Hw & Hk).
    exists (c :: w), rest. repeat split; [constructor; assumption | exact Hk].
  - destruct s as [|c s]; [|discriminate].
    intros H. exists [], []. repeat split; [constructor | exact H].
Qed.

Lemma firstn_prefix {A} (m rest : list A) :
  firstn (List.length (m ++ rest) - List.length rest) (m ++ rest) = m.
Proof.
  rewrite length_app, Nat.add_sub, firstn_app, Nat.sub_diag, firstn_all.
  simpl. apply app_nil_r.
Qed.

Lemma exec_sound (r : regex) (s m rest : jsstring) :
  exec r s = Some (m, rest) -> s = m ++ rest /\ matches r m.
Proof.
  unfold exec. destruct (rmatch r s _) as [rest'|] eqn:E; [|discriminate].
  apply rmatch_sound in E as (m' & rest'' & -> & Hm & Hk).
  inversion Hk; subst rest''. rewrite firstn_prefix.
  intros H; inversion H; subst. auto.
Qed.

Lemma exec_of_rmatch (r : regex) (m rest : jsstring) :
  rmatch r (m ++ rest) (fun s => Some s) = Some rest ->
  exec r (m ++ rest) = Some (m, rest).
Proof.
  intros H. unfold exec. rewrite H, firstn_prefix. reflexivity.
Qed.

Lemma search_sound (r : regex) :
  forall s b m a,
    search r s = Some (b, m, a) -> s = b ++ m ++ a /\ matches r m.
Proof.
  induction s as [|c s IH]; intros b m a; simpl.
  - destruct (exec r []) as [[m' rest]|] eqn:E; [|discriminate].
    intros H; inversion H; subst. apply exec_sound in E. exact E.
  - destruct (exec r (c :: s)) as [[m' rest]|] eqn:E.
    + intros H; inversion H; subst. apply exec_sound in E. exact E.
    + destruct (search r s) as [[[b' m'] a']|] eqn:E'; [|discriminate].
      intros H; inversion H; subst.
      destruct (IH _ _ _ eq_refl) as [-> Hm]. auto.
Qed.

Lemma scan_sound (r : regex) :
  forall s skip m, In m (scan r skip s) -> matches r m.
Proof.
  induction s as [|c s IH]; intros skip m; destruct skip as [|n]; simpl.
  - destruct (exec r []) as [[m' rest]|] eqn:E; [|intros []].
    intros [<-|[]]. apply exec_sound in E. apply E.
  - intros [].
  - destruct (exec r (c :: s)) as [[m' rest]|] eqn:E.
    + intros [<-|H]; [apply exec_sound in E; apply E | apply IH in H; exact H].
    + apply IH.
  - apply IH.
Qed.

Lemma star_k_complete {A} (p : jschar -> bool) (k : jsstring -> option A)
      (w rest : jsstring) :
  Forall (fun c => p c = true) w ->
  k rest <> None -> star_k p k (w ++ rest) <> None.
Proof.
  intros Hw Hk. induction Hw as [|c w Hc Hw IH]; simpl.
  - destruct rest as [|c rest]; simpl; [exact Hk|].
    destruct (p c); [|exact Hk].
    destruct (star_k p k rest); [discriminate | exact Hk].
  - rewrite Hc. destruct (star_k p k (w ++ rest)); [discriminate | contradiction].
Qed.

Lemma rmatch_complete (r : regex) (m : jsstring) :
  matches r m ->
  anchor_free r = true ->
  forall A (k : jsstring -> option A) rest,
    k rest <> None -> rmatch r (m ++ rest) k <> None.
Proof.
  induction 1 as [|p c Hc|r1 r2 m1 m2 H1 IH1 H2 IH2|r1 r2 m H1 IH1
                  |r1 r2 m H2 IH2|r1 m H1 IH1|r1|p c w Hc Hw|];
    simpl; intros Hfree A k rest Hk.
  - exact Hk.
  - rewrite Hc. exact Hk.
  - apply andb_true_iff in Hfree as [F1 F2].
    rewrite <- app_assoc. apply IH1; [exact F1|]. apply IH2; assumption.
  - apply andb_true_iff in Hfree as [F1 F2].
    destruct (rmatch r1 (m ++ rest) k) eqn:E; [discriminate|].
    exfalso. revert E. apply IH1; assumption.
  - apply andb_true_iff in Hfree as [F1 F2].
    destruct (rmatch r1 (m ++ rest) k); [discriminate|].
    apply IH2; assumption.
  - destruct (rmatch r1 (m ++ rest) k) eqn:E; [discriminate|].
    exfalso. revert E. apply IH1; assumption.
  - destruct (rmatch r1 rest k); [discriminate | exact Hk].
  - rewrite Hc. apply star_k_complete; assumption.
  - discriminate.
Qed.

(** A text of the language is found by a search in itself. *)
Lemma search_finds (r : regex) (m : jsstring) :
  matches r m -> anchor_free r = true -> search r m <> None.
Proof.
  intros Hm Hf.
  assert (E : exec r m <> None).
  { unfold exec.
    destruct (rmatch r m (fun s => Some s)) eqn:E; [discriminate|].
    exfalso. revert E. rewrite <- (app_nil_r m) at 1.
    apply rmatch_complete; [assumption | assumption | discriminate]. }
  destruct m; simpl; destruct (exec r _) as [[? ?]|]; congruence.
Qed.

(* ================================================================== *)
(** * Facts about strings and character classes *)

(** Replace the literals of the goal by their code units. *)
Ltac eval_lits :=
  repeat match goal with
         | |- context [lit ?s] =>
             let v := eval vm_compute in (lit s) in
             change (lit s) with v
         end.

(** Turn the comparisons of code units in sight into arithmetic. *)
Ltac char_lia :=
  unfold not_space, is_space, is_word, is_punct, is_digit, in_range in *;
  rewrite ?negb_true_iff, ?negb_false_iff, ?orb_true_iff, ?orb_false_iff,
    ?andb_true_iff, ?andb_false_iff, ?N.leb_le, ?N.leb_gt, ?N.eqb_eq,
    ?N.eqb_neq in *;
  lia.

Lemma starts_with_iff (p s : jsstring) :
  starts_with p s = true <-> exists rest, s = p ++ rest.
Proof.
  revert s; induction p as [|x p IH]; intros s; simpl.
  - split; [exists s; reflexivity | reflexivity].
  - destruct s as [|y s].
    + split; [discriminate | intros [rest H]; discriminate].
    + rewrite andb_true_iff, N.eqb_eq, IH. split.
      * intros [-> [rest ->]]. exists rest; reflexivity.
      * intros [rest H]; inversion H; subst. split; [reflexivity|].
        exists rest; reflexivity.
Qed.

Lemma includes_iff (p s : jsstring) :
  includes p s = true <-> exists a c, s = a ++ p ++ c.
Proof.
  induction s as [|y s IH]; simpl.
  - rewrite orb_false_r, starts_with_iff. split.
    + intros [rest H]. exists [], rest. exact H.
    + intros (a & c & H). destruct a; [exists c; exact H | discriminate].
  - rewrite orb_true_iff, starts_with_iff, IH. split.
    + intros [[rest H]|(a & c & ->)].
      * exists [], rest; exact H.
      * exists (y :: a), c; reflexivity.
    + intros (a & c & H). destruct a as [|z a].
      * left. exists c. exact H.
      * right. inversion H; subst. exists a, c; reflexivity.
Qed.

Lemma includes_prefix (p a c : jsstring) :
  includes p a = true -> includes p (a ++ c) = true.
Proof.
  rewrite !includes_iff. intros (x & y & ->).
  exists x, (y ++ c). rewrite <- !app_assoc. reflexivity.
Qed.

Lemma includes_upcase (p s : jsstring) :
  includes p s = true -> includes (map upcase p) (map upcase s) = true.
Proof.
  rewrite !includes_iff. intros (a & c & ->).
  exists (map upcase a), (map upcase c). rewrite !map_app. reflexivity.
Qed.

(** A text made of characters of a class contains no text that has a
    character outside the class. *)
Lemma includes_class (P : jschar -> bool) (p s : jsstring) :
  Forall (fun c => P c = true) s ->
  existsb (fun c => negb (P c)) p = true ->
  includes p s = false.
Proof.
  intros Hs Hp. destruct (includes p s) eqn:E; [|reflexivity].
  apply includes_iff in E as (a & c & ->).
  apply Forall_app in Hs as [_ Hs]. apply Forall_app in Hs as [Hs _].
  apply existsb_exists in Hp as (x & Hx & Hneg).
  rewrite Forall_forall in Hs. rewrite (Hs x Hx) in Hneg. discriminate.
Qed.

Lemma starts_with_class (P : jschar -> bool) (p s : jsstring) :
  Forall (fun c => P c = true) s ->
  existsb (fun c => negb (P c)) p = true ->
  starts_with p s = false.
Proof.
  intros Hs Hp. destruct (starts_with p s) eqn:E; [|reflexivity].
  apply starts_with_iff in E as (c & ->).
  apply Forall_app in Hs as [Hs _].
  apply existsb_exists in Hp as (x & Hx & Hneg).
  rewrite Forall_forall in Hs. rewrite (Hs x Hx) in Hneg. discriminate.
Qed.

Lemma upcase_cases (c : jschar) :
  (97 <= c <= 122 /\ upcase c = c - 32)%N \/
  ((c < 97 \/ 122 < c) /\ upcase c = c)%N.
Proof.
  unfold upcase, in_range.
  destruct (N.leb_spec 97 c); destruct (N.leb_spec c 122); simpl; lia.
Qed.

Lemma upcase_word (c : jschar) : is_word c = true -> is_word (upcase c) = true.
Proof.
  intros H. destruct (upcase_cases c) as [[? ->]|[? ->]]; [|exact H].
  clear H. char_lia.
Qed.

Lemma word_not_space (c : jschar) : is_word c = true -> not_space c = true.
Proof. intros H. char_lia. Qed.

Lemma digit_not_space (c : jschar) : is_digit c = true -> not_space c = true.
Proof. intros H. char_lia. Qed.

Lemma digit_not_punct (c : jschar) : is_digit c = true -> is_punct c = false.
Proof. intros H. char_lia. Qed.

Lemma digit_is_word (c : jschar) : is_digit c = true -> is_word c = true.
Proof.
  unfold is_word. intros ->. rewrite orb_true_r. reflexivity.
Qed.

Lemma chr_is_upcase (x c : jschar) :
  chr_is true x c = true -> upcase c = upcase x.
Proof. unfold chr_is. apply N.eqb_eq. Qed.

Lemma chr_is_refl (ci : bool) (c : jschar) : chr_is ci c c = true.
Proof. unfold chr_is. destruct ci; apply N.eqb_refl. Qed.

(** White space is never a pattern character that is not white space. *)
Lemma chr_is_space (ci : bool) (x b : jschar) :
  is_space b = true -> is_space x = false -> chr_is ci x b = false.
Proof.
  intros Hb Hx. unfold chr_is.
  destruct ci; apply N.eqb_neq; intros E.
  - destruct (upcase_cases b) as [[? Eb]|[? Eb]];
      destruct (upcase_cases x) as [[? Ex]|[? Ex]];
      rewrite Eb, Ex in E; clear Eb Ex; char_lia.
  - subst. congruence.
Qed.

(* ================================================================== *)
(** * What the extractor can return *)

Lemma set_add_in (x u : jsstring) (links : list jsstring) :
  In u (set_add x links) <-> In u links \/ u = x.
Proof.
  unfold set_add. destruct (existsb (jseqb x) links) eqn:E.
  - split; [auto|]. intros [H| ->]; [exact H|].
    apply existsb_exists in E as (y & Hy & Exy).
    apply jseqb_eq in Exy; subst; exact Hy.
  - rewrite in_app_iff. simpl. intuition.
Qed.

(** The trailing punctuation pattern only matches up to the end. *)
Lemma trailing_at_end (s : jsstring) :
  forall b m a, search trailingPunct s = Some (b, m, a) -> a = [].
Proof.
  assert (Hexec : forall t m rest, exec trailingPunct t = Some (m, rest) -> rest = []).
  { intros t m rest. unfold exec, trailingPunct.
    destruct (rmatch _ t _) as [rest'|] eqn:E; [|discriminate].
    intros H; inversion H; subst. simpl in E.
    destruct t as [|c t]; [discriminate|].
    destruct (is_punct c); [|discriminate].
    apply star_k_sound in E as (w & rest0 & _ & _ & E).
    destruct rest0; [inversion E; reflexivity | discriminate]. }
  induction s as [|c s IH]; intros b m a.
  - intros H; discriminate H.
  - cbn [search]. destruct (exec trailingPunct (c :: s)) as [[m' rest]|] eqn:E.
    + intros H; inversion H; subst. eapply Hexec; exact E.
    + destruct (search trailingPunct s) as [[[b' m'] a']|] eqn:E';
        [|discriminate].
      intros H; inversion H; subst. eapply IH; reflexivity.
Qed.

(** [cleanUrl] cuts punctuation off the end, nothing else. *)
Lemma cleanUrl_prefix (link : jsstring) :
  exists p, link = cleanUrl link ++ p /\
            Forall (fun c => is_punct c = true) p.
Proof.
  unfold cleanUrl, remove_first.
  destruct (search trailingPunct link) as [[[b m] a]|] eqn:E.
  - pose proof (trailing_at_end _ E) as ->.
    apply search_sound in E as [-> Hm].
    exists m. rewrite !app_nil_r. split; [reflexivity|].
    unfold trailingPunct in Hm. inversion Hm as [| |? ? m1 m2 H1 H2| | | | | |]; subst.
    inversion H2; subst. rewrite app_nil_r.
    inversion H1; subst. constructor; assumption.
  - exists []. rewrite app_nil_r. split; [reflexivity | constructor].
Qed.

Lemma add_url_in (u link : jsstring) (links : list jsstring) :
  In u (add_url_match links link) ->
  In u links \/
  (exists b a, search statusPattern (cleanUrl link) = Some (b, u, a)) \/
  (includes (lit "/status/") (cleanUrl link) = false /\ u = cleanUrl link).
Proof.
  unfold add_url_match.
  destruct (includes (lit "/status/") (cleanUrl link)).
  - destruct (search statusPattern (cleanUrl link)) as [[[b m] a]|]; [|auto].
    intros H. apply set_add_in in H as [H| ->]; [auto|].
    right; left. exists b, a. reflexivity.
  - intros H. apply set_add_in in H as [H| ->]; auto.
Qed.

Lemma fold_add_url_in (u : jsstring) (ms : list jsstring) :
  forall links,
    In u (fold_left add_url_match ms links) ->
    In u links \/
    exists link, In link ms /\
      ((exists b a, search statusPattern (cleanUrl link) = Some (b, u, a)) \/
       (includes (lit "/status/") (cleanUrl link) = false /\ u = cleanUrl link)).
Proof.
  induction ms as [|link ms IH]; intros links; simpl; [auto|].
  intros H. apply IH in H as [H|(l & Hl & H)].
  - apply add_url_in in H as [H|H]; [auto|].
    right. exists link. auto.
  - right. exists l. auto.
Qed.

Lemma fold_add_short_in (u : jsstring) (ms : list jsstring) :
  forall links,
    In u (fold_left add_short_match ms links) ->
    In u links \/ exists link, In link ms /\ u = cleanUrl link.
Proof.
  induction ms as [|link ms IH]; intros links; simpl; [auto|].
  intros H. apply IH in H as [H|(l & Hl & H)].
  - apply set_add_in in H as [H| ->]; [auto|].
    right. exists link. auto.
  - right. exists l. auto.
Qed.

Lemma matches_chars_upcase (l m : jsstring) :
  matches (chars true l) m -> map upcase m = map upcase l.
Proof.
  revert m; induction l as [|x l IH]; intros m H; simpl in H.
  - inversion H; reflexivity.
  - inversion H as [| |? ? m1 m2 H1 H2| | | | | |]; subst.
    inversion H1 as [|? c Hc| | | | | | |]; subst. simpl.
    rewrite (chr_is_upcase _ _ Hc), (IH _ H2). reflexivity.
Qed.

Lemma includes_cons (p s : jsstring) (c : jschar) :
  includes p (c :: s) = starts_with p (c :: s) || includes p s.
Proof. reflexivity. Qed.

Lemma starts_with_cons (p s : jsstring) (x y : jschar) :
  starts_with (x :: p) (y :: s) = N.eqb x y && starts_with p s.
Proof. reflexivity. Qed.

(** Run [includes] and [starts_with] over the known start of a text. *)
Ltac step_includes :=
  repeat first [ rewrite includes_cons
               | rewrite starts_with_cons
               | progress cbn [N.eqb Pos.eqb andb orb] ].

(** A shortener link does not contain [/status/]. *)
Lemma short_has_no_status (m : jsstring) :
  matches shortPattern m -> includes (lit "/status/") m = false.
Proof.
  intros H. destruct (includes (lit "/status/") m) eqn:E; [|reflexivity].
  apply includes_upcase in E. exfalso.
  unfold shortPattern in H.
  inversion H as [| |? ? m1 r1 H1 H1'| | | | | |]; subst; clear H.
  inversion H1' as [| |? ? m2 r2 H2 H2'| | | | | |]; subst; clear H1'.
  inversion H2' as [| |? ? m3 m4 H3 H4| | | | | |]; subst; clear H2'.
  apply matches_chars_upcase in H1, H3.
  assert (Hw : Forall (fun c => is_word c = true) (map upcase m4)).
  { inversion H4; subst. apply Forall_map.
    constructor; [apply upcase_word; assumption|].
    eapply Forall_impl; [|eassumption]. intros a; apply upcase_word. }
  assert (H2s : map upcase m2 = [] \/ map upcase m2 = map upcase (lit "s")).
  { inversion H2; subst; [right; apply matches_chars_upcase; assumption
                         | left; reflexivity]. }
  rewrite !map_app, H1, H3 in E. clear H1 H2 H3 H4.
  assert (Hs : starts_with (lit "STATUS/") (map upcase m4) = false)
    by (apply (starts_with_class is_word); [exact Hw | reflexivity]).
  assert (Hi : includes (lit "/STATUS/") (map upcase m4) = false)
    by (apply (includes_class is_word); [exact Hw | reflexivity]).
  revert E Hs Hi. generalize (map upcase m4) as w. intros w.
  change (map upcase (lit "/status/")) with (lit "/STATUS/").
  change (map upcase (lit "http")) with (lit "HTTP").
  change (map upcase (lit "://t.co/")) with (lit "://T.CO/").
  destruct H2s as [-> | ->];
    [|change (map upcase (lit "s")) with (lit "S")];
    eval_lits; cbn [app]; step_includes;
    intros E Hs Hi; rewrite Hs, Hi in E; discriminate E.
Qed.

(** The scan for links has the [i] flag, the status pattern has not: a
    status link written with an upper-case scheme or host is dropped. *)
Lemma upper_case_status_dropped :
  extractTwitterLinks (lit "HTTPS://X.COM/foo/status/555") = [].
Proof. vm_compute. reflexivity. Qed.



(* ================================================================== *)
(** * Matching a status link *)

Lemma star_k_greedy {A} (p : jschar -> bool) (k : jsstring -> option A)
      (w rest : jsstring) (x : A) :
  Forall (fun c => p c = true) w ->
  stops p rest ->
  k rest = Some x ->
  star_k p k (w ++ rest) = Some x.
Proof.
  intros Hw Hstop Hk. induction Hw as [|c w Hc Hw IH]; simpl.
  - destruct rest as [|c rest]; [exact Hk|].
    simpl in *. rewrite Hstop. exact Hk.
  - rewrite Hc, IH. reflexivity.
Qed.

Lemma plus_greedy {A} (p : jschar -> bool) (k : jsstring -> option A)
      (w rest : jsstring) (x : A) :
  w <> [] ->
  Forall (fun c => p c = true) w ->
  stops p rest ->
  k rest = Some x ->
  rmatch (Plus p) (w ++ rest) k = Some x.
Proof.
  intros Hne Hw Hstop Hk. destruct w as [|c w]; [contradiction|].
  inversion Hw as [|? ? Hc Hw']; subst. cbn [app rmatch]. rewrite Hc.
  apply star_k_greedy; assumption.
Qed.

Lemma rmatch_chars_same {A} (ci : bool) (l rest : jsstring)
      (k : jsstring -> option A) :
  rmatch (chars ci l) (l ++ rest) k = k rest.
Proof.
  induction l as [|c l IH]; simpl; [reflexivity|].
  rewrite chr_is_refl. exact IH.
Qed.

Lemma rmatch_text_same {A} (ci : bool) (s : string) (rest : jsstring)
      (k : jsstring -> option A) :
  rmatch (text ci s) (lit s ++ rest) k = k rest.
Proof. apply rmatch_chars_same. Qed.

Lemma rmatch_seq {A} (r1 r2 : regex) (s : jsstring) (k : jsstring -> option A) :
  rmatch (Seq r1 r2) s k = rmatch r1 s (fun s1 => rmatch r2 s1 k).
Proof. reflexivity. Qed.

Lemma opt_take {A} (r : regex) (s : jsstring) (k : jsstring -> option A) (x : A) :
  rmatch r s k = Some x -> rmatch (Opt r) s k = Some x.
Proof. simpl. intros ->. reflexivity. Qed.

Lemma opt_skip {A} (r : regex) (s : jsstring) (k : jsstring -> option A) :
  rmatch r s k = None -> rmatch (Opt r) s k = k s.
Proof. simpl. intros ->. reflexivity. Qed.

Lemma alt_left {A} (r1 r2 : regex) (s : jsstring) (k : jsstring -> option A) (x : A) :
  rmatch r1 s k = Some x -> rmatch (Alt r1 r2) s k = Some x.
Proof. simpl. intros ->. reflexivity. Qed.

Lemma alt_right {A} (r1 r2 : regex) (s : jsstring) (k : jsstring -> option A) :
  rmatch r1 s k = None -> rmatch (Alt r1 r2) s k = rmatch r2 s k.
Proof. simpl. intros ->. reflexivity. Qed.

(** A literal fails on a text that starts with another character. *)
Lemma text_mismatch {A} (ci : bool) (x c : jschar) (l s : jsstring)
      (k : jsstring -> option A) :
  chr_is ci x c = false -> rmatch (chars ci (x :: l)) (c :: s) k = None.
Proof. simpl. intros ->. reflexivity. Qed.

(** The start of a rendered link is matched by [urlHead], with or without
    the [i] flag. *)
Lemma rmatch_url_head {A} (ci : bool) (u : StatusUrl) (tail : jsstring)
      (k : jsstring -> option A) (x : A) :
  k tail = Some x ->
  rmatch (urlHead ci) (url_head u ++ tail) k = Some x.
Proof.
  intros Hk. unfold urlHead, url_head. rewrite <- !app_assoc.
  assert (Hhost :
    rmatch (Alt (text ci "twitter.com") (text ci "x.com") >> text ci "/")
           ((if on_x u then lit "x.com" else lit "twitter.com") ++ lit "/" ++ tail)
           k = Some x).
  { rewrite rmatch_seq. destruct (on_x u).
    - rewrite (@alt_right A (text ci "twitter.com")).
      + rewrite rmatch_text_same. cbv beta. rewrite rmatch_text_same. exact Hk.
      + apply text_mismatch. destruct ci; reflexivity.
    - apply alt_left.
      rewrite rmatch_text_same. cbv beta. rewrite rmatch_text_same. exact Hk. }
  assert (Hwww :
    rmatch (Opt (text ci "www.") >>
            Alt (text ci "twitter.com") (text ci "x.com") >> text ci "/")
           ((if www u then lit "www." else []) ++
            (if on_x u then lit "x.com" else lit "twitter.com") ++ lit "/" ++ tail)
           k = Some x).
  { rewrite rmatch_seq. destruct (www u).
    - apply opt_take. rewrite rmatch_text_same. exact Hhost.
    - cbn [app]. rewrite (@opt_skip A (text ci "www.")); [exact Hhost|].
      destruct (on_x u); apply text_mismatch; destruct ci; reflexivity. }
  rewrite rmatch_seq, rmatch_text_same. cbv beta. rewrite rmatch_seq.
  destruct (secure u).
  - apply opt_take. rewrite rmatch_text_same. cbv beta.
    rewrite rmatch_seq, rmatch_text_same. exact Hwww.
  - cbn [app]. rewrite (@opt_skip A (text ci "s")).
    + rewrite rmatch_seq, rmatch_text_same. exact Hwww.
    + apply text_mismatch. destruct ci; reflexivity.
Qed.

Section StatusLink.

Variable u : StatusUrl.
Hypothesis wf : well_formed u.

Lemma path_not_space :
  Forall (fun c => not_space c = true) (url_path u).
Proof.
  destruct wf as (_ & Hu & _ & Hi). unfold url_path.
  apply Forall_app; split.
  - eapply Forall_impl; [|exact Hu]. intros a; apply word_not_space.
  - apply Forall_app; split.
    + eval_lits. repeat constructor.
    + eapply Forall_impl; [|exact Hi]. intros a; apply digit_not_space.
Qed.

Lemma path_nonempty : url_path u <> [].
Proof.
  destruct wf as (Hne & _). unfold url_path.
  destruct (user u); [contradiction | discriminate].
Qed.

(** The status pattern takes the whole link and stops before [q]. *)
Lemma exec_status (q : jsstring) :
  stops is_digit q ->
  exec statusPattern (render u ++ q) = Some (render u, q).
Proof.
  intros Hq. apply exec_of_rmatch.
  unfold statusPattern, render. rewrite <- app_assoc, rmatch_seq.
  apply rmatch_url_head.
  destruct wf as (Hne & Hu & Hine & Hi).
  unfold url_path. rewrite <- !app_assoc, rmatch_seq.
  apply plus_greedy; [exact Hne | exact Hu | reflexivity|].
  rewrite rmatch_seq, rmatch_text_same.
  apply plus_greedy; [exact Hine | exact Hi | exact Hq | reflexivity].
Qed.

(** The scan for links takes the link and all that follows in its word. *)
Lemma exec_all_url (q post : jsstring) :
  Forall (fun c => not_space c = true) q ->
  word_end post ->
  exec allUrlPattern (render u ++ q ++ post) = Some (render u ++ q, post).
Proof.
  intros Hq Hpost. rewrite app_assoc. apply exec_of_rmatch.
  unfold allUrlPattern, render. rewrite <- !app_assoc, rmatch_seq.
  apply rmatch_url_head. rewrite app_assoc.
  apply plus_greedy.
  - intros E. apply app_eq_nil in E as [E _]. exact (path_nonempty E).
  - apply Forall_app; split; [apply path_not_space | exact Hq].
  - destruct post as [|c post]; [exact I|].
    simpl in *. unfold not_space. rewrite Hpost. reflexivity.
  - reflexivity.
Qed.

End StatusLink.

(* ================================================================== *)
(** * Scanning a text for links *)

Lemma search_here (r : regex) (s m rest : jsstring) :
  exec r s = Some (m, rest) -> search r s = Some ([], m, rest).
Proof. intros H. destruct s; simpl; rewrite H; reflexivity. Qed.

Lemma scan_here (r : regex) (s m rest : jsstring) :
  exec r s = Some (m, rest) -> In m (scan r 0 s).
Proof. intros H. destruct s; simpl; rewrite H; left; reflexivity. Qed.

Lemma scan_skip_all (r : regex) :
  exec r [] = None -> forall s, scan r (List.length s) s = [].
Proof.
  intros H. induction s as [|c s IH]; simpl; [rewrite H; reflexivity | exact IH].
Qed.

Lemma scan_whole (r : regex) (s : jsstring) :
  exec r [] = None -> exec r s = Some (s, []) -> scan r 0 s = [s].
Proof.
  intros H0 H. destruct s as [|c s]; [congruence|].
  cbn [scan]. rewrite H. cbn [List.length pred].
  rewrite scan_skip_all by exact H0. reflexivity.
Qed.

Lemma scan_nothing (r : regex) :
  forall s,
    (forall a t, s = a ++ t -> exec r t = None) ->
    forall skip, scan r skip s = [].
Proof.
  induction s as [|c s IH]; intros H skip.
  - destruct skip; simpl; [rewrite (H [] [] eq_refl)|]; reflexivity.
  - assert (Hs : forall a t, s = a ++ t -> exec r t = None)
      by (intros a t ->; apply (H (c :: a)); reflexivity).
    destruct skip; simpl; [rewrite (H [] (c :: s) eq_refl)|]; apply IH; exact Hs.
Qed.

(** ** A character no test accepts cuts the text in two *)

Section Barrier.

Variables (A B : Type) (R : A -> B -> Prop).
Variable b : jschar.
Variables y1 y2 : jsstring.
Variable k1 : jsstring -> option A.
Variable k2 : jsstring -> option B.

Let related (f : jsstring -> option A) (g : jsstring -> option B) : Prop :=
  forall x, orel R (f (x ++ b :: y1)) (g (x ++ b :: y2)).

Lemma star_k_barrier (p : jschar -> bool) f g :
  p b = false -> related f g -> related (star_k p f) (star_k p g).
Proof.
  intros Hb Hk x. induction x as [|c x IH]; simpl.
  - rewrite Hb. apply (Hk []).
  - destruct (p c); [|apply (Hk (c :: x))].
    destruct (star_k p f (x ++ b :: y1)), (star_k p g (x ++ b :: y2));
      simpl in IH; try contradiction; [exact IH | apply (Hk (c :: x))].
Qed.

Lemma rmatch_barrier (r : regex) :
  avoids b r ->
  forall f g, related f g ->
              related (fun s => rmatch r s f) (fun s => rmatch r s g).
Proof.
  induction r as [|p|r1 IH1 r2 IH2|r1 IH1 r2 IH2|r1 IH1|p|];
    simpl; intros Hav f g Hk x.
  - apply Hk.
  - destruct x as [|c x]; simpl.
    + rewrite Hav. exact I.
    + destruct (p c); [apply Hk | exact I].
  - destruct Hav as [H1 H2].
    apply (IH1 H1 (fun s => rmatch r2 s f) (fun s => rmatch r2 s g)).
    apply IH2; assumption.
  - destruct Hav as [H1 H2].
    pose proof (IH1 H1 f g Hk x) as E1. pose proof (IH2 H2 f g Hk x) as E2.
    simpl in E1, E2.
    destruct (rmatch r1 (x ++ b :: y1) f), (rmatch r1 (x ++ b :: y2) g);
      simpl in E1; try contradiction; [exact E1 | exact E2].
  - pose proof (IH1 Hav f g Hk x) as E1. simpl in E1.
    destruct (rmatch r1 (x ++ b :: y1) f), (rmatch r1 (x ++ b :: y2) g);
      simpl in E1; try contradiction; [exact E1 | apply Hk].
  - destruct x as [|c x]; simpl.
    + rewrite Hav. exact I.
    + destruct (p c); [|exact I].
      apply star_k_barrier; assumption.
  - destruct x; exact I.
Qed.

End Barrier.

(** What follows the barrier does not change what is matched before it. *)
Lemma exec_barrier (r : regex) (b : jschar) (x y1 y2 : jsstring) :
  avoids b r ->
  orel (fun a c => fst a = fst c /\
                   exists x', x = fst a ++ x' /\
                              snd a = x' ++ b :: y1 /\ snd c = x' ++ b :: y2)
       (exec r (x ++ b :: y1)) (exec r (x ++ b :: y2)).
Proof.
  intros Hav.
  pose proof (@rmatch_barrier _ _
                (fun r1 r2 => exists x', r1 = x' ++ b :: y1 /\ r2 = x' ++ b :: y2)
                b y1 y2 r Hav (fun s => Some s) (fun s => Some s)) as H.
  specialize (H (fun x' => ex_intro _ x' (conj eq_refl eq_refl)) x).
  simpl in H. unfold exec.
  destruct (rmatch r (x ++ b :: y1) _) as [r1|] eqn:E1;
    destruct (rmatch r (x ++ b :: y2) _) as [r2|] eqn:E2;
    simpl in H; try contradiction; [|exact I].
  destruct H as (x' & -> & ->).
  apply rmatch_sound in E1 as (m & rest & Hs & _ & Hrest).
  inversion Hrest; subst rest.
  assert (Hx : x = m ++ x').
  { apply (app_inv_tail (b :: y1)). rewrite <- app_assoc. exact Hs. }
  subst x. simpl. rewrite <- !app_assoc, !firstn_prefix.
  split; [reflexivity|]. exists x'. auto.
Qed.

Lemma scan_barrier (r : regex) (b : jschar) (y : jsstring) :
  avoids b r ->
  exec r [] = None ->
  (forall s, exec r (b :: s) = None) ->
  forall x skip,
    skip <= List.length x ->
    scan r skip (x ++ b :: y) = scan r skip (x ++ [b]) ++ scan r 0 y.
Proof.
  intros Hav H0 Hb. induction x as [|c x IH]; intros skip Hskip.
  - destruct skip; [|simpl in Hskip; lia].
    simpl. rewrite !Hb, H0. reflexivity.
  - destruct skip as [|n]; [|simpl in *; apply IH; lia].
    cbn [app scan].
    pose proof (exec_barrier r b (c :: x) y [] Hav) as E. cbn [app] in E.
    destruct (exec r (c :: x ++ b :: y)) as [[m1 r1]|],
             (exec r (c :: x ++ [b])) as [[m2 r2]|];
      simpl in E; try contradiction.
    + destruct E as (<- & x' & Hx & _). simpl. f_equal. apply IH.
      apply (f_equal (@List.length _)) in Hx. rewrite length_app in Hx.
      simpl in Hx. lia.
    + apply IH. lia.
Qed.

Lemma avoids_chars (ci : bool) (b : jschar) (l : jsstring) :
  is_space b = true ->
  forallb (fun x => negb (is_space x)) l = true ->
  avoids b (chars ci l).
Proof.
  intros Hb. induction l as [|x l IH]; simpl; [auto|].
  intros H. apply andb_true_iff in H as [Hx Hl]. apply negb_true_iff in Hx.
  split; [apply chr_is_space; assumption | apply IH; exact Hl].
Qed.

Lemma all_url_avoids_space (b : jschar) :
  is_space b = true -> avoids b allUrlPattern.
Proof.
  intros Hb.
  assert (Ht : forall s : string,
             forallb (fun x => negb (is_space x)) (lit s) = true ->
                         avoids b (text true s))
    by (intros s; apply avoids_chars; exact Hb).
  refine (conj (conj (Ht "http"%string eq_refl)
                  (conj (Ht "s"%string eq_refl)
                     (conj (Ht "://"%string eq_refl)
                        (conj (Ht "www."%string eq_refl)
                           (conj (conj (Ht "twitter.com"%string eq_refl)
                                       (Ht "x.com"%string eq_refl))
                                 (Ht "/"%string eq_refl)))))) _).
  cbn [avoids]. unfold not_space. rewrite Hb. reflexivity.
Qed.

Lemma all_url_not_at_space (b : jschar) (s : jsstring) :
  is_space b = true -> exec allUrlPattern (b :: s) = None.
Proof.
  intros Hb. unfold exec.
  destruct (rmatch allUrlPattern (b :: s) _) eqn:E; [|reflexivity].
  exfalso. revert E. unfold allUrlPattern, urlHead.
  rewrite !rmatch_seq. unfold text at 1.
  change (lit "http") with (104%N :: lit "ttp").
  rewrite text_mismatch; [discriminate|].
  apply chr_is_space; [exact Hb | reflexivity].
Qed.

(** The link, with what follows it in its word, is among the matches of
    the scan. *)
Lemma link_scanned (u : StatusUrl) (pre q post : jsstring) :
  well_formed u ->
  Forall (fun c => not_space c = true) q ->
  word_start pre ->
  word_end post ->
  In (render u ++ q) (match_all allUrlPattern (pre ++ render u ++ q ++ post)).
Proof.
  intros Hwf Hq Hpre Hpost. unfold match_all.
  pose proof (scan_here _ _ (@exec_all_url u Hwf q post Hq Hpost)) as Hin.
  destruct Hpre as [-> | (pre' & c & -> & Hc)]; [exact Hin|].
  rewrite <- app_assoc. cbn [app].
  rewrite scan_barrier.
  - apply in_or_app. right. exact Hin.
  - apply all_url_avoids_space; exact Hc.
  - reflexivity.
  - intros s. apply all_url_not_at_space; exact Hc.
  - lia.
Qed.

(* ================================================================== *)
(** * Status links are normalised *)

Lemma add_url_mono (x link : jsstring) (links : list jsstring) :
  In x links -> In x (add_url_match links link).
Proof.
  intros H. unfold add_url_match.
  destruct (includes _ _); [destruct (search _ _) as [[[? ?] ?]|]|];
    try exact H; apply set_add_in; left; exact H.
Qed.

Lemma fold_add_url_mono (x : jsstring) (ms : list jsstring) :
  forall links, In x links -> In x (fold_left add_url_match ms links).
Proof.
  induction ms as [|m ms IH]; intros links H; [exact H|].
  simpl. apply IH, add_url_mono, H.
Qed.

Lemma fold_add_short_mono (x : jsstring) (ms : list jsstring) :
  forall links, In x links -> In x (fold_left add_short_match ms links).
Proof.
  induction ms as [|m ms IH]; intros links H; [exact H|].
  simpl. apply IH. apply set_add_in. left; exact H.
Qed.

Lemma fold_add_url_hit (x link : jsstring) (ms : list jsstring) :
  (forall links, In x (add_url_match links link)) ->
  In link ms ->
  forall links, In x (fold_left add_url_match ms links).
Proof.
  intros Hx. induction ms as [|m ms IH]; intros Hin links; [destruct Hin|].
  simpl. destruct Hin as [->|Hin]; [apply fold_add_url_mono, Hx | apply IH, Hin].
Qed.

Section Normalise.

Variable u : StatusUrl.
Variable q : jsstring.
Hypothesis wf : well_formed u.
Hypothesis tail : link_tail q.

(** The link ends in a digit. *)
Lemma render_last : exists body d, render u = body ++ [d] /\ is_digit d = true.
Proof.
  destruct wf as (_ & _ & Hne & Hd).
  destruct (exists_last Hne) as (i & d & E).
  exists (url_head u ++ user u ++ lit "/status/" ++ i), d. split.
  - unfold render, url_path. rewrite E, <- !app_assoc. reflexivity.
  - rewrite E in Hd. apply Forall_app in Hd as [_ Hd].
    inversion Hd; assumption.
Qed.

(** Cleaning cuts inside [q] only. *)
Lemma cleaned_link :
  exists l, cleanUrl (render u ++ q) = render u ++ l /\ stops is_digit l.
Proof.
  destruct (cleanUrl_prefix (render u ++ q)) as (p & Hp & Hpunct).
  apply app_eq_app in Hp as [l [[Hr Hpl]|[Hc Hq]]].
  - destruct l as [|a l'].
    + exists []. rewrite app_nil_r in *. split; [symmetry; exact Hr | exact I].
    + exfalso.
      destruct (@exists_last _ (a :: l')) as (l0 & e & El); [discriminate|].
      destruct render_last as (body & d & Eb & Hd).
      rewrite Eb, El, app_assoc in Hr. apply app_inj_tail in Hr as [_ <-].
      rewrite Hpl, El in Hpunct.
      apply Forall_app in Hpunct as [Hpunct _].
      apply Forall_app in Hpunct as [_ Hpunct].
      inversion Hpunct as [|? ? Hpd _]; subst.
      rewrite (digit_not_punct _ Hd) in Hpd. discriminate.
  - exists l. split; [exact Hc|].
    destruct l as [|a l]; [exact I|].
    destruct tail as [_ Hhead]. rewrite Hq in Hhead. exact Hhead.
Qed.

Lemma add_url_status (links : list jsstring) :
  add_url_match links (render u ++ q) = set_add (render u) links.
Proof.
  unfold add_url_match.
  destruct cleaned_link as (l & -> & Hl).
  replace (includes (lit "/status/") (render u ++ l)) with true.
  - rewrite (search_here _ _ (exec_status wf l Hl)). reflexivity.
  - symmetry. apply includes_iff.
    exists (url_head u ++ user u), (status_id u ++ l).
    unfold render, url_path. rewrite <- !app_assoc. reflexivity.
Qed.

End Normalise.

(** ** No shortener link inside a status link *)

Lemma upcase_colon (c : jschar) : upcase c = 58%N -> c = 58%N.
Proof.
  intros H. destruct (upcase_cases c) as [[? E]|[? E]]; rewrite E in H; lia.
Qed.

Lemma short_has_colon (m : jsstring) : matches shortPattern m -> In 58%N m.
Proof.
  intros H. unfold shortPattern in H.
  inversion H as [| |? ? m1 r1 H1 H1'| | | | | |]; subst; clear H.
  inversion H1' as [| |? ? m2 r2 H2 H2'| | | | | |]; subst; clear H1'.
  inversion H2' as [| |? ? m3 m4 H3 H4| | | | | |]; subst; clear H2'.
  apply matches_chars_upcase in H3.
  destruct m3 as [|c m3]; [discriminate H3|].
  assert (Hc : upcase c = 58%N) by (inversion H3; assumption).
  apply upcase_colon in Hc. subst c.
  apply in_or_app; right. apply in_or_app; right. left; reflexivity.
Qed.

Lemma short_scan_no_colon (s : jsstring) :
  Forall (fun c => N.eqb c 58 = false) s -> match_all shortPattern s = [].
Proof.
  intros Hs. apply scan_nothing. intros a t ->.
  destruct (exec shortPattern t) as [[m rest]|] eqn:E; [|reflexivity].
  apply exec_sound in E as [-> Hm]. apply short_has_colon in Hm.
  apply Forall_app in Hs as [_ Hs]. apply Forall_app in Hs as [Hs _].
  rewrite Forall_forall in Hs. specialize (Hs _ Hm). discriminate Hs.
Qed.

(** The scan for shortener links passes over the start of a status link. *)
Lemma short_scan_head (u : StatusUrl) (rest : jsstring) :
  match_all shortPattern (url_head u ++ rest) = match_all shortPattern rest.
Proof.
  unfold url_head. destruct (secure u), (www u), (on_x u); reflexivity.
Qed.

Lemma path_no_colon (u : StatusUrl) (q : jsstring) :
  well_formed u ->
  Forall (fun c => N.eqb c 58 = false) q ->
  Forall (fun c => N.eqb c 58 = false) (url_path u ++ q).
Proof.
  intros (_ & Hu & _ & Hi) Hq. unfold url_path.
  rewrite <- !app_assoc. repeat (apply Forall_app; split); try exact Hq.
  - eapply Forall_impl; [|exact Hu]. intros c Hc. apply N.eqb_neq.
    intros ->. discriminate Hc.
  - eval_lits. repeat constructor.
  - eapply Forall_impl; [|exact Hi]. intros c Hc. apply N.eqb_neq.
    intros ->. discriminate Hc.
Qed.

(* ================================================================== *)
(** * More about what the extractor returns *)

Lemma set_add_nodup (x : jsstring) (links : list jsstring) :
  NoDup links -> NoDup (set_add x links).
Proof.
  intros H. unfold set_add. destruct (existsb (jseqb x) links) eqn:E; [exact H|].
  apply NoDup_app; [exact H | repeat constructor; intros [] |].
  intros y Hy [<-|[]].
  assert (Ex : existsb (jseqb x) links = true).
  { apply existsb_exists. exists x. split; [exact Hy | apply jseqb_refl]. }
  congruence.
Qed.

Lemma add_url_nodup (links : list jsstring) (link : jsstring) :
  NoDup links -> NoDup (add_url_match links link).
Proof.
  intros H. unfold add_url_match.
  destruct (includes _ _); [destruct (search _ _) as [[[? ?] ?]|]|];
    try exact H; apply set_add_nodup; exact H.
Qed.

(** X1.  The result never holds the same link twice. *)
Theorem extract_no_duplicates (txt : jsstring) :
  NoDup (extractTwitterLinks txt).
Proof.
  unfold extractTwitterLinks.
  assert (H1 : forall ms links, NoDup links ->
                                NoDup (fold_left add_url_match ms links)).
  { induction ms as [|m ms IH]; intros links H; [exact H|].
    simpl. apply IH, add_url_nodup, H. }
  assert (H2 : forall ms links, NoDup links ->
                                NoDup (fold_left add_short_match ms links)).
  { induction ms as [|m ms IH]; intros links H; [exact H|].
    simpl. apply IH, set_add_nodup, H. }
  apply H2, H1. constructor.
Qed.

(** ** The first match, and what cleaning leaves *)

Lemma search_none_all (r : regex) :
  forall s, search r s = None -> forall a t, s = a ++ t -> exec r t = None.
Proof.
  induction s as [|c s IH]; intros H a t E.
  - symmetry in E. apply app_eq_nil in E as [-> ->].
    simpl in H. destruct (exec r []) as [[? ?]|]; [discriminate | reflexivity].
  - cbn [search] in H.
    destruct (exec r (c :: s)) as [[? ?]|] eqn:E0; [discriminate|].
    destruct a as [|x a]; simpl in E; [subst t; exact E0|].
    inversion E; subst. apply (IH (ltac:(destruct (search r (a ++ t)) as [[[? ?] ?]|]; [discriminate | reflexivity])) a t eq_refl).
Qed.

Lemma search_first (r : regex) :
  forall s b m a,
    search r s = Some (b, m, a) ->
    forall b1 b2, b = b1 ++ b2 -> b2 <> [] -> exec r (b2 ++ m ++ a) = None.
Proof.
  induction s as [|c s IH]; intros b m a H b1 b2 E Hne.
  - simpl in H. destruct (exec r []) as [[? ?]|]; [|discriminate].
    injection H as Hb _ _. rewrite <- Hb in E.
    symmetry in E. apply app_eq_nil in E as [_ E]. contradiction.
  - cbn [search] in H.
    destruct (exec r (c :: s)) as [[m0 r0]|] eqn:E0.
    + injection H as Hb _ _. rewrite <- Hb in E.
      symmetry in E. apply app_eq_nil in E as [_ E]. contradiction.
    + destruct (search r s) as [[[b' m'] a']|] eqn:E'; [|discriminate].
      injection H as Hb Hm Ha. subst m' a'.
      pose proof (search_sound _ _ E') as [Hs _].
      destruct b1 as [|x b1]; simpl in E.
      * rewrite <- E, <- Hb. simpl. rewrite <- Hs. exact E0.
      * rewrite <- Hb in E. injection E as _ E.
        apply (IH _ _ _ eq_refl b1 b2 E Hne).
Qed.

Lemma exec_trailing_all (t : jsstring) :
  t <> [] -> Forall (fun c => is_punct c = true) t ->
  exec trailingPunct t = Some (t, []).
Proof.
  intros Hne Ht.
  pose proof (@exec_of_rmatch trailingPunct t []) as H.
  rewrite app_nil_r in H. apply H.
  rewrite <- (app_nil_r t). unfold trailingPunct. rewrite rmatch_seq.
  apply plus_greedy; [exact Hne | exact Ht | exact I | reflexivity].
Qed.

Lemma search_trailing (s b m a : jsstring) :
  search trailingPunct s = Some (b, m, a) ->
  s = b ++ m /\ a = [] /\ Forall (fun c => is_punct c = true) m.
Proof.
  intros E. pose proof (trailing_at_end _ E) as ->.
  apply search_sound in E as [-> Hm]. rewrite app_nil_r.
  repeat split.
  unfold trailingPunct in Hm.
  inversion Hm as [| |? ? m1 m2 H1 H2| | | | | |]; subst.
  inversion H2; subst. rewrite app_nil_r.
  inversion H1; subst. constructor; assumption.
Qed.

(** What [cleanUrl] returns does not end in punctuation. *)
Lemma cleanUrl_no_trailing (s body : jsstring) (c : jschar) :
  cleanUrl s = body ++ [c] -> is_punct c = false.
Proof.
  unfold cleanUrl, remove_first.
  destruct (search trailingPunct s) as [[[b m] a]|] eqn:E; intros Hc;
    destruct (is_punct c) eqn:Hp; try reflexivity; exfalso.
  - pose proof (search_trailing _ E) as (_ & -> & Hm).
    rewrite app_nil_r in Hc. subst b.
    assert (Hne : [c] <> []) by discriminate.
    pose proof (@search_first _ _ _ _ _ E body [c] eq_refl Hne) as H.
    rewrite app_nil_r, exec_trailing_all in H; [discriminate | discriminate|].
    constructor; assumption.
  - pose proof (@search_none_all _ _ E body [c] Hc) as H.
    rewrite exec_trailing_all in H; [discriminate | discriminate|].
    constructor; [exact Hp | constructor].
Qed.

(** Cleaning takes the punctuation off a text that does not itself end in
    punctuation, and nothing more. *)
Lemma cleanUrl_strip (w p : jsstring) :
  (forall body c, w = body ++ [c] -> is_punct c = false) ->
  Forall (fun c => is_punct c = true) p ->
  cleanUrl (w ++ p) = w.
Proof.
  intros Hw Hp.
  destruct (cleanUrl_prefix (w ++ p)) as (p' & E & Hp').
  remember (cleanUrl (w ++ p)) as c0 eqn:Ec.
  apply app_eq_app in E as [l [[E1 E2]|[E1 E2]]].
  - destruct l as [|x l']; [rewrite app_nil_r in E1; congruence|].
    exfalso. destruct (@exists_last _ (x :: l')) as (l0 & e & El); [discriminate|].
    rewrite El, app_assoc in E1. apply Hw in E1.
    rewrite E2, El in Hp'. apply Forall_app in Hp' as [Hp' _].
    apply Forall_app in Hp' as [_ Hp']. inversion Hp'; congruence.
  - destruct l as [|x l']; [rewrite app_nil_r in E1; exact E1|].
    exfalso. destruct (@exists_last _ (x :: l')) as (l0 & e & El); [discriminate|].
    rewrite El, app_assoc in E1. rewrite E1 in Ec. symmetry in Ec.
    apply cleanUrl_no_trailing in Ec.
    rewrite E2, El in Hp. apply Forall_app in Hp as [Hp _].
    apply Forall_app in Hp as [_ Hp]. inversion Hp; congruence.
Qed.

(** ** The shape of the links returned *)

Lemma chr_is_upcase_any (ci : bool) (x c : jschar) :
  chr_is ci x c = true -> upcase c = upcase x.
Proof.
  unfold chr_is. destruct ci; intros H; apply N.eqb_eq in H; congruence.
Qed.

Lemma matches_chars_upcase_any (ci : bool) (l m : jsstring) :
  matches (chars ci l) m -> map upcase m = map upcase l.
Proof.
  revert m; induction l as [|x l IH]; intros m H; simpl in H.
  - inversion H; reflexivity.
  - inversion H as [| |? ? m1 m2 H1 H2| | | | | |]; subst.
    inversion H1 as [|? c Hc| | | | | | |]; subst. simpl.
    rewrite (chr_is_upcase_any _ _ _ Hc), (IH _ H2). reflexivity.
Qed.

Lemma upcase_plain (x c : jschar) :
  plain x = true -> upcase c = upcase x -> c = x.
Proof.
  unfold plain, in_range. intros Hx H.
  apply andb_true_iff in Hx as [Hu Hl].
  apply negb_true_iff in Hu, Hl. apply andb_false_iff in Hu, Hl.
  rewrite !N.leb_gt in Hu, Hl.
  destruct (upcase_cases c) as [[? Ec]|[? Ec]];
    destruct (upcase_cases x) as [[? Ex]|[? Ex]];
    rewrite Ec, Ex in H; clear Ec Ex; lia.
Qed.

Lemma matches_chars_plain (ci : bool) (l m : jsstring) :
  forallb plain l = true -> matches (chars ci l) m -> m = l.
Proof.
  intros Hl Hm. apply matches_chars_upcase_any in Hm.
  revert m Hm; induction l as [|x l IH]; intros [|c m] Hm;
    try discriminate; [reflexivity|].
  simpl in Hl. apply andb_true_iff in Hl as [Hx Hl].
  injection Hm as Hc Hm. f_equal; [apply upcase_plain; assumption | apply IH; assumption].
Qed.

Lemma matches_avoids (b : jschar) (r : regex) (m : jsstring) :
  matches r m -> avoids b r -> ~ In b m.
Proof.
  induction 1 as [|p c Hc|r1 r2 m1 m2 H1 IH1 H2 IH2|r1 r2 m H1 IH1
                  |r1 r2 m H2 IH2|r1 m H1 IH1|r1|p c w Hc Hw|];
    simpl; intros Hav Hin; try tauto.
  - destruct Hin as [<-|[]]. congruence.
  - apply in_app_or in Hin. tauto.
  - destruct Hin as [<-|Hin]; [congruence|].
    rewrite Forall_forall in Hw. specialize (Hw _ Hin). congruence.
Qed.

Lemma matches_no_space (r : regex) (m : jsstring) :
  (forall b, is_space b = true -> avoids b r) ->
  matches r m -> Forall (fun c => not_space c = true) m.
Proof.
  intros Hav Hm. apply Forall_forall. intros c Hc.
  unfold not_space. destruct (is_space c) eqn:E; [|reflexivity].
  exfalso. exact (@matches_avoids c r m Hm (Hav c E) Hc).
Qed.

Lemma space_not_word (b : jschar) : is_space b = true -> is_word b = false.
Proof.
  intros H. destruct (is_word b) eqn:E; [|reflexivity].
  apply word_not_space in E. unfold not_space in E. rewrite H in E. discriminate.
Qed.

Lemma space_not_digit (b : jschar) : is_space b = true -> is_digit b = false.
Proof.
  intros H. destruct (is_digit b) eqn:E; [|reflexivity].
  apply digit_not_space in E. unfold not_space in E. rewrite H in E. discriminate.
Qed.

Lemma url_head_avoids_space (ci : bool) (b : jschar) :
  is_space b = true -> avoids b (urlHead ci).
Proof.
  intros Hb.
  assert (Ht : forall s : string,
             forallb (fun x => negb (is_space x)) (lit s) = true ->
             avoids b (text ci s))
    by (intros s; apply avoids_chars; exact Hb).
  exact (conj (Ht "http"%string eq_refl)
           (conj (Ht "s"%string eq_refl)
              (conj (Ht "://"%string eq_refl)
                 (conj (Ht "www."%string eq_refl)
                    (conj (conj (Ht "twitter.com"%string eq_refl)
                                (Ht "x.com"%string eq_refl))
                          (Ht "/"%string eq_refl)))))).
Qed.

Lemma status_avoids_space (b : jschar) :
  is_space b = true -> avoids b statusPattern.
Proof.
  intros Hb.
  refine (conj (url_head_avoids_space false b Hb)
            (conj (space_not_word b Hb)
               (conj _ (space_not_digit b Hb)))).
  apply (@avoids_chars false b (lit "/status/") Hb). reflexivity.
Qed.

Lemma short_avoids_space (b : jschar) :
  is_space b = true -> avoids b shortPattern.
Proof.
  intros Hb.
  refine (conj _ (conj _ (conj _ (space_not_word b Hb)))).
  - apply (@avoids_chars true b (lit "http") Hb). reflexivity.
  - apply (@avoids_chars true b (lit "s") Hb). reflexivity.
  - apply (@avoids_chars true b (lit "://t.co/") Hb). reflexivity.
Qed.

Lemma firstn_exact {A} (n : nat) (a c : list A) :
  List.length a = n -> firstn n (a ++ c) = a.
Proof.
  intros <-. rewrite firstn_app, Nat.sub_diag, firstn_all. simpl.
  apply app_nil_r.
Qed.

Lemma last_of_app {A} (a : list A) (x : A) (body : list A) (c : A) :
  a ++ [x] = body ++ [c] -> x = c.
Proof. intros H. apply app_inj_tail in H as [_ H]. exact H. Qed.

(** What [urlHead] matches is the start of a link. *)
Lemma url_head_start (ci : bool) (h : jsstring) :
  matches (urlHead ci) h -> link_start h.
Proof.
  intros H. unfold urlHead in H.
  inversion H as [| |? ? h1 r1 H1 H1'| | | | | |]; subst; clear H.
  inversion H1' as [| |? ? h2 r2 H2 H2'| | | | | |]; subst; clear H1'.
  inversion H2' as [| |? ? h3 r3 H3 H3'| | | | | |]; subst; clear H2'.
  inversion H3' as [| |? ? h4 r4 H4 H4'| | | | | |]; subst; clear H3'.
  inversion H4' as [| |? ? h5 h6 H5 H6| | | | | |]; subst; clear H4'.
  apply matches_chars_upcase_any in H1.
  apply (matches_chars_plain ci (lit "://")) in H3; [|reflexivity].
  apply (matches_chars_plain ci (lit "/")) in H6; [|reflexivity].
  subst h3 h6. repeat split.
  - rewrite firstn_exact; [exact H1|].
    apply (f_equal (@List.length _)) in H1. rewrite !length_map in H1. exact H1.
  - apply includes_iff. exists (h1 ++ h2), (h4 ++ h5 ++ lit "/").
    rewrite <- !app_assoc. reflexivity.
  - intros body c E. rewrite !app_assoc in E.
    change (lit "/") with [47%N] in E.
    apply last_of_app in E. symmetry; exact E.
Qed.

(** What the shortener pattern matches starts like a link and ends in a
    word character. *)
Lemma short_start (m : jsstring) :
  matches shortPattern m ->
  exists h w, m = h ++ w /\ link_start h /\ w <> [] /\
              Forall (fun c => is_word c = true) w.
Proof.
  intros H. unfold shortPattern in H.
  inversion H as [| |? ? h1 r1 H1 H1'| | | | | |]; subst; clear H.
  inversion H1' as [| |? ? h2 r2 H2 H2'| | | | | |]; subst; clear H1'.
  inversion H2' as [| |? ? h3 w H3 H4| | | | | |]; subst; clear H2'.
  apply matches_chars_upcase_any in H1, H3.
  exists (h1 ++ h2 ++ h3), w. rewrite <- !app_assoc.
  split; [reflexivity|]. split; [|inversion H4; subst; split;
                                   [discriminate | constructor; assumption]].
  destruct h3 as [|a [|b [|c [|d [|e [|f [|g [|i [|? ?]]]]]]]]]; try discriminate.
  injection H3 as Ha Hb Hc _ _ _ _ Hi.
  apply upcase_plain in Ha; [|reflexivity].
  apply upcase_plain in Hb; [|reflexivity].
  apply upcase_plain in Hc; [|reflexivity].
  apply upcase_plain in Hi; [|reflexivity].
  subst a b c i. repeat split.
  - rewrite firstn_exact; [exact H1|].
    apply (f_equal (@List.length _)) in H1. rewrite !length_map in H1. exact H1.
  - apply includes_iff. exists (h1 ++ h2), [d; e; f; g; 47%N].
    rewrite <- !app_assoc. reflexivity.
  - intros body x E.
    change (h1 ++ h2 ++ [58; 47; 47; d; e; f; g; 47]%N)
      with (h1 ++ h2 ++ [58; 47; 47; d; e; f; g]%N ++ [47%N]) in E.
    rewrite !app_assoc in E. apply last_of_app in E. symmetry; exact E.
Qed.

Lemma clean_keeps (h t : jsstring) :
  (forall body c, h = body ++ [c] -> is_punct c = false) ->
  exists l p, cleanUrl (h ++ t) = h ++ l /\ t = l ++ p.
Proof.
  intros Hh.
  destruct (cleanUrl_prefix (h ++ t)) as (p & E & Hp).
  apply app_eq_app in E as [l [[E1 E2]|[E1 E2]]].
  - destruct l as [|x l'].
    + exists [], t. rewrite app_nil_r in *. auto.
    + exfalso.
      destruct (@exists_last _ (x :: l')) as (l0 & e & El); [discriminate|].
      rewrite El, app_assoc in E1. apply Hh in E1.
      rewrite E2, El in Hp. apply Forall_app in Hp as [Hp _].
      apply Forall_app in Hp as [_ Hp]. inversion Hp; congruence.
  - exists l, p. auto.
Qed.

Lemma firstn_start (h t : jsstring) :
  map upcase (firstn 4 h) = lit "HTTP" -> firstn 4 (h ++ t) = firstn 4 h.
Proof.
  intros H. apply (f_equal (@List.length _)) in H.
  rewrite length_map, length_firstn in H.
  change (List.length (lit "HTTP")) with 4 in H.
  rewrite firstn_app.
  replace (4 - List.length h) with 0 by lia. simpl. apply app_nil_r.
Qed.

Lemma start_of_link (h t : jsstring) :
  link_start h ->
  map upcase (firstn 4 (h ++ t)) = lit "HTTP" /\
  includes (lit "://") (h ++ t) = true.
Proof.
  intros (H4 & Hi & _). split.
  - rewrite firstn_start; assumption.
  - apply includes_prefix; exact Hi.
Qed.

Lemma slash_last_not_punct (h : jsstring) :
  link_start h -> forall body c, h = body ++ [c] -> is_punct c = false.
Proof. intros (_ & _ & H) body c E. rewrite (H body c E). reflexivity. Qed.

Lemma class_last (p : jschar -> bool) (pre w body : jsstring) (c : jschar) :
  w <> [] -> Forall (fun x => p x = true) w ->
  pre ++ w = body ++ [c] -> p c = true.
Proof.
  intros Hne Hw E. destruct (exists_last Hne) as (w0 & e & ->).
  rewrite app_assoc in E. apply last_of_app in E. subst c.
  apply Forall_app in Hw as [_ Hw]. inversion Hw; assumption.
Qed.

(** X2.  Every link returned is free of white space, starts with [http]
    in some case, contains [://] and does not end in one of the
    punctuation marks [. , ; ! ?]. *)
Theorem extract_links_shape (txt u : jsstring) :
  In u (extractTwitterLinks txt) ->
  Forall (fun c => not_space c = true) u /\
  map upcase (firstn 4 u) = lit "HTTP" /\
  includes (lit "://") u = true /\
  (forall body c, u = body ++ [c] -> is_punct c = false).
Proof.
  intros Hin. unfold extractTwitterLinks in Hin.
  assert (Hclean : forall h t,
             link_start h ->
             Forall (fun c => not_space c = true) (h ++ t) ->
             Forall (fun c => not_space c = true) (cleanUrl (h ++ t)) /\
             map upcase (firstn 4 (cleanUrl (h ++ t))) = lit "HTTP" /\
             includes (lit "://") (cleanUrl (h ++ t)) = true /\
             (forall body c, cleanUrl (h ++ t) = body ++ [c] -> is_punct c = false)).
  { intros h t Hh Hsp.
    destruct (@clean_keeps h t (slash_last_not_punct Hh)) as (l & p & E & Et).
    split; [|split; [|split]].
    - rewrite E. rewrite Et, app_assoc in Hsp.
      apply Forall_app in Hsp as [Hsp _]. exact Hsp.
    - rewrite E. apply start_of_link; exact Hh.
    - rewrite E. apply start_of_link; exact Hh.
    - intros body c. apply cleanUrl_no_trailing. }
  apply fold_add_short_in in Hin as [Hin|(link & Hlink & ->)].
  - apply fold_add_url_in in Hin as [[]|(link & Hlink & [(b & a & E)|[_ ->]])].
    + apply search_sound in E as [_ Hm].
      pose proof (matches_no_space status_avoids_space Hm) as Hsp.
      unfold statusPattern in Hm.
      inversion Hm as [| |? ? h r1 Hh H1| | | | | |]; subst.
      inversion H1 as [| |? ? mw r2 Hw H2| | | | | |]; subst.
      inversion H2 as [| |? ? ms md Hs Hd| | | | | |]; subst.
      apply url_head_start in Hh.
      split; [exact Hsp|]. split; [|split]; try (apply start_of_link; exact Hh).
      intros body c E. apply digit_not_punct.
      rewrite !app_assoc in E.
      apply (class_last is_digit) in E; [exact E| |];
        inversion Hd; subst; [discriminate | constructor; assumption].
    + apply scan_sound in Hlink.
      pose proof (matches_no_space all_url_avoids_space Hlink) as Hsp.
      unfold allUrlPattern in Hlink.
      inversion Hlink as [| |? ? h t Hh Ht| | | | | |]; subst.
      apply Hclean; [apply (url_head_start Hh) | exact Hsp].
  - apply scan_sound in Hlink.
    pose proof (matches_no_space short_avoids_space Hlink) as Hsp.
    destruct (short_start Hlink) as (h & w & -> & Hh & _).
    apply Hclean; assumption.
Qed.

(** ** A text without links *)

Lemma scan_needs (r : regex) (p s : jsstring) :
  (forall m, matches r m -> includes p m = true) ->
  includes p s = false -> match_all r s = [].
Proof.
  intros Hr Hs. apply scan_nothing. intros a t ->.
  destruct (exec r t) as [[m rest]|] eqn:E; [|reflexivity].
  apply exec_sound in E as [-> Hm]. apply Hr in Hm.
  apply includes_iff in Hm as (x & y & ->).
  assert (Hi : includes p (a ++ (x ++ p ++ y) ++ rest) = true).
  { apply includes_iff. exists (a ++ x), (y ++ rest).
    rewrite <- !app_assoc. reflexivity. }
  congruence.
Qed.

(** X3.  A text in which [://] does not occur has no links: the result is
    empty. *)
Theorem extract_nothing_without_scheme (txt : jsstring) :
  includes (lit "://") txt = false -> extractTwitterLinks txt = [].
Proof.
  intros H. unfold extractTwitterLinks.
  rewrite (@scan_needs allUrlPattern (lit "://") txt), (@scan_needs shortPattern (lit "://") txt);
    try exact H; try reflexivity.
  - intros m Hm. destruct (short_start Hm) as (h & w & -> & Hh & _).
    apply start_of_link; exact Hh.
  - intros m Hm. unfold allUrlPattern in Hm.
    inversion Hm as [| |? ? h t Hh Ht| | | | | |]; subst.
    apply start_of_link. apply (url_head_start Hh).
Qed.

Lemma extract_nothing_without_scheme_witness :
  extractTwitterLinks (lit "no links here, just x.com and t.co") = [].
Proof.
  apply (@extract_nothing_without_scheme
           (lit "no links here, just x.com and t.co")).
  reflexivity.
Defined.

Lemma extract_links_shape_witness :
  Forall (fun c => not_space c = true) (lit "https://x.com/bar") /\
  map upcase (firstn 4 (lit "https://x.com/bar")) = lit "HTTP".
Proof.
  destruct (@extract_links_shape (lit "see https://x.com/bar, ok")
              (lit "https://x.com/bar")) as (H1 & H2 & _).
  - vm_compute. left; reflexivity.
  - split; assumption.
Defined.

(** ** Links that are returned *)

Lemma exec_all_url_any (u : StatusUrl) (w post : jsstring) :
  w <> [] ->
  Forall (fun c => not_space c = true) w ->
  word_end post ->
  exec allUrlPattern (url_head u ++ w ++ post) = Some (url_head u ++ w, post).
Proof.
  intros Hne Hw Hpost. rewrite app_assoc. apply exec_of_rmatch.
  unfold allUrlPattern. rewrite <- !app_assoc, rmatch_seq.
  apply rmatch_url_head.
  apply plus_greedy; [exact Hne | exact Hw | | reflexivity].
  destruct post as [|c post]; [exact I|].
  simpl in *. unfold not_space. rewrite Hpost. reflexivity.
Qed.

Lemma scan_at_word (r : regex) (pre s m rest : jsstring) :
  (forall b, is_space b = true -> avoids b r) ->
  exec r [] = None ->
  (forall b t, is_space b = true -> exec r (b :: t) = None) ->
  word_start pre ->
  exec r s = Some (m, rest) ->
  In m (match_all r (pre ++ s)).
Proof.
  intros Hav H0 Hsp Hpre E. unfold match_all.
  pose proof (scan_here _ _ E) as Hin.
  destruct Hpre as [-> | (pre' & c & -> & Hc)]; [exact Hin|].
  rewrite <- app_assoc. cbn [app].
  rewrite scan_barrier.
  - apply in_or_app. right. exact Hin.
  - apply Hav; exact Hc.
  - exact H0.
  - intros t. apply Hsp; exact Hc.
  - lia.
Qed.

Lemma add_url_other (links : list jsstring) (link : jsstring) :
  includes (lit "/status/") (cleanUrl link) = false ->
  In (cleanUrl link) (add_url_match links link).
Proof.
  intros H. unfold add_url_match. rewrite H.
  apply set_add_in. right; reflexivity.
Qed.

(** X4.  A link to a page of twitter.com or x.com that is no status link,
    standing at the start of a word and followed in its word by
    punctuation marks only, is returned without these marks. *)
Theorem other_link_cleaned (u : StatusUrl) (w p pre post : jsstring) :
  w <> [] ->
  Forall (fun c => not_space c = true) w ->
  (forall body c, w = body ++ [c] -> is_punct c = false) ->
  Forall (fun c => is_punct c = true) p ->
  includes (lit "/status/") (url_head u ++ w) = false ->
  word_start pre ->
  word_end post ->
  In (url_head u ++ w)
     (extractTwitterLinks (pre ++ url_head u ++ w ++ p ++ post)).
Proof.
  intros Hne Hw Hlast Hp Hst Hpre Hpost.
  assert (Hclean : cleanUrl ((url_head u ++ w) ++ p) = url_head u ++ w).
  { apply cleanUrl_strip; [|exact Hp].
    intros body c E. destruct (exists_last Hne) as (w0 & e & Ew).
    rewrite Ew, app_assoc in E. apply last_of_app in E. subst c.
    apply (Hlast w0 e Ew). }
  unfold extractTwitterLinks. apply fold_add_short_mono.
  apply fold_add_url_hit with (link := (url_head u ++ w) ++ p).
  - intros links. rewrite <- Hclean at 1. apply add_url_other.
    rewrite Hclean. exact Hst.
  - replace (url_head u ++ w ++ p ++ post)
      with (url_head u ++ (w ++ p) ++ post)
      by (rewrite <- !app_assoc; reflexivity).
    rewrite <- (app_assoc (url_head u) w p).
    apply scan_at_word with (rest := post).
    + apply all_url_avoids_space.
    + reflexivity.
    + intros b t Hb. apply all_url_not_at_space; exact Hb.
    + exact Hpre.
    + apply exec_all_url_any; [| |exact Hpost].
      * intros E. apply app_eq_nil in E as [E _]. exact (Hne E).
      * apply Forall_app; split; [exact Hw|].
        eapply Forall_impl; [|exact Hp].
        intros a Ha. unfold not_space. apply negb_true_iff.
        destruct (is_space a) eqn:Es; [|reflexivity].
        revert Ha Es. unfold is_punct, is_space. char_lia.
Qed.

Lemma other_link_cleaned_witness :
  In (lit "https://x.com/scott.codes")
     (extractTwitterLinks (lit "see https://x.com/scott.codes!? now")).
Proof.
  apply (@other_link_cleaned
           {| secure := true; www := false; on_x := true;
              user := []; status_id := [] |}
           (lit "scott.codes") (lit "!?") (lit "see ") (lit " now")).
  - discriminate.
  - vm_compute. repeat constructor.
  - intros body c E.
    change (lit "scott.codes") with (lit "scott.code" ++ [115%N]) in E.
    apply last_of_app in E. subst c. reflexivity.
  - vm_compute. repeat constructor.
  - reflexivity.
  - right. exists (lit "see"), 32%N. split; reflexivity.
  - reflexivity.
Defined.

Lemma short_not_at_space (b : jschar) (s : jsstring) :
  is_space b = true -> exec shortPattern (b :: s) = None.
Proof.
  intros Hb. unfold exec.
  destruct (rmatch shortPattern (b :: s) _) eqn:E; [|reflexivity].
  exfalso. revert E. unfold shortPattern.
  rewrite !rmatch_seq. unfold text at 1.
  change (lit "http") with (104%N :: lit "ttp").
  rewrite text_mismatch; [discriminate|].
  apply chr_is_space; [exact Hb | reflexivity].
Qed.

Lemma exec_short (secure : bool) (w post : jsstring) :
  w <> [] ->
  Forall (fun c => is_word c = true) w ->
  stops is_word post ->
  exec shortPattern (short_link secure w ++ post)
  = Some (short_link secure w, post).
Proof.
  intros Hne Hw Hpost. apply exec_of_rmatch.
  unfold shortPattern, short_link. rewrite <- !app_assoc.
  rewrite rmatch_seq, rmatch_text_same. cbv beta. rewrite rmatch_seq.
  assert (Hrest : rmatch (text true "://t.co/" >> Plus is_word)
                    (lit "://t.co/" ++ w ++ post) (fun s => Some s)
                  = Some post).
  { rewrite rmatch_seq, rmatch_text_same.
    apply plus_greedy; [exact Hne | exact Hw | exact Hpost | reflexivity]. }
  destruct secure.
  - apply opt_take. rewrite rmatch_text_same. exact Hrest.
  - cbn [app]. rewrite (@opt_skip _ (text true "s")); [exact Hrest|].
    apply text_mismatch. reflexivity.
Qed.

Lemma fold_add_short_hit (link : jsstring) (ms : list jsstring) :
  In link ms ->
  forall links, In (cleanUrl link) (fold_left add_short_match ms links).
Proof.
  induction ms as [|m ms IH]; intros Hin links; [destruct Hin|].
  simpl. destruct Hin as [->|Hin]; [|apply IH, Hin].
  apply fold_add_short_mono. apply set_add_in. right; reflexivity.
Qed.

(** X5.  A link of the shortener [t.co] that starts a word and is not
    followed by a word character is returned as it stands. *)
Theorem short_link_found (secure : bool) (w pre post : jsstring) :
  w <> [] ->
  Forall (fun c => is_word c = true) w ->
  word_start pre ->
  stops is_word post ->
  In (short_link secure w)
     (extractTwitterLinks (pre ++ short_link secure w ++ post)).
Proof.
  intros Hne Hw Hpre Hpost.
  assert (Hclean : cleanUrl (short_link secure w) = short_link secure w).
  { rewrite <- (app_nil_r (short_link secure w)) at 1.
    apply cleanUrl_strip; [|constructor].
    intros body c E. unfold short_link in E. rewrite !app_assoc in E.
    apply (class_last is_word) in E; [|exact Hne | exact Hw].
    destruct (is_punct c) eqn:Ep; [|reflexivity].
    revert E Ep. unfold is_word, is_punct. char_lia. }
  unfold extractTwitterLinks. rewrite <- Hclean at 1.
  apply fold_add_short_hit.
  apply scan_at_word with (rest := post).
  - apply short_avoids_space.
  - reflexivity.
  - intros b t Hb. apply short_not_at_space; exact Hb.
  - exact Hpre.
  - apply exec_short; assumption.
Qed.

Lemma short_link_found_witness :
  In (lit "https://t.co/AbC123")
     (extractTwitterLinks (lit "read https://t.co/AbC123, then reply")).
Proof.
  apply (@short_link_found true (lit "AbC123") (lit "read ")
           (lit ", then reply")).
  - discriminate.
  - vm_compute. repeat constructor.
  - right. exists (lit "read"), 32%N. split; reflexivity.
  - reflexivity.
Defined.

(* ================================================================== *)
(** * The first status link of a word *)

Lemma star_k_total (p : jschar -> bool) (s : jsstring) :
  star_k p (fun rest => Some rest) s <> None.
Proof.
  induction s as [|c s IH]; simpl; [discriminate|].
  destruct (p c); [|discriminate].
  destruct (star_k p _ s); [discriminate | contradiction].
Qed.

(** The greedy run of a class, with nothing to match after it, stops only
    where the class stops. *)
Lemma star_k_stops (p : jschar -> bool) :
  forall s rest, star_k p (fun rest => Some rest) s = Some rest -> stops p rest.
Proof.
  induction s as [|c s IH]; intros rest; simpl.
  - intros H; inversion H; subst. exact I.
  - destruct (p c) eqn:Hc.
    + destruct (star_k p _ s) as [y|] eqn:E.
      * intros H; inversion H; subst. apply IH. reflexivity.
      * exfalso. exact (@star_k_total p s E).
    + intros H; inversion H; subst. exact Hc.
Qed.

(** A match of the scan for links ends where its word ends. *)
Lemma all_url_to_word_end (s m rest : jsstring) :
  exec allUrlPattern s = Some (m, rest) -> stops not_space rest.
Proof.
  unfold exec.
  destruct (rmatch allUrlPattern s _) as [rest'|] eqn:E; [|discriminate].
  intros H; inversion H; subst rest'; clear H.
  unfold allUrlPattern in E. rewrite rmatch_seq in E.
  apply rmatch_sound in E as (m0 & rest0 & _ & _ & E). simpl in E.
  destruct rest0 as [|c rest0]; [discriminate|].
  destruct (not_space c); [|discriminate].
  apply star_k_stops in E. exact E.
Qed.

(** A text is cut into its first word and the rest in one way only. *)
Lemma word_split (w : jsstring) :
  forall m post rest,
    w ++ post = m ++ rest ->
    Forall (fun c => not_space c = true) w ->
    Forall (fun c => not_space c = true) m ->
    stops not_space post -> stops not_space rest ->
    m = w /\ rest = post.
Proof.
  induction w as [|x w IH]; intros m post rest E Hw Hm Hpost Hrest.
  - destruct m as [|c m]; [auto|]. exfalso.
    simpl in E. subst post. simpl in Hpost.
    inversion Hm; congruence.
  - destruct m as [|c m].
    + exfalso. simpl in E. subst rest. simpl in Hrest.
      inversion Hw; congruence.
    + simpl in E. inversion E; subst c.
      inversion Hw; subst. inversion Hm; subst.
      destruct (IH m post rest) as [-> ->]; auto.
Qed.

Lemma word_end_stops (post : jsstring) : word_end post -> stops not_space post.
Proof.
  destruct post as [|c post]; simpl; [auto|].
  intros H. unfold not_space. rewrite H. reflexivity.
Qed.

(** The scan of a word finds a match that runs from somewhere in [w0], at
    the latest from its end, to the end of the word. *)
Lemma word_scanned (l post : jsstring) :
  Forall (fun c => not_space c = true) l ->
  word_end post ->
  exec allUrlPattern (l ++ post) = Some (l, post) ->
  forall w0,
    Forall (fun c => not_space c = true) w0 ->
    exists a t, w0 = a ++ t /\
                In (t ++ l) (scan allUrlPattern 0 (w0 ++ l ++ post)).
Proof.
  intros Hl Hpost Hexec. induction w0 as [|x w0 IH]; intros Hw0.
  - exists [], []. split; [reflexivity|]. apply (scan_here _ _ Hexec).
  - inversion Hw0 as [|? ? Hx Hw0']; subst.
    cbn [app scan].
    destruct (exec allUrlPattern (x :: w0 ++ l ++ post)) as [[m rest]|] eqn:E.
    + exists [], (x :: w0). split; [reflexivity|].
      pose proof (all_url_to_word_end _ E) as Hrest.
      apply exec_sound in E as [E Hm].
      apply (matches_no_space all_url_avoids_space) in Hm.
      destruct (@word_split ((x :: w0) ++ l) m post rest) as [-> _]; auto.
      * rewrite <- E, <- app_assoc. reflexivity.
      * apply Forall_app; auto.
      * apply word_end_stops, Hpost.
      * left. reflexivity.
    + destruct (IH Hw0') as (a & t & -> & Hin).
      exists (x :: a), t. split; [reflexivity | exact Hin].
Qed.

Lemma scan_after_word (r : regex) (pre s m : jsstring) :
  (forall b, is_space b = true -> avoids b r) ->
  exec r [] = None ->
  (forall b t, is_space b = true -> exec r (b :: t) = None) ->
  word_start pre ->
  In m (scan r 0 s) ->
  In m (match_all r (pre ++ s)).
Proof.
  intros Hav H0 Hsp Hpre Hin. unfold match_all.
  destruct Hpre as [-> | (pre' & c & -> & Hc)]; [exact Hin|].
  rewrite <- app_assoc. cbn [app].
  rewrite scan_barrier.
  - apply in_or_app. right. exact Hin.
  - apply Hav; exact Hc.
  - exact H0.
  - intros t. apply Hsp; exact Hc.
  - lia.
Qed.

(** The first match is where nothing matches before. *)
Lemma search_skip (r : regex) (s m rest : jsstring) :
  exec r s = Some (m, rest) ->
  forall t,
    (forall a' t', t = a' ++ t' -> t' <> [] -> exec r (t' ++ s) = None) ->
    search r (t ++ s) = Some (t, m, rest).
Proof.
  intros Hexec. induction t as [|x t IH]; intros Hno.
  - apply search_here, Hexec.
  - assert (E : exec r ((x :: t) ++ s) = None)
      by (apply (Hno [] (x :: t) eq_refl); discriminate).
    cbn [app] in E. cbn [app search]. rewrite E.
    rewrite IH; [reflexivity|].
    intros a' t' -> Hne. apply (Hno (x :: a') t'); [reflexivity | exact Hne].
Qed.

Section FirstOfWord.

Variable u : StatusUrl.
Variables w0 q : jsstring.
Hypothesis wf : well_formed u.
Hypothesis tail : link_tail q.
Hypothesis first : no_status_before w0 (render u ++ q).

(** The status pattern finds nothing that starts in [w0]. *)
Lemma nothing_before (a t l p : jsstring) :
  w0 = a ++ t -> t <> [] -> q = l ++ p ->
  exec statusPattern (t ++ render u ++ l) = None.
Proof.
  intros Ew Hne Eq.
  destruct (exec statusPattern (t ++ render u ++ l)) as [[m rest]|] eqn:E;
    [|reflexivity].
  exfalso. apply exec_sound in E as [E Hm].
  pose proof first as F. unfold no_status_before in F.
  apply (F a m (rest ++ p)); [| |exact Hm].
  - rewrite Ew, Eq, (app_assoc m), <- E, <- !app_assoc. reflexivity.
  - rewrite Ew, length_app. destruct t; [contradiction | simpl; lia].
Qed.

(** The match that covers the link, from wherever in [w0] it starts, adds
    the link in its normal form. *)
Lemma add_url_first (a t : jsstring) (links : list jsstring) :
  w0 = a ++ t ->
  add_url_match links (t ++ render u ++ q) = set_add (render u) links.
Proof.
  intros Ew.
  assert (Hlast : forall body c, t ++ render u = body ++ [c] ->
                                 is_punct c = false).
  { intros body c E. destruct (render_last wf) as (body' & d & Er & Hd).
    rewrite Er, app_assoc in E. apply last_of_app in E. subst c.
    apply digit_not_punct, Hd. }
  destruct (clean_keeps q Hlast) as (l & p & Ec & Eq).
  assert (Hl : stops is_digit l).
  { destruct l as [|c l]; [exact I|].
    destruct tail as [_ Hq]. rewrite Eq in Hq. exact Hq. }
  unfold add_url_match. rewrite (app_assoc t), Ec, <- app_assoc.
  replace (includes (lit "/status/") (t ++ render u ++ l)) with true.
  - rewrite (@search_skip _ _ _ _ (exec_status wf l Hl)); [reflexivity|].
    intros a' t' Et Hne.
    apply (@nothing_before (a ++ a') t' l p); [|exact Hne | exact Eq].
    rewrite Ew, Et, <- app_assoc. reflexivity.
  - symmetry. apply includes_iff.
    exists (t ++ url_head u ++ user u), (status_id u ++ l).
    unfold render, url_path. rewrite <- !app_assoc. reflexivity.
Qed.

End FirstOfWord.




(* ================================================================== *)
(** * Invariants of [processMessage] *)

Lemma expand_cases (env : Env) (u : jsstring) (b : Bot) :
  (includes (lit "t.co") u = false /\ expandShortUrl env u b = (u, b)) \/
  (includes (lit "t.co") u = true /\
   snd (expandShortUrl env u b) = tick (with_request u b)).
Proof.
  unfold expandShortUrl. destruct (includes (lit "t.co") u); [right | left; auto].
  split; [reflexivity|]. unfold bind, head_request.
  destruct (axios_head env (ticks b) u) as [|[[|c rest]|]]; reflexivity.
Qed.

Section ProcessInvariant.

Variables (cfg : Config) (env : Env) (message : Message).
Variable P : Bot -> Prop.

Hypothesis request_keeps :
  forall link b,
    In link (extractTwitterLinks (msg_content message)) ->
    includes (lit "t.co") link = true ->
    P b -> P (tick (with_request link b)).
Hypothesis tick_keeps : forall b, P b -> P (tick b).
Hypothesis save_keeps :
  forall link expanded now b,
    accepted cfg message = true ->
    In link (extractTwitterLinks (msg_content message)) ->
    (includes (lit "t.co") link = false -> expanded = link) ->
    P b ->
    P (snd (saveLinkToDatabase cfg env
              (build_linkData message link expanded now) b)).

Lemma links_keep (links : list jsstring) :
  accepted cfg message = true ->
  (forall l, In l links -> In l (extractTwitterLinks (msg_content message))) ->
  forall b,
    P b ->
    P (snd (for_each
              (fun link =>
                 expandedUrl <- expandShortUrl env link ;;
                 now <- new_Date env ;;
                 saveLinkToDatabase cfg env
                   (build_linkData message link expandedUrl now))
              links b)).
Proof.
  intros Hacc. induction links as [|link links IH]; intros Hin b Hb; [exact Hb|].
  simpl. unfold bind at 1.
  match goal with |- context [let (_, _) := ?m b in _] =>
    destruct m as [[] b'] eqn:E end.
  apply IH; [intros l Hl; apply Hin; right; exact Hl|].
  replace b' with (snd (tt, b')) by reflexivity. rewrite <- E.
  unfold bind.
  destruct (expandShortUrl env link b) as [e b1] eqn:E1.
  unfold new_Date at 1.
  assert (Hl : In link (extractTwitterLinks (msg_content message)))
    by (apply Hin; left; reflexivity).
  apply save_keeps; [exact Hacc | exact Hl | |].
  - intros Hno. rewrite (expand_identity env link b Hno) in E1.
    inversion E1; reflexivity.
  - apply tick_keeps.
    destruct (expand_cases env link b) as [[_ E2]|[Hyes E2]]; rewrite E1 in E2.
    + inversion E2; subst; exact Hb.
    + simpl in E2. subst b1. apply request_keeps; assumption.
Qed.

Lemma process_keeps (b : Bot) : P b -> P (process cfg env message b).
Proof.
  intros Hb. unfold process, processMessage.
  destruct (bot (msg_author message)) eqn:E1; [exact Hb|].
  destruct (guild_rejected cfg message) eqn:E2; [exact Hb|].
  destruct (channel_rejected cfg message) eqn:E3; [exact Hb|].
  apply links_keep; [|auto|exact Hb].
  unfold accepted. rewrite E1, E2, E3. reflexivity.
Qed.

End ProcessInvariant.

(** A message that does not pass the filters changes nothing. *)
Lemma process_rejected (cfg : Config) (env : Env) (message : Message) (b : Bot) :
  accepted cfg message = false -> process cfg env message b = b.
Proof.
  unfold accepted, process, processMessage.
  destruct (bot (msg_author message)); [reflexivity|].
  destruct (guild_rejected cfg message); [reflexivity|].
  destruct (channel_rejected cfg message); [reflexivity|].
  discriminate.
Qed.

(** ** What [updateOne] does to the documents *)

Lemma update_first_docs ixs r before rest ds res :
  update_first ixs r before rest = Some (ds, res) ->
  ds = before ++ rest \/
  exists pre old post,
    rest = pre ++ old :: post /\ same_key r old = true /\
    duplicate_key ixs (before ++ pre ++ post) (set_fields r old) = false /\
    ds = before ++ pre ++ set_fields r old :: post.
Proof.
  revert before; induction rest as [|d rest IH]; intros before; simpl;
    [discriminate|].
  destruct (same_key r d) eqn:Ek.
  - destruct (duplicate_key _ _ _) eqn:Ed; intros H; inversion H; subst.
    + left; reflexivity.
    + right. exists [], d, rest. auto.
  - intros H. apply IH in H as [->|(pre & old & post & -> & Hk & Hd & ->)].
    + left. rewrite <- app_assoc. reflexivity.
    + right. exists (d :: pre), old, post.
      rewrite <- !app_assoc in *. simpl in *. auto.
Qed.

(** The three outcomes of an upsert: nothing written, one document
    updated in place, one document appended. *)
Lemma updateOne_docs (c : Collection) (r : LinkData) (now : Z) :
  indexes (fst (updateOne c r now)) = indexes c /\
  (docs (fst (updateOne c r now)) = docs c \/
   (exists pre old post,
       docs c = pre ++ old :: post /\ same_key r old = true /\
       createdAt r = None /\
       duplicate_key (indexes c) (pre ++ post) (set_fields r old) = false /\
       docs (fst (updateOne c r now)) = pre ++ set_fields r old :: post) \/
   (createdAt r = None /\
    duplicate_key (indexes c) (docs c) (set_on_insert now r) = false /\
    docs (fst (updateOne c r now)) = docs c ++ [set_on_insert now r])).
Proof.
  unfold updateOne. destruct (createdAt r) eqn:Ec; [simpl; auto|].
  destruct (update_first _ r [] (docs c)) as [[ds res]|] eqn:E; simpl.
  - split; [reflexivity|].
    apply update_first_docs in E as [->|(pre & old & post & E1 & Hk & Hd & ->)].
    + left; reflexivity.
    + right; left. exists pre, old, post. simpl in *. auto.
  - destruct (duplicate_key _ _ _) eqn:Ed; simpl; [auto|].
    split; [reflexivity|]. right; right. auto.
Qed.

(** ** Where the stored records come from *)

Lemma stored_tick (cfg : Config) (b : Bot) : stored cfg (tick b) = stored cfg b.
Proof. unfold stored. destruct (TEST_MODE cfg); reflexivity. Qed.

Lemma stored_request (cfg : Config) (u : jsstring) (b : Bot) :
  stored cfg (with_request u b) = stored cfg b.
Proof. unfold stored. destruct (TEST_MODE cfg); reflexivity. Qed.

(** The records after one [saveLinkToDatabase]: as before, or one of them
    rewritten with the fields of [r], or [r] appended. *)
Lemma save_stored (cfg : Config) (env : Env) (r : LinkData) (b : Bot) :
  let after := stored cfg (snd (saveLinkToDatabase cfg env r b)) in
  after = stored cfg b \/
  (exists pre old post,
      stored cfg b = pre ++ old :: post /\ same_key r old = true /\
      after = pre ++ set_fields r old :: post) \/
  (exists d, linkData_of d = linkData_of r /\ after = stored cfg b ++ [d]).
Proof.
  unfold stored. destruct (TEST_MODE cfg) eqn:Et.
  - rewrite save_test_mode by exact Et. simpl.
    destruct (existsb _ _); [left; reflexivity|].
    right; right. exists r. split; reflexivity.
  - rewrite save_mongo by exact Et. simpl.
    destruct (updateOne_docs (collection b) r (Date_now env (ticks b)))
      as (_ & [E|[(pre & old & post & E1 & Hk & _ & _ & E)|(_ & _ & E)]]).
    + left; exact E.
    + right; left. exists pre, old, post. auto.
    + right; right. exists (set_on_insert (Date_now env (ticks b)) r).
      split; [reflexivity | exact E].
Qed.

Lemma process_provenance (cfg : Config) (env : Env)
      (message : Message) (b : Bot) (d : LinkData) :
  In d (stored cfg (process cfg env message b)) ->
  In d (stored cfg b) \/ made_from cfg message d.
Proof.
  revert d.
  apply (@process_keeps cfg env message
           (fun b' => forall d, In d (stored cfg b') ->
                                In d (stored cfg b) \/ made_from cfg message d)).
  - intros link b' _ _ H d. rewrite stored_tick, stored_request. apply H.
  - intros b' H d. rewrite stored_tick. apply H.
  - intros link expanded now b' Hacc Hl Hexp H d.
    set (r := build_linkData message link expanded now).
    assert (Hr : forall x, linkData_of x = linkData_of r -> made_from cfg message x).
    { intros x Hx.
      assert (Ho : originalUrl x = link)
        by exact (f_equal originalUrl Hx).
      assert (Hu : url x = expanded) by exact (f_equal url Hx).
      assert (Hf : foundAt x = now) by exact (f_equal foundAt Hx).
      unfold made_from. rewrite Ho, Hu, Hf, Hx. auto. }
    destruct (save_stored cfg env r b')
      as [E|[(pre & old & post & E1 & _ & E)|(x & Hx & E)]];
      cbv zeta in E; rewrite E.
    + apply H.
    + intros Hin. apply in_app_or in Hin as [Hin|[<-|Hin]].
      * apply H. rewrite E1. apply in_or_app. left; exact Hin.
      * right. apply Hr. reflexivity.
      * apply H. rewrite E1. apply in_or_app. right; right; exact Hin.
    + intros Hin. apply in_app_or in Hin as [Hin|[<-|[]]].
      * apply H, Hin.
      * right. apply Hr, Hx.
  - auto.
Qed.

(** X6.  Every record in the store after [processMessage] ran on some
    messages was in the store before, or was made from one of these
    messages: the message passed the filters, the record's original link
    is one of the links extracted from its content, its other fields are
    those of the message, and its URL is the original link unless [t.co]
    occurs in that link. *)
Theorem stored_records_made_from_message (cfg : Config) (env : Env)
        (ms : list Message) (b : Bot) (d : LinkData) :
  In d (stored cfg (process_all cfg env ms b)) ->
  In d (stored cfg b) \/ exists message, In message ms /\ made_from cfg message d.
Proof.
  revert b. induction ms as [|m ms IH]; intros b; simpl; [auto|].
  intros H. apply IH in H as [H|(m' & Hm' & H)].
  - apply process_provenance in H as [H|H]; [left; exact H|].
    right. exists m. auto.
  - right. exists m'. auto.
Qed.

Lemma stored_records_made_from_message_witness :
  In (sample_link "1" "https://x.com/alice" 1700000000000)
     (stored test_cfg (TwitterLinkBot fresh_db)) \/
  exists message,
    In message [sample_message "1" 1699999990000 "https://x.com/alice"] /\
    made_from test_cfg message
              (sample_link "1" "https://x.com/alice" 1700000000000).
Proof.
  apply (@stored_records_made_from_message test_cfg sample_env
           [sample_message "1" 1699999990000 "https://x.com/alice"]
           (TwitterLinkBot fresh_db)).
  vm_compute. left; reflexivity.
Defined.

(** X7.  [processMessage] never removes, reorders or re-keys a stored
    record and never changes its [createdAt]: the message ids, URLs and
    creation times of the records stored before are the start of those
    stored after. *)
Theorem store_is_append_only (cfg : Config) (env : Env) (message : Message)
        (b : Bot) :
  exists extra,
    map identity (stored cfg (process cfg env message b)) =
    map identity (stored cfg b) ++ extra.
Proof.
  apply (@process_keeps cfg env message
           (fun b' => exists extra,
                map identity (stored cfg b') =
                map identity (stored cfg b) ++ extra)).
  - intros link b' _ _ H. rewrite stored_tick, stored_request. exact H.
  - intros b' H. rewrite stored_tick. exact H.
  - intros link expanded now b' _ _ _ (extra & H).
    generalize (build_linkData message link expanded now). intros r.
    destruct (save_stored cfg env r b')
      as [E|[(pre & old & post & E1 & Hk & E)|(x & Hx & E)]];
      cbv zeta in E; rewrite E.
    + exists extra; exact H.
    + exists extra. rewrite <- H, E1, !map_app. cbn [map].
      apply same_key_iff in Hk as [Hm Hu].
      change (identity (set_fields r old))
        with (messageId r, url r, createdAt old).
      rewrite <- Hm, <- Hu. reflexivity.
    + exists (extra ++ [identity x]).
      rewrite map_app, H, <- app_assoc. reflexivity.
  - exists []. rewrite app_nil_r. reflexivity.
Qed.

(** ** The requests [processMessage] issues *)

Lemma save_requests (cfg : Config) (env : Env) (r : LinkData) (b : Bot) :
  requests (snd (saveLinkToDatabase cfg env r b)) = requests b.
Proof.
  destruct (TEST_MODE cfg) eqn:Et.
  - rewrite save_test_mode by exact Et. simpl.
    destruct (existsb _ _); reflexivity.
  - rewrite save_mongo by exact Et. reflexivity.
Qed.

Lemma links_requests (cfg : Config) (env : Env) (message : Message)
      (links : list jsstring) :
  forall b,
    requests (snd (for_each
                     (fun link =>
                        expandedUrl <- expandShortUrl env link ;;
                        now <- new_Date env ;;
                        saveLinkToDatabase cfg env
                          (build_linkData message link expandedUrl now))
                     links b)) =
    requests b ++ filter (includes (lit "t.co")) links.
Proof.
  induction links as [|link links IH]; intros b;
    [simpl; rewrite app_nil_r; reflexivity|].
  cbn [for_each filter]. unfold bind at 1.
  match goal with |- context [let (_, _) := ?m b in _] =>
    destruct m as [[] b'] eqn:E end.
  rewrite IH.
  assert (Hb' : requests b' =
                requests b ++ if includes (lit "t.co") link then [link] else []).
  { replace b' with (snd (tt, b')) by reflexivity. rewrite <- E.
    unfold bind.
    destruct (expandShortUrl env link b) as [e b1] eqn:E1.
    unfold new_Date at 1. rewrite save_requests. simpl.
    destruct (expand_cases env link b) as [[Hno E2]|[Hyes E2]];
      rewrite E1 in E2.
    - inversion E2; subst. rewrite Hno, app_nil_r. reflexivity.
    - simpl in E2. subst b1. rewrite Hyes. reflexivity. }
  rewrite Hb'. destruct (includes (lit "t.co") link).
  - rewrite <- app_assoc. reflexivity.
  - rewrite app_nil_r. reflexivity.
Qed.

(** X8.  The HTTP requests that [processMessage] issues for a message are
    those for the extracted links in which [t.co] occurs, one each and in
    the order of the links; a message that does not pass the filters
    causes none. *)
Theorem requests_of_a_message (cfg : Config) (env : Env) (message : Message)
        (b : Bot) :
  requests (process cfg env message b) =
  requests b ++
  (if accepted cfg message
   then filter (includes (lit "t.co"))
               (extractTwitterLinks (msg_content message))
   else []).
Proof.
  unfold process, processMessage, accepted.
  destruct (bot (msg_author message)); [simpl; rewrite app_nil_r; reflexivity|].
  destruct (guild_rejected cfg message); [simpl; rewrite app_nil_r; reflexivity|].
  destruct (channel_rejected cfg message); [simpl; rewrite app_nil_r; reflexivity|].
  apply links_requests.
Qed.

(** ** Every link is a piece of the text *)

Lemma scan_occurs (r : regex) :
  forall s skip m, In m (scan r skip s) -> exists a c, s = a ++ m ++ c.
Proof.
  assert (Hcons : forall (x : jschar) s m,
             (exists a c, s = a ++ m ++ c) -> exists a c, x :: s = a ++ m ++ c).
  { intros x s m (a & c & ->). exists (x :: a), c. reflexivity. }
  induction s as [|x s IH]; intros skip m; destruct skip as [|n]; simpl.
  - destruct (exec r []) as [[m' rest]|] eqn:E; [|intros []].
    intros [<-|[]]. apply exec_sound in E as [E _]. exists [], rest. exact E.
  - intros [].
  - destruct (exec r (x :: s)) as [[m' rest]|] eqn:E.
    + intros [<-|H].
      * apply exec_sound in E as [E _]. exists [], rest. exact E.
      * apply Hcons, (IH _ _ H).
    + intros H. apply Hcons, (IH _ _ H).
  - intros H. apply Hcons, (IH _ _ H).
Qed.

Lemma occurs_in_occurs (s m u : jsstring) :
  (exists a c, s = a ++ m ++ c) -> (exists a c, m = a ++ u ++ c) ->
  exists a c, s = a ++ u ++ c.
Proof.
  intros (a & c & ->) (a' & c' & ->).
  exists (a ++ a'), (c' ++ c). rewrite <- !app_assoc. reflexivity.
Qed.

Lemma extract_occurs (txt u : jsstring) :
  In u (extractTwitterLinks txt) -> exists a c, txt = a ++ u ++ c.
Proof.
  intros Hin. unfold extractTwitterLinks in Hin.
  assert (Hclean : forall link, exists a c, link = a ++ cleanUrl link ++ c).
  { intros link. destruct (cleanUrl_prefix link) as (p & E & _).
    exists [], p. exact E. }
  apply fold_add_short_in in Hin as [Hin|(link & Hlink & ->)].
  - apply fold_add_url_in in Hin as [[]|(link & Hlink & [(b & a & E)|[_ ->]])].
    + apply scan_occurs in Hlink. apply search_sound in E as [E _].
      apply (@occurs_in_occurs _ _ _ Hlink).
      apply (@occurs_in_occurs _ _ _ (Hclean link)).
      exists b, a. exact E.
    + apply scan_occurs in Hlink. apply (@occurs_in_occurs _ _ _ Hlink), Hclean.
  - apply scan_occurs in Hlink. apply (@occurs_in_occurs _ _ _ Hlink), Hclean.
Qed.

(** X9.  Every link returned occurs in the text as it stands: the
    extractor cuts links out of the text and never rewrites them. *)
Theorem extract_links_occur (txt u : jsstring) :
  In u (extractTwitterLinks txt) -> includes u txt = true.
Proof.
  intros H. apply includes_iff. apply extract_occurs, H.
Qed.

Lemma extract_links_occur_witness :
  includes (lit "https://x.com/foo/status/555")
           (lit "look https://x.com/foo/status/555?s=20") = true.
Proof.
  apply (@extract_links_occur (lit "look https://x.com/foo/status/555?s=20")
           (lit "https://x.com/foo/status/555")).
  vm_compute. left; reflexivity.
Defined.

(** X10.  A message in whose content [t.co] does not occur causes no HTTP
    request, and the records made from it keep the link as their URL. *)
Theorem no_request_without_tco (cfg : Config) (env : Env) (message : Message)
        (b : Bot) :
  includes (lit "t.co") (msg_content message) = false ->
  requests (process cfg env message b) = requests b /\
  forall d, made_from cfg message d -> url d = originalUrl d.
Proof.
  intros Hno.
  assert (Hl : forall link,
             In link (extractTwitterLinks (msg_content message)) ->
             includes (lit "t.co") link = false).
  { intros link Hin. destruct (includes (lit "t.co") link) eqn:E; [|reflexivity].
    apply includes_iff in E. apply extract_occurs in Hin.
    pose proof (@occurs_in_occurs _ _ _ Hin E) as H.
    apply includes_iff in H. congruence. }
  split.
  - unfold process, processMessage.
    destruct (bot (msg_author message)); [reflexivity|].
    destruct (guild_rejected cfg message); [reflexivity|].
    destruct (channel_rejected cfg message); [reflexivity|].
    rewrite links_requests.
    replace (filter _ _) with (@nil jsstring); [apply app_nil_r|].
    symmetry. apply filter_none. apply forallb_forall.
    intros link Hin. rewrite (Hl link Hin). reflexivity.
  - intros d (_ & Hin & _ & H). apply H, Hl, Hin.
Qed.

Lemma no_request_without_tco_witness :
  requests (process test_cfg sample_env live_message (TwitterLinkBot fresh_db))
  = requests (TwitterLinkBot fresh_db).
Proof.
  apply (@no_request_without_tco test_cfg sample_env live_message
           (TwitterLinkBot fresh_db)).
  reflexivity.
Defined.

(* ================================================================== *)
(** * The unique indexes *)

Lemma value_eqb_eq (a c : value) : value_eqb a c = true <-> a = c.
Proof.
  destruct a as [x|x|], c as [y|y|]; simpl;
    try (split; [discriminate | intros H; inversion H]); try tauto.
  - rewrite jseqb_eq. split; [intros ->; reflexivity | intros H; inversion H; reflexivity].
  - rewrite Z.eqb_eq. split; [intros ->; reflexivity | intros H; inversion H; reflexivity].
Qed.

Lemma value_eqb_sym (a c : value) : value_eqb a c = value_eqb c a.
Proof.
  destruct (value_eqb a c) eqn:E1, (value_eqb c a) eqn:E2; try reflexivity.
  - apply value_eqb_eq in E1. subst c.
    assert (H : value_eqb a a = true) by (apply value_eqb_eq; reflexivity).
    congruence.
  - apply value_eqb_eq in E2. subst c.
    assert (H : value_eqb a a = true) by (apply value_eqb_eq; reflexivity).
    congruence.
Qed.

Lemma clash_sym (i : Index) (d e : LinkData) : clash i d e = clash i e d.
Proof. unfold clash. rewrite value_eqb_sym. reflexivity. Qed.

(** A list with one more document respects an index when the list without
    it does and the document clashes with none of the others. *)
Lemma no_duplicates_insert (i : Index) (x : LinkData) (a c : list LinkData) :
  no_duplicates i (a ++ x :: c) =
  no_duplicates i (a ++ c) && negb (existsb (clash i x) (a ++ c)).
Proof.
  induction a as [|y a IH]; simpl.
  - apply andb_comm.
  - rewrite IH, !existsb_app. simpl. rewrite (clash_sym i y x).
    destruct (clash i x y), (existsb (clash i y) a), (existsb (clash i y) c),
      (no_duplicates i (a ++ c)), (existsb (clash i x) a),
      (existsb (clash i x) c); reflexivity.
Qed.

Lemma no_duplicates_remove (i : Index) (x : LinkData) (a c : list LinkData) :
  no_duplicates i (a ++ x :: c) = true -> no_duplicates i (a ++ c) = true.
Proof.
  rewrite no_duplicates_insert. intros H.
  apply andb_true_iff in H as [H _]. exact H.
Qed.

Lemma duplicate_key_index (ixs : list Index) (i : Index)
      (others : list LinkData) (d : LinkData) :
  In i ixs -> duplicate_key ixs others d = false ->
  existsb (clash i d) others = false.
Proof.
  intros Hi H. unfold duplicate_key in H.
  destruct (existsb (clash i d) others) eqn:E; [|reflexivity].
  rewrite <- H. symmetry. apply existsb_exists. exists i. auto.
Qed.

Lemma updateOne_enforced (i : Index) (c : Collection) (r : LinkData) (now : Z) :
  enforced i c -> enforced i (fst (updateOne c r now)).
Proof.
  intros [Hi Hnd]. unfold enforced.
  destruct (updateOne_docs c r now)
    as (-> & [->|[(pre & old & post & E1 & _ & _ & Hd & ->)|(_ & Hd & ->)]]).
  - auto.
  - split; [exact Hi|]. rewrite no_duplicates_insert.
    rewrite E1 in Hnd. rewrite (no_duplicates_remove _ _ _ _ Hnd).
    rewrite (duplicate_key_index _ i _ _ Hi Hd). reflexivity.
  - split; [exact Hi|]. rewrite no_duplicates_insert, app_nil_r.
    rewrite Hnd, (duplicate_key_index _ i _ _ Hi Hd). reflexivity.
Qed.

Lemma process_enforced (cfg : Config) (env : Env) (i : Index)
      (message : Message) (b : Bot) :
  enforced i (collection b) ->
  enforced i (collection (process cfg env message b)).
Proof.
  apply (@process_keeps cfg env message (fun b' => enforced i (collection b'))).
  - intros link b' _ _ H. exact H.
  - intros b' H. exact H.
  - intros link expanded now b' _ _ _ H.
    destruct (TEST_MODE cfg) eqn:Et.
    + rewrite save_test_mode by exact Et. simpl.
      destruct (existsb _ _); exact H.
    + rewrite save_mongo by exact Et. simpl.
      apply updateOne_enforced. exact H.
Qed.

Lemma process_all_keeps (cfg : Config) (env : Env) (P : Bot -> Prop) :
  (forall m b, P b -> P (process cfg env m b)) ->
  forall ms b, P b -> P (process_all cfg env ms b).
Proof.
  intros Hp. induction ms as [|m ms IH]; intros b Hb; [exact Hb|].
  simpl. apply IH, Hp, Hb.
Qed.

(** X11.  An index that is declared on the collection and holds of its
    documents still does after [processMessage] ran on any messages: no
    write of the bot breaks a unique index. *)
Theorem indexes_stay_enforced (cfg : Config) (env : Env) (ms : list Message)
        (b : Bot) (i : Index) :
  enforced i (collection b) ->
  enforced i (collection (process_all cfg env ms b)).
Proof.
  apply (@process_all_keeps cfg env (fun b' => enforced i (collection b'))).
  intros m b'. apply process_enforced.
Qed.

Lemma indexes_stay_enforced_witness :
  enforced url_index (collection connected) /\
  enforced url_index
    (collection (process_all mongo_cfg sample_env [two_links] connected)).
Proof.
  assert (H : enforced url_index (collection connected))
    by (split; [left; reflexivity | reflexivity]).
  split; [exact H|].
  exact (@indexes_stay_enforced mongo_cfg sample_env [two_links] connected
           url_index H).
Defined.

(** ** What the unique indexes say *)

Lemma existsb_clash_unique (f : field) (o : bool) (d : LinkData)
      (ds : list LinkData) :
  existsb (clash {| idx_field := f; idx_descending := o; idx_unique := true |} d)
          ds = true <->
  In (get_field f d) (map (get_field f) ds).
Proof.
  rewrite existsb_exists, in_map_iff. unfold clash. simpl. split.
  - intros (e & He & H). apply value_eqb_eq in H. exists e. auto.
  - intros (e & H & He). exists e. split; [exact He|].
    apply value_eqb_eq. auto.
Qed.

Lemma no_duplicates_unique (f : field) (o : bool) (ds : list LinkData) :
  no_duplicates {| idx_field := f; idx_descending := o; idx_unique := true |} ds
  = true <->
  NoDup (map (get_field f) ds).
Proof.
  induction ds as [|d ds IH]; simpl.
  - split; [constructor | reflexivity].
  - rewrite andb_true_iff, negb_true_iff, IH. split.
    + intros [H1 H2]. constructor; [|exact H2].
      intros Hin. apply (existsb_clash_unique f o) in Hin. congruence.
    + intros H. inversion H as [|? ? Hn Hd]; subst. split; [|exact Hd].
      destruct (existsb _ ds) eqn:E; [|reflexivity].
      apply existsb_clash_unique in E. contradiction.
Qed.

Lemma no_duplicates_plain (f : field) (o : bool) (ds : list LinkData) :
  no_duplicates {| idx_field := f; idx_descending := o; idx_unique := false |} ds
  = true.
Proof.
  induction ds as [|d ds IH]; simpl; [reflexivity|].
  rewrite IH, andb_true_r. apply negb_true_iff.
  induction ds as [|e ds IH']; simpl; [reflexivity|]. apply IH'.
  simpl in IH. apply andb_true_iff in IH as [_ IH]. exact IH.
Qed.

Lemma NoDup_map_VStr (l : list jsstring) : NoDup (map VStr l) <-> NoDup l.
Proof.
  induction l as [|x l IH]; simpl.
  - split; constructor.
  - split; intros H; inversion H as [|? ? Hn Hd]; subst; constructor.
    + intros Hin. apply Hn. apply in_map. exact Hin.
    + apply IH, Hd.
    + intros Hin. apply in_map_iff in Hin as (y & Hy & Hin).
      inversion Hy; subst. contradiction.
    + apply IH, Hd.
Qed.

Lemma url_index_says (ds : list LinkData) :
  no_duplicates url_index ds = true <-> NoDup (map url ds).
Proof.
  unfold url_index. rewrite no_duplicates_unique.
  change (map (get_field F_url) ds) with (map (fun d => VStr (url d)) ds).
  rewrite <- (map_map url VStr). apply NoDup_map_VStr.
Qed.

Lemma messageId_index_says (ds : list LinkData) :
  no_duplicates messageId_index ds = true <-> NoDup (map messageId ds).
Proof.
  unfold messageId_index. rewrite no_duplicates_unique.
  change (map (get_field F_messageId) ds)
    with (map (fun d => VStr (messageId d)) ds).
  rewrite <- (map_map messageId VStr). apply NoDup_map_VStr.
Qed.

(** ** Creating an index *)

Lemma same_pattern_refl (i : Index) : same_pattern i i = true.
Proof.
  unfold same_pattern. destruct (idx_field i), (idx_descending i); reflexivity.
Qed.

Lemma same_pattern_eq (i j : Index) :
  same_pattern i j = true -> idx_unique j = idx_unique i -> i = j.
Proof.
  unfold same_pattern. destruct i as [f o u], j as [g p v]. simpl.
  intros H ->. apply andb_true_iff in H as [Hf Ho].
  apply Bool.eqb_prop in Ho. subst p.
  destruct f, g; try discriminate; reflexivity.
Qed.

Lemma find_app_some {A} (p : A -> bool) (l e : list A) (x : A) :
  find p l = Some x -> find p (l ++ e) = Some x.
Proof.
  induction l as [|y l IH]; simpl; [discriminate|].
  destruct (p y); [auto | exact IH].
Qed.

Lemma find_app_none {A} (p : A -> bool) (l e : list A) :
  find p l = None -> find p (l ++ e) = find p e.
Proof.
  induction l as [|y l IH]; simpl; [reflexivity|].
  destruct (p y); [discriminate | exact IH].
Qed.

Section CreateIndex.

Variables (f : field) (o u : bool).

Let i : Index := {| idx_field := f; idx_descending := o; idx_unique := u |}.

(** The index is there already, with the same options: nothing happens. *)
Lemma createIndex_found (c : Collection) (j : Index) :
  find (same_pattern i) (indexes c) = Some j -> idx_unique j = u ->
  createIndex f o u c = Some c.
Proof.
  intros Hf Hu. unfold createIndex. fold i. rewrite Hf, Hu.
  rewrite Bool.eqb_reflx. reflexivity.
Qed.

(** No index has this key pattern: the index is built. *)
Lemma createIndex_new (c : Collection) :
  unindexed c i ->
  createIndex f o u c =
  if no_duplicates i (docs c)
  then Some {| docs := docs c; indexes := indexes c ++ [i] |}
  else None.
Proof. intros Hf. unfold createIndex. fold i. rewrite Hf. reflexivity. Qed.

Lemma createIndex_some (c c' : Collection) :
  createIndex f o u c = Some c' ->
  docs c' = docs c /\
  (c' = c \/
   (unindexed c i /\ no_duplicates i (docs c) = true /\
    indexes c' = indexes c ++ [i])) /\
  In i (indexes c') /\
  exists j, find (same_pattern i) (indexes c') = Some j /\ idx_unique j = u.
Proof.
  unfold createIndex. fold i.
  destruct (find (same_pattern i) (indexes c)) as [j|] eqn:Hf.
  - destruct (Bool.eqb (idx_unique j) u) eqn:Hu; [|discriminate].
    apply Bool.eqb_prop in Hu.
    intros H; inversion H; subst c'; clear H.
    split; [reflexivity|]. split; [left; reflexivity|].
    apply find_some in Hf as Hj. destruct Hj as [Hin Hp].
    apply same_pattern_eq in Hp; [|exact Hu].
    split; [rewrite Hp; exact Hin|]. exists j. auto.
  - destruct (no_duplicates i (docs c)) eqn:Hn; [|discriminate].
    intros H; inversion H; subst c'; clear H. simpl.
    split; [reflexivity|]. split; [right; auto|].
    split; [apply in_or_app; right; left; reflexivity|].
    exists i. rewrite (find_app_none _ _ _ Hf). simpl.
    rewrite same_pattern_refl. auto.
Qed.

Lemma createIndex_consistent (c c' : Collection) :
  createIndex f o u c = Some c' -> consistent c -> consistent c'.
Proof.
  intros H Hc. apply createIndex_some in H as (Hd & [->|(_ & Hn & Hi)] & _);
    [exact Hc|].
  intros j Hj. rewrite Hd. rewrite Hi in Hj.
  apply in_app_or in Hj as [Hj|[<-|[]]]; [apply Hc, Hj | exact Hn].
Qed.

(** Later indexes leave the answer to a repeated call as it is. *)
Lemma createIndex_again (c c' c'' : Collection) (added : list Index) :
  createIndex f o u c = Some c' ->
  indexes c'' = indexes c' ++ added ->
  createIndex f o u c'' = Some c''.
Proof.
  intros H Hi. apply createIndex_some in H as (_ & _ & _ & j & Hf & Hu).
  apply (@createIndex_found c'' j); [|exact Hu].
  rewrite Hi. apply find_app_some, Hf.
Qed.

End CreateIndex.

Lemma createIndex_grows (f : field) (o u : bool) (c c' : Collection) :
  createIndex f o u c = Some c' ->
  exists added, indexes c' = indexes c ++ added.
Proof.
  intros H. apply createIndex_some in H as (_ & [->|(_ & _ & Hi)] & _).
  - exists []. rewrite app_nil_r. reflexivity.
  - eexists. exact Hi.
Qed.

(** ** Connecting *)

(** A successful call went through the connection and the four
    [createIndex] calls. *)
Lemma connect_chain (cfg : Config) (env : Env) (b b' : Bot) :
  TEST_MODE cfg = false ->
  (connectToMongoDB cfg env b = Some b' <->
   MongoClient_connect env = true /\
   exists c1 c2 c3 c4,
     createIndex F_url false true (collection b) = Some c1 /\
     createIndex F_createdAt true false c1 = Some c2 /\
     createIndex F_messageTimestamp true false c2 = Some c3 /\
     createIndex F_messageId false true c3 = Some c4 /\
     b' = with_collection c4 b).
Proof.
  intros Et. unfold connectToMongoDB. rewrite Et.
  destruct (MongoClient_connect env); cbn [negb];
    [|split; [discriminate | intros [H _]; discriminate]].
  destruct (createIndex F_url false true (collection b)) as [c1|];
    [|split; [discriminate | intros (_ & ? & ? & ? & ? & H & _); discriminate]].
  destruct (createIndex F_createdAt true false c1) as [c2|] eqn:E2.
  2:{ split; [discriminate|].
      intros (_ & ? & ? & ? & ? & H1 & H2 & _). inversion H1; subst.
      congruence. }
  destruct (createIndex F_messageTimestamp true false c2) as [c3|] eqn:E3.
  2:{ split; [discriminate|].
      intros (_ & ? & ? & ? & ? & H1 & H2 & H3 & _). inversion H1; subst.
      rewrite E2 in H2. inversion H2; subst. congruence. }
  destruct (createIndex F_messageId false true c3) as [c4|] eqn:E4.
  2:{ split; [discriminate|].
      intros (_ & ? & ? & ? & ? & H1 & H2 & H3 & H4 & _). inversion H1; subst.
      rewrite E2 in H2. inversion H2; subst.
      rewrite E3 in H3. inversion H3; subst. congruence. }
  split.
  - intros H; inversion H; subst. split; [reflexivity|].
    exists c1, c2, c3, c4. auto.
  - intros (_ & ? & ? & ? & ? & H1 & H2 & H3 & H4 & ->). inversion H1; subst.
    rewrite E2 in H2. inversion H2; subst.
    rewrite E3 in H3. inversion H3; subst.
    rewrite E4 in H4. inversion H4; subst. reflexivity.
Qed.

Lemma connect_consistent (cfg : Config) (env : Env) (b b' : Bot) :
  TEST_MODE cfg = false ->
  connectToMongoDB cfg env b = Some b' ->
  consistent (collection b) ->
  consistent (collection b') /\
  forall i, In i bot_indexes -> In i (indexes (collection b')).
Proof.
  intros Et H Hc.
  apply (@connect_chain cfg env b b' Et) in H
    as (_ & c1 & c2 & c3 & c4 & H1 & H2 & H3 & H4 & ->).
  split.
  - simpl. eapply createIndex_consistent; [exact H4|].
    eapply createIndex_consistent; [exact H3|].
    eapply createIndex_consistent; [exact H2|].
    eapply createIndex_consistent; [exact H1 | exact Hc].
  - simpl.
    destruct (@createIndex_grows _ _ _ _ _ H2) as (a2 & G2).
    destruct (@createIndex_grows _ _ _ _ _ H3) as (a3 & G3).
    destruct (@createIndex_grows _ _ _ _ _ H4) as (a4 & G4).
    apply createIndex_some in H1 as (_ & _ & I1 & _).
    apply createIndex_some in H2 as (_ & _ & I2 & _).
    apply createIndex_some in H3 as (_ & _ & I3 & _).
    apply createIndex_some in H4 as (_ & _ & I4 & _).
    intros i [<-|[<-|[<-|[<-|[]]]]].
    + rewrite G4, G3, G2. repeat (apply in_or_app; left). exact I1.
    + rewrite G4, G3. repeat (apply in_or_app; left). exact I2.
    + rewrite G4. apply in_or_app; left. exact I3.
    + exact I4.
Qed.

(** On a collection without indexes on the four key patterns. *)
Lemma connect_first (cfg : Config) (env : Env) (b : Bot) :
  TEST_MODE cfg = false ->
  MongoClient_connect env = true ->
  Forall (unindexed (collection b)) bot_indexes ->
  connectToMongoDB cfg env b =
  if no_duplicates url_index (docs (collection b)) &&
     no_duplicates messageId_index (docs (collection b))
  then Some (with_collection
               {| docs := docs (collection b);
                  indexes := indexes (collection b) ++ bot_indexes |} b)
  else None.
Proof.
  intros Et Hup Hnew.
  inversion Hnew as [|? ? N1 Hnew1]; subst.
  inversion Hnew1 as [|? ? N2 Hnew2]; subst.
  inversion Hnew2 as [|? ? N3 Hnew3]; subst.
  inversion Hnew3 as [|? ? N4 _]; subst.
  unfold unindexed in *.
  unfold connectToMongoDB. rewrite Et, Hup. cbn [negb].
  rewrite (@createIndex_new _ _ _ _ N1). fold url_index.
  destruct (no_duplicates url_index _); [|reflexivity].
  rewrite createIndex_new
    by (unfold unindexed; cbn [indexes]; rewrite (find_app_none _ _ _ N2);
        reflexivity).
  cbn [docs indexes]. rewrite no_duplicates_plain.
  rewrite createIndex_new
    by (unfold unindexed; cbn [indexes];
        rewrite <- app_assoc, (find_app_none _ _ _ N3); reflexivity).
  cbn [docs indexes]. rewrite no_duplicates_plain.
  rewrite createIndex_new
    by (unfold unindexed; cbn [indexes];
        rewrite <- !app_assoc, (find_app_none _ _ _ N4); reflexivity).
  cbn [docs indexes]. fold messageId_index.
  destruct (no_duplicates messageId_index _); [|reflexivity].
  cbn [andb]. unfold bot_indexes, url_index, messageId_index.
  rewrite <- !app_assoc. reflexivity.
Qed.

(** X12.  With [TEST_MODE] off, [connectToMongoDB] fails when the
    connection to the server cannot be made.  When it can, and the
    collection has no index yet on any of the four key patterns, the call
    succeeds exactly if no two documents share a URL and no two share a
    message id, and it then adds its four indexes after the existing
    ones.  Whenever the call succeeds, the documents are as they were,
    the indexes that existed come first and unchanged, the four indexes
    are declared, and a further call (a restart of the bot) succeeds and
    changes nothing. *)
Theorem connect_outcomes (cfg : Config) (env : Env) (b : Bot) :
  TEST_MODE cfg = false ->
  (MongoClient_connect env = false -> connectToMongoDB cfg env b = None) /\
  (MongoClient_connect env = true ->
   Forall (unindexed (collection b)) bot_indexes ->
   (NoDup (map url (docs (collection b))) /\
    NoDup (map messageId (docs (collection b))) ->
    connectToMongoDB cfg env b =
    Some (with_collection
            {| docs := docs (collection b);
               indexes := indexes (collection b) ++ bot_indexes |} b)) /\
   (connectToMongoDB cfg env b <> None ->
    NoDup (map url (docs (collection b))) /\
    NoDup (map messageId (docs (collection b))))) /\
  (forall b',
      connectToMongoDB cfg env b = Some b' ->
      docs (collection b') = docs (collection b) /\
      (exists added,
          indexes (collection b') = indexes (collection b) ++ added) /\
      (forall i, In i bot_indexes -> In i (indexes (collection b'))) /\
      connectToMongoDB cfg env b' = Some b').
Proof.
  intros Et. split; [|split].
  - intros Hdown. unfold connectToMongoDB. rewrite Et, Hdown. reflexivity.
  - intros Hup Hnew. rewrite (@connect_first cfg env b Et Hup Hnew). split.
    + intros [Hu Hm]. apply url_index_says in Hu.
      apply messageId_index_says in Hm. rewrite Hu, Hm. reflexivity.
    + destruct (no_duplicates url_index _) eqn:Eu; [|intros H; contradiction].
      destruct (no_duplicates messageId_index _) eqn:Em;
        [|intros H; contradiction].
      intros _. split; [apply url_index_says | apply messageId_index_says];
        assumption.
  - intros b' H.
    apply (@connect_chain cfg env b b' Et) in H
      as (Hup & c1 & c2 & c3 & c4 & H1 & H2 & H3 & H4 & ->).
    destruct (@createIndex_grows _ _ _ _ _ H1) as (a1 & G1).
    destruct (@createIndex_grows _ _ _ _ _ H2) as (a2 & G2).
    destruct (@createIndex_grows _ _ _ _ _ H3) as (a3 & G3).
    destruct (@createIndex_grows _ _ _ _ _ H4) as (a4 & G4).
    pose proof (@createIndex_some _ _ _ _ _ H1) as (D1 & _ & I1 & _).
    pose proof (@createIndex_some _ _ _ _ _ H2) as (D2 & _ & I2 & _).
    pose proof (@createIndex_some _ _ _ _ _ H3) as (D3 & _ & I3 & _).
    pose proof (@createIndex_some _ _ _ _ _ H4) as (D4 & _ & I4 & _).
    cbn [collection with_collection].
    split; [congruence|]. split; [|split].
    + exists (a1 ++ a2 ++ a3 ++ a4). rewrite G4, G3, G2, G1, <- !app_assoc.
      reflexivity.
    + intros i [<-|[<-|[<-|[<-|[]]]]].
      * rewrite G4, G3, G2. repeat (apply in_or_app; left). exact I1.
      * rewrite G4, G3. repeat (apply in_or_app; left). exact I2.
      * rewrite G4. apply in_or_app; left. exact I3.
      * exact I4.
    + apply (@connect_chain cfg env _ _ Et). split; [exact Hup|].
      exists c4, c4, c4, c4. cbn [collection with_collection].
      split; [|split; [|split; [|split]]].
      * apply (@createIndex_again _ _ _ _ _ c4 (a2 ++ a3 ++ a4) H1).
        rewrite G4, G3, G2, <- !app_assoc. reflexivity.
      * apply (@createIndex_again _ _ _ _ _ c4 (a3 ++ a4) H2).
        rewrite G4, G3, <- !app_assoc. reflexivity.
      * apply (@createIndex_again _ _ _ _ _ c4 a4 H3). exact G4.
      * apply (@createIndex_again _ _ _ _ _ c4 [] H4).
        rewrite app_nil_r. reflexivity.
      * destruct b; reflexivity.
Qed.

Lemma connect_outcomes_witness :
  connectToMongoDB mongo_cfg sample_env
    (TwitterLinkBot
       {| docs := [sample_link "1" "https://x.com/a" 5;
                   sample_link "2" "https://x.com/b" 6];
          indexes := [] |})
  = Some (with_collection
            {| docs := [sample_link "1" "https://x.com/a" 5;
                        sample_link "2" "https://x.com/b" 6];
               indexes := bot_indexes |}
            (TwitterLinkBot
               {| docs := [sample_link "1" "https://x.com/a" 5;
                           sample_link "2" "https://x.com/b" 6];
                  indexes := [] |})).
Proof.
  apply (proj1 (proj2 (@connect_outcomes mongo_cfg sample_env
                         (TwitterLinkBot
                            {| docs := [sample_link "1" "https://x.com/a" 5;
                                        sample_link "2" "https://x.com/b" 6];
                               indexes := [] |}) eq_refl))).
  - reflexivity.
  - repeat constructor.
  - split; repeat constructor; simpl; intuition discriminate.
Defined.

(** X13.  Once [connectToMongoDB] has succeeded in persistent mode on a
    collection whose declared indexes hold, and whatever messages are
    processed afterwards, the collection holds at most one record for a
    URL and at most one record for a message. *)
Theorem one_record_per_url_and_message (cfg : Config) (env : Env)
        (b0 b1 : Bot) (ms : list Message) :
  TEST_MODE cfg = false ->
  consistent (collection b0) ->
  connectToMongoDB cfg env b0 = Some b1 ->
  NoDup (map url (docs (collection (process_all cfg env ms b1)))) /\
  NoDup (map messageId (docs (collection (process_all cfg env ms b1)))).
Proof.
  intros Et Hc0 Hc.
  destruct (@connect_consistent cfg env b0 b1 Et Hc Hc0) as [Hc1 Hin].
  assert (H : forall i, In i bot_indexes ->
                        no_duplicates i
                          (docs (collection (process_all cfg env ms b1)))
                        = true).
  { intros i Hi.
    apply (@process_all_keeps cfg env (fun b => enforced i (collection b))).
    - intros m b. apply process_enforced.
    - split; [apply Hin, Hi | apply Hc1, Hin, Hi]. }
  split.
  - apply url_index_says, H. left; reflexivity.
  - apply messageId_index_says, H.
    right; right; right; left; reflexivity.
Qed.

Lemma one_record_per_url_and_message_witness :
  NoDup (map url (docs (collection
                          (process_all mongo_cfg sample_env same_link_twice
                                       connected)))).
Proof.
  apply (@one_record_per_url_and_message mongo_cfg sample_env
           (TwitterLinkBot fresh_db) connected same_link_twice).
  - reflexivity.
  - intros i [].
  - reflexivity.
Defined.

(** ** The in-memory store holds a key once *)

Lemma key_not_stored (r : LinkData) (l : list LinkData) :
  existsb (same_key r) l = false -> ~ In (record_key r) (map record_key l).
Proof.
  intros H Hin. apply in_map_iff in Hin as (d & Hk & Hd).
  assert (E : existsb (same_key r) l = true).
  { apply existsb_exists. exists d. split; [exact Hd|].
    apply same_key_iff. inversion Hk; auto. }
  congruence.
Qed.

Lemma NoDup_snoc {A} (x : A) (l : list A) :
  ~ In x l -> NoDup l -> NoDup (l ++ [x]).
Proof.
  induction l as [|y l IH]; simpl; intros Hn Hd.
  - constructor; [intros [] | constructor].
  - inversion Hd as [|? ? Hy Hl]; subst. constructor.
    + rewrite in_app_iff. simpl. intros [H|[H|[]]]; [contradiction|].
      apply Hn. left. symmetry; exact H.
    + apply IH; [|exact Hl]. intros H. apply Hn. right; exact H.
Qed.

(** X14.  In test mode [processMessage] keeps the keys ([messageId],
    [url]) of the records in memory pairwise distinct. *)
Theorem test_mode_keys_distinct (cfg : Config) (env : Env) (message : Message)
        (b : Bot) :
  TEST_MODE cfg = true ->
  NoDup (map record_key (testModeLinks b)) ->
  NoDup (map record_key (testModeLinks (process cfg env message b))).
Proof.
  intros Et.
  apply (@process_keeps cfg env message
           (fun b' => NoDup (map record_key (testModeLinks b')))).
  - intros link b' _ _ H. exact H.
  - intros b' H. exact H.
  - intros link expanded now b' _ _ _ H.
    rewrite save_test_mode by exact Et. simpl.
    destruct (existsb _ _) eqn:E; [exact H|]. simpl.
    rewrite map_app. simpl. apply NoDup_snoc; [|exact H].
    apply key_not_stored, E.
Qed.

Lemma test_mode_keys_distinct_witness :
  NoDup (map record_key
             (testModeLinks (process test_cfg sample_env two_links
                                     (TwitterLinkBot fresh_db)))).
Proof.
  apply (@test_mode_keys_distinct test_cfg sample_env two_links
           (TwitterLinkBot fresh_db)).
  - reflexivity.
  - constructor.
Defined.

(* ================================================================== *)
(** * The traversal, whatever the channels answer *)

Section TraversalFresh.

Variable S : Type.
Variable proc : Message -> S -> S.
Variable fromDate : Z.
Variable P : S -> Prop.
Hypothesis fresh_keeps :
  forall m st, (fromDate <= msg_createdAt m)%Z -> P st -> P (proc m st).

Lemma run_fresh_keeps (l : list Message) :
  Forall (fun m => (fromDate <= msg_createdAt m)%Z) l ->
  forall st, P st -> P (fold_left (fun s m => proc m s) l st).
Proof.
  induction 1 as [|m l Hm Hl IH]; intros st H; [exact H|].
  simpl. apply IH, fresh_keeps; assumption.
Qed.

Lemma scrape_pages_fresh_keeps (fuel : nat) fetch batch :
  forall cursor st st',
    scrape_pages proc fuel fetch fromDate batch cursor st = Some st' ->
    P st -> P st'.
Proof.
  induction fuel as [|fuel IH]; intros cursor st st'; [discriminate|].
  cbn [scrape_pages].
  destruct (fetch cursor batch) as [[|m ms]|code];
    try (intros E H; inversion E; subst; exact H).
  rewrite scan_page_spec.
  destruct (_ && _); intros E H.
  - apply IH in E; [exact E|].
    apply run_fresh_keeps; [apply prefix_fresh | exact H].
  - injection E as <-.
    apply run_fresh_keeps; [exact (prefix_fresh fromDate (m :: ms)) | exact H].
Qed.

Lemma scrape_channels_fresh_keeps (fuel : nat) (env : Env) batch chans :
  forall st st',
    scrape_channels proc fuel env fromDate batch chans st = Some st' ->
    P st -> P st'.
Proof.
  induction chans as [|c chans IH]; intros st st'; simpl.
  - intros E H; inversion E; subst; exact H.
  - destruct (channels_fetch env c) as [| |name fetch]; try apply IH.
    destruct (scrape_pages _ _ _ _ _ _ _) as [st1|] eqn:E1; [|discriminate].
    intros E H. apply (IH _ _ E).
    eapply scrape_pages_fresh_keeps; eassumption.
Qed.

End TraversalFresh.

(** X15.  Whatever the channels answer to the requests for their pages,
    the effect of the traversal on any state is that of running the
    per-message action, in order, on the messages it visits; these do not
    depend on the action, and none of them is older than the cut-off
    date. *)
Theorem traversal_visits_in_range (S : Type) (proc : Message -> S -> S)
        (fuel : nat) (env : Env) (fromDate batch : Z) (chans : list jsstring)
        (st : S) :
  scrape_channels proc fuel env fromDate batch chans st =
    option_map (fun seen => fold_left (fun s m => proc m s) seen st)
               (visited fuel env fromDate batch chans) /\
  forall seen,
    visited fuel env fromDate batch chans = Some seen ->
    Forall (fun m => (fromDate <= msg_createdAt m)%Z) seen.
Proof.
  split.
  - unfold visited.
    rewrite (@scrape_channels_map _ _ note proc
               (fun seen => fold_left (fun s m => proc m s) seen st)).
    + reflexivity.
    + intros m seen. unfold note. rewrite fold_left_app. reflexivity.
  - intros seen E. unfold visited in E.
    refine (@scrape_channels_fresh_keeps _ note fromDate
              (Forall (fun m => (fromDate <= msg_createdAt m)%Z))
              _ fuel env batch chans [] seen E _); [|constructor].
    intros m l Hm Hl. unfold note. apply Forall_app. split; [exact Hl|].
    constructor; [exact Hm | constructor].
Qed.

(** X16.  A channel that cannot be fetched, or that has no messages to
    offer, is passed over: the traversal does to the state what it does
    on the readable channels alone. *)
Theorem unreadable_channels_skipped (S : Type) (proc : Message -> S -> S)
        (fuel : nat) (env : Env) (fromDate batch : Z) (chans : list jsstring)
        (st : S) :
  scrape_channels proc fuel env fromDate batch chans st =
  scrape_channels proc fuel env fromDate batch (filter (readable env) chans) st.
Proof.
  revert st. induction chans as [|c chans IH]; intros st; [reflexivity|].
  cbn [filter scrape_channels]. unfold readable at 1.
  destruct (channels_fetch env c) as [| |name fetch] eqn:E; try apply IH.
  cbn [scrape_channels]. rewrite E.
  destruct (scrape_pages _ _ _ _ _ _ _); [apply IH | reflexivity].
Qed.

(** X17.  On channels that answer with pages of their histories, the page
    size does not matter: any two sizes from 1 to 100 lead to the same
    state. *)
Theorem batch_size_immaterial (S : Type) (proc : Message -> S -> S) (env : Env)
        (history : jsstring -> list Message) (fromDate batch1 batch2 : Z)
        (fuel : nat) (chans : list jsstring) (st : S) :
  (1 <= batch1 <= 100)%Z ->
  (1 <= batch2 <= 100)%Z ->
  (forall c, In c chans ->
             (exists name,
                 channels_fetch env c = TextChannel name (history_fetch (history c))) /\
             NoDup (map msg_id (history c)) /\
             List.length (history c) < fuel) ->
  scrape_channels proc fuel env fromDate batch1 chans st =
  scrape_channels proc fuel env fromDate batch2 chans st.
Proof.
  intros H1 H2 Hch.
  rewrite (@scrape_channels_history _ proc env history fromDate batch1 fuel
             chans H1 Hch).
  rewrite (@scrape_channels_history _ proc env history fromDate batch2 fuel
             chans H2 Hch).
  reflexivity.
Qed.

Lemma batch_size_immaterial_witness :
  scrape_channels note 4 scenario_env jan_1_2024 1 [lit "900"] [] =
  scrape_channels note 4 scenario_env jan_1_2024 100 [lit "900"] [].
Proof.
  apply (@batch_size_immaterial _ note scenario_env (fun _ => scenario_history)
           jan_1_2024 1 100 4 [lit "900"] []).
  - lia.
  - lia.
  - intros c _. split; [exists (lit "general"); reflexivity|].
    split; [|simpl; lia].
    repeat constructor; simpl; intuition discriminate.
Defined.

(** ** The scraper and the store *)

Lemma stored_flags (cfg : Config) (x y : bool) (b : Bot) :
  stored cfg (with_flags x y b) = stored cfg b.
Proof. unfold stored. destruct (TEST_MODE cfg); reflexivity. Qed.

Lemma accepted_channel (cfg : Config) (message : Message) :
  accepted cfg message = true ->
  allowedChannels cfg <> [] ->
  In (channel_id (msg_channel message)) (allowedChannels cfg).
Proof.
  unfold accepted, channel_rejected. intros H Hne.
  apply andb_true_iff in H as [_ H]. apply negb_true_iff in H.
  destruct (allowedChannels cfg) as [|c l] eqn:E; [contradiction|].
  cbn [List.length Nat.eqb negb andb] in H. apply negb_false_iff in H.
  apply existsb_exists in H as (x & Hx & Ex).
  apply jseqb_eq in Ex. rewrite Ex. exact Hx.
Qed.

(** X18.  Every record in the store after [scrapeHistoricalMessages]
    returned was there before, or belongs to a message that is not older
    than the cut-off date and was posted in one of the allow-listed
    channels.  This holds whatever the channels answer. *)
Theorem scraped_records_in_range (cfg : Config) (env : Env) (fuel : nat)
        (b b' : Bot) (d : LinkData) :
  scrapeHistoricalMessages cfg env fuel b = Some b' ->
  In d (stored cfg b') ->
  In d (stored cfg b) \/
  exists fromDate,
    parseScrapingDate env (SCRAPE_FROM_DATE cfg) = Some fromDate /\
    (fromDate <= messageTimestamp d)%Z /\
    In (channelId d) (allowedChannels cfg).
Proof.
  unfold scrapeHistoricalMessages.
  destruct (negb (ENABLE_HISTORICAL_SCRAPING cfg));
    [intros E; inversion E; subst; auto|].
  destruct (parseScrapingDate env (SCRAPE_FROM_DATE cfg)) as [fromDate|];
    [|intros E; inversion E; subst; auto].
  destruct (allowedChannels cfg) as [|c chans] eqn:Ea.
  - intros E; inversion E; subst. rewrite !stored_flags. auto.
  - destruct (scrape_channels _ _ _ _ _ _ _) as [b2|] eqn:E2; [|discriminate].
    intros E; inversion E; subst b'; clear E. rewrite stored_flags.
    revert d.
    refine (@scrape_channels_fresh_keeps _ (process cfg env) fromDate
              (fun b2 => forall d, In d (stored cfg b2) ->
                 In d (stored cfg b) \/
                 exists f, Some fromDate = Some f /\
                           (f <= messageTimestamp d)%Z /\
                           In (channelId d) (c :: chans))
              _ fuel env (BATCH_SIZE cfg) (c :: chans) _ b2 E2 _).
    + intros m st Hm H d Hd.
      apply process_provenance in Hd as [Hd|(Hacc & _ & Hf & _)];
        [apply H, Hd|].
      right. exists fromDate. split; [reflexivity|].
      pose proof (f_equal messageTimestamp Hf) as Ht.
      pose proof (f_equal channelId Hf) as Hc. simpl in Ht, Hc.
      rewrite Ht, Hc. split; [exact Hm|].
      rewrite <- Ea. apply accepted_channel; [exact Hacc|].
      rewrite Ea. discriminate.
    + intros d Hd. rewrite stored_flags in Hd. auto.
Qed.

Lemma scraped_records_in_range_witness :
  let cfg := scraping_cfg (Some (lit "2024-01-01")) in
  let d := build_linkData
             (sample_message "30" 1704412800000 "https://x.com/foo/status/555?s=20")
             (lit "https://x.com/foo/status/555")
             (lit "https://x.com/foo/status/555") 1700000000000 in
  In d (stored cfg (TwitterLinkBot fresh_db)) \/
  exists fromDate,
    parseScrapingDate scenario_env (SCRAPE_FROM_DATE cfg) = Some fromDate /\
    (fromDate <= messageTimestamp d)%Z /\
    In (channelId d) (allowedChannels cfg).
Proof.
  intros cfg d.
  eapply (@scraped_records_in_range cfg scenario_env 3
            (TwitterLinkBot fresh_db) _ d).
  - reflexivity.
  - vm_compute. left; reflexivity.
Defined.

(** X19.  When [scrapeHistoricalMessages] returns, the flag the live
    handler waits for is set exactly if it was set before or scraping is
    switched on with a usable cut-off date and at least one channel; in
    the latter case [scrapingInProgress] is unset again and the live
    handler runs [processMessage] on every message. *)
Theorem scraping_opens_the_gate (cfg : Config) (env : Env) (fuel : nat)
        (b b' : Bot) :
  scrapeHistoricalMessages cfg env fuel b = Some b' ->
  (historicalScrapingComplete b' = true <->
   historicalScrapingComplete b = true \/
   (ENABLE_HISTORICAL_SCRAPING cfg = true /\
    parseScrapingDate env (SCRAPE_FROM_DATE cfg) <> None /\
    allowedChannels cfg <> [])) /\
  (ENABLE_HISTORICAL_SCRAPING cfg = true ->
   parseScrapingDate env (SCRAPE_FROM_DATE cfg) <> None ->
   allowedChannels cfg <> [] ->
   scrapingInProgress b' = false /\
   forall message,
     on_messageCreate cfg env message b' = process cfg env message b').
Proof.
  unfold scrapeHistoricalMessages.
  destruct (ENABLE_HISTORICAL_SCRAPING cfg) eqn:Ee; cbn [negb].
  - destruct (parseScrapingDate env (SCRAPE_FROM_DATE cfg)) as [fromDate|].
    + destruct (allowedChannels cfg) as [|c chans] eqn:Ea.
      * intros E; inversion E; subst. simpl. split; [|intros _ _ H; contradiction].
        split; [auto|]. intros [H|(_ & _ & H)]; [exact H | contradiction].
      * destruct (scrape_channels _ _ _ _ _ _ _) as [b2|]; [|discriminate].
        intros E; inversion E; subst. simpl. split.
        -- split; [|reflexivity]. intros _. right.
           repeat split; discriminate.
        -- intros _ _ _. split; [reflexivity|]. intros message.
           unfold on_messageCreate. rewrite Ee. reflexivity.
    + intros E; inversion E; subst. split; [|intros _ H; contradiction].
      split; [auto|]. intros [H|(_ & H & _)]; [exact H | contradiction].
  - intros E; inversion E; subst. split; [|discriminate].
    split; [auto|]. intros [H|(H & _)]; [exact H | discriminate].
Qed.

Lemma scraping_opens_the_gate_witness :
  historicalScrapingComplete
    (with_flags true false
       (process (scraping_cfg (Some (lit "2024-01-01"))) scenario_env
          (sample_message "30" 1704412800000
                          "https://x.com/foo/status/555?s=20")
          (with_flags false true (TwitterLinkBot fresh_db)))) = true.
Proof.
  apply (proj1 (@scraping_opens_the_gate
                  (scraping_cfg (Some (lit "2024-01-01"))) scenario_env 3
                  (TwitterLinkBot fresh_db) _ eq_refl)).
  right. repeat split; discriminate.
Defined.

(* ================================================================== *)
(** * Reading the store *)

(** ** Sorting *)

Lemma insert_by_perm {A} (ahead : A -> A -> bool) (d : A) (l : list A) :
  Permutation (insert_by ahead d l) (d :: l).
Proof.
  induction l as [|e l IH]; simpl; [reflexivity|].
  destruct (ahead e d); [|reflexivity].
  rewrite IH. apply perm_swap.
Qed.

Lemma sort_by_perm {A} (ahead : A -> A -> bool) (l : list A) :
  Permutation (sort_by ahead l) l.
Proof.
  induction l as [|d l IH]; simpl; [reflexivity|].
  rewrite insert_by_perm, IH. reflexivity.
Qed.

Section Sorted.

Variable A : Type.
Variable k : A -> Z.
Variable ahead : A -> A -> bool.
Hypothesis ahead_spec : forall e d, ahead e d = Z.ltb (k d) (k e).

Lemma insert_by_sorted (d : A) (l : list A) :
  decreasing k l -> decreasing k (insert_by ahead d l).
Proof.
  unfold decreasing. induction l as [|e l IH]; simpl; intros H.
  - constructor; constructor.
  - inversion H as [|? ? Hl He]; subst. rewrite ahead_spec.
    destruct (Z.ltb_spec (k d) (k e)) as [Hlt|Hge].
    + constructor; [apply IH, Hl|].
      apply (Permutation_Forall (Permutation_sym (insert_by_perm ahead d l))).
      constructor; [lia | exact He].
    + constructor; [exact H|]. constructor; [exact Hge|].
      eapply Forall_impl; [|exact He]. intros a Ha. simpl in Ha. lia.
Qed.

Lemma sort_by_sorted (l : list A) : decreasing k (sort_by ahead l).
Proof.
  induction l as [|d l IH]; simpl; [constructor|].
  apply insert_by_sorted, IH.
Qed.

(** The first element of the sorted list has the largest key. *)
Lemma sort_by_head (l : list A) :
  match hd_error (sort_by ahead l) with
  | Some x => In x l /\ Forall (fun y => (k y <= k x)%Z) l
  | None => l = []
  end.
Proof.
  pose proof (sort_by_sorted l) as Hs. pose proof (sort_by_perm ahead l) as Hp.
  destruct (sort_by ahead l) as [|x r]; simpl.
  - apply Permutation_nil in Hp. exact Hp.
  - split; [apply (Permutation_in _ Hp); left; reflexivity|].
    apply (Permutation_Forall Hp).
    inversion Hs as [|? ? _ Hx]; subst. constructor; [lia | exact Hx].
Qed.

End Sorted.

Lemma sorted_app {A} (R : A -> A -> Prop) (a c : list A) :
  StronglySorted R (a ++ c) ->
  StronglySorted R a /\ forall x y, In x a -> In y c -> R x y.
Proof.
  induction a as [|e a IH]; simpl; intros H.
  - split; [constructor | intros x y []].
  - inversion H as [|? ? Hs He]; subst. apply IH in Hs as [Hs Hac].
    apply Forall_app in He as [Hea Hec]. split.
    + constructor; assumption.
    + intros x y [<-|Hx] Hy; [|apply Hac; assumption].
      rewrite Forall_forall in Hec. apply Hec, Hy.
Qed.

Lemma limit_split {A} (n : nat) (l : list A) :
  exists rest, l = limit n l ++ rest /\ (n = 0 -> rest = []).
Proof.
  destruct n as [|n]; simpl.
  - exists []. rewrite app_nil_r. auto.
  - exists (skipn (S n) l). split; [|discriminate].
    symmetry. apply (firstn_skipn (S n) l).
Qed.

Lemma limit_length {A} (n : nat) (l : list A) :
  n <> 0 -> List.length (limit n l) <= n.
Proof.
  destruct n as [|n]; [contradiction|]. intros _.
  exact (firstn_le_length (S n) l).
Qed.

(** ** [find(...).sort({ key: -1 }).limit(n)] *)

Section FindSortLimit.

Variable keep : LinkData -> bool.
Variable k : LinkData -> Z.
Variable n : nat.
Variable ds : list LinkData.

Let result : list LinkData :=
  limit n (sort_by (descending k) (filter keep ds)).

Lemma find_sort_limit :
  Forall (fun d => In d ds /\ keep d = true) result /\
  decreasing k result /\
  (n <> 0 -> List.length result <= n) /\
  (n = 0 -> Permutation result (filter keep ds)) /\
  (forall d, In d ds -> keep d = true ->
             In d result \/ Forall (fun e => (k d <= k e)%Z) result).
Proof.
  pose proof (@sort_by_sorted _ k (descending k) (fun e d => eq_refl)
                (filter keep ds)) as Hs.
  pose proof (sort_by_perm (descending k) (filter keep ds)) as Hp.
  destruct (limit_split n (sort_by (descending k) (filter keep ds)))
    as (rest & E & Hrest).
  fold result in E. unfold decreasing in Hs. rewrite E in Hs, Hp.
  apply sorted_app in Hs as [Hs Hcross].
  split; [|split; [|split; [|split]]].
  - apply Forall_forall. intros d Hd. apply filter_In.
    apply (Permutation_in _ Hp). apply in_or_app. left; exact Hd.
  - exact Hs.
  - apply limit_length.
  - intros H0. rewrite (Hrest H0), app_nil_r in Hp. exact Hp.
  - intros d Hd Hk.
    assert (Hin : In d (result ++ rest)).
    { apply (Permutation_in _ (Permutation_sym Hp)). apply filter_In. auto. }
    apply in_app_or in Hin as [Hin|Hin]; [left; exact Hin|].
    right. apply Forall_forall. intros e He. apply (Hcross e d He Hin).
Qed.

End FindSortLimit.

(** X20.  [getLinksByUser] returns records of the collection by the given
    author only, the most recently found first, at most [limit] of them
    (10 when no limit is given) and all of them when the limit is 0; a
    record of the author that is left out was found no later than any
    record returned. *)
Theorem getLinksByUser_result (c : Collection) (author : jsstring)
        (lim : option nat) :
  let n := match lim with Some n => n | None => 10 end in
  let result := getLinksByUser c author lim in
  Forall (fun d => In d (docs c) /\ authorId d = author) result /\
  decreasing foundAt result /\
  (n <> 0 -> List.length result <= n) /\
  (n = 0 -> Permutation result
              (filter (fun d => jseqb (authorId d) author) (docs c))) /\
  (forall d, In d (docs c) -> authorId d = author ->
             In d result \/ Forall (fun e => (foundAt d <= foundAt e)%Z) result).
Proof.
  intros n result.
  destruct (find_sort_limit (fun d => jseqb (authorId d) author) foundAt n
                            (docs c)) as (H1 & H2 & H3 & H4 & H5).
  split; [|split; [|split; [|split]]]; try assumption.
  - eapply Forall_impl; [|exact H1]. intros d [Hd Ha].
    apply jseqb_eq in Ha. auto.
  - intros d Hd Ha. apply H5; [exact Hd|]. apply jseqb_eq, Ha.
Qed.

(** X21.  [getLinksByChannel] returns records of the collection from the
    given channel only, the most recently found first, at most [limit] of
    them (10 when no limit is given) and all of them when the limit is 0;
    a record of the channel that is left out was found no later than any
    record returned. *)
Theorem getLinksByChannel_result (c : Collection) (chan : jsstring)
        (lim : option nat) :
  let n := match lim with Some n => n | None => 10 end in
  let result := getLinksByChannel c chan lim in
  Forall (fun d => In d (docs c) /\ channelId d = chan) result /\
  decreasing foundAt result /\
  (n <> 0 -> List.length result <= n) /\
  (n = 0 -> Permutation result
              (filter (fun d => jseqb (channelId d) chan) (docs c))) /\
  (forall d, In d (docs c) -> channelId d = chan ->
             In d result \/ Forall (fun e => (foundAt d <= foundAt e)%Z) result).
Proof.
  intros n result.
  destruct (find_sort_limit (fun d => jseqb (channelId d) chan) foundAt n
                            (docs c)) as (H1 & H2 & H3 & H4 & H5).
  split; [|split; [|split; [|split]]]; try assumption.
  - eapply Forall_impl; [|exact H1]. intros d [Hd Ha].
    apply jseqb_eq in Ha. auto.
  - intros d Hd Ha. apply H5; [exact Hd|]. apply jseqb_eq, Ha.
Qed.

(** X22.  [getLinksByDateRange] returns exactly the records of the
    collection whose message time lies between the two dates, both
    included, each as often as it is stored, the latest message first. *)
Theorem getLinksByDateRange_result (c : Collection) (startDate endDate : Z) :
  let result := getLinksByDateRange c startDate endDate in
  Permutation result
    (filter (fun d => Z.leb startDate (messageTimestamp d) &&
                      Z.leb (messageTimestamp d) endDate) (docs c)) /\
  (forall d, In d result <->
             In d (docs c) /\
             (startDate <= messageTimestamp d <= endDate)%Z) /\
  decreasing messageTimestamp result.
Proof.
  intros result. unfold result, getLinksByDateRange.
  pose proof (sort_by_perm (descending messageTimestamp)
                (filter (fun d => Z.leb startDate (messageTimestamp d) &&
                                  Z.leb (messageTimestamp d) endDate) (docs c)))
    as Hp.
  split; [exact Hp|]. split.
  - intros d. split.
    + intros H. apply (Permutation_in _ Hp) in H.
      apply filter_In in H as [Hd H]. apply andb_true_iff in H as [H1 H2].
      apply Z.leb_le in H1, H2. auto.
    + intros (Hd & H1 & H2). apply (Permutation_in _ (Permutation_sym Hp)).
      apply filter_In. split; [exact Hd|].
      apply andb_true_iff. split; apply Z.leb_le; assumption.
  - apply (@sort_by_sorted _ messageTimestamp). reflexivity.
Qed.

(** ** The oldest and the newest record *)

Section Best.

Variable k : LinkData -> Z.
Variable better : LinkData -> LinkData -> bool.
Hypothesis better_spec : forall c o, better c o = Z.ltb (k c) (k o).

Lemma fold_best (xs : list LinkData) :
  forall b,
    let m := fold_left (fun best current =>
                          if better current best then current else best) xs b in
    (k m <= k b)%Z /\ Forall (fun y => (k m <= k y)%Z) xs /\ In m (b :: xs).
Proof.
  induction xs as [|x xs IH]; intros b; simpl.
  - split; [lia|]. split; [constructor | left; reflexivity].
  - rewrite better_spec. destruct (Z.ltb_spec (k x) (k b)) as [Hlt|Hge].
    + destruct (IH x) as (H1 & H2 & H3). simpl in H1, H2, H3.
      split; [lia|]. split; [constructor; assumption|]. right; exact H3.
    + destruct (IH b) as (H1 & H2 & H3). simpl in H1, H2, H3.
      split; [exact H1|]. split; [constructor; [lia | exact H2]|].
      destruct H3 as [H3|H3]; [left; exact H3 | right; right; exact H3].
Qed.

(** The record [reduce] ends with has the smallest key. *)
Lemma reduce_best_least (l : list LinkData) :
  match reduce_best better l with
  | Some m => In m l /\ Forall (fun y => (k m <= k y)%Z) l
  | None => l = []
  end.
Proof.
  destruct l as [|x xs]; simpl; [reflexivity|].
  destruct (fold_best xs x) as (H1 & H2 & H3). simpl in H1, H2, H3.
  split; [exact H3|]. constructor; assumption.
Qed.

End Best.

Lemma later_spec (c n : LinkData) :
  Z.ltb (messageTimestamp n) (messageTimestamp c) =
  Z.ltb (- messageTimestamp c) (- messageTimestamp n).
Proof.
  destruct (Z.ltb_spec (messageTimestamp n) (messageTimestamp c)),
    (Z.ltb_spec (- messageTimestamp c) (- messageTimestamp n));
    try reflexivity; lia.
Qed.

(** X23.  Of a list of records that is not empty [showTestSummary] reports
    as date range the smallest and the largest message time in it, and as
    total their number. *)
Theorem summary_date_range (links : list LinkData) :
  links <> [] ->
  total (showTestSummary links) = List.length links /\
  exists o n,
    oldest (showTestSummary links) = Some o /\
    newest (showTestSummary links) = Some n /\
    In o (map messageTimestamp links) /\
    In n (map messageTimestamp links) /\
    Forall (fun d => (o <= messageTimestamp d <= n)%Z) links.
Proof.
  intros Hne. split; [reflexivity|]. unfold showTestSummary; simpl.
  pose proof (@reduce_best_least messageTimestamp
                (fun c o => Z.ltb (messageTimestamp c) (messageTimestamp o))
                (fun c o => eq_refl) links) as Ho.
  pose proof (@reduce_best_least (fun d => (- messageTimestamp d)%Z)
                (fun c n => Z.ltb (messageTimestamp n) (messageTimestamp c))
                later_spec links) as Hn.
  destruct (reduce_best _ links) as [o|]; [|contradiction].
  destruct (reduce_best _ links) as [n|]; [|contradiction].
  destruct Ho as [Ho1 Ho2], Hn as [Hn1 Hn2].
  exists (messageTimestamp o), (messageTimestamp n). simpl.
  repeat split; try (apply in_map; assumption).
  rewrite Forall_forall in *. intros d Hd.
  specialize (Ho2 d Hd). specialize (Hn2 d Hd). simpl in Ho2, Hn2. lia.
Qed.

Lemma summary_date_range_witness :
  exists o n,
    oldest (showTestSummary [sample_link "1" "https://x.com/a" 5;
                             sample_link "2" "https://x.com/b" 6]) = Some o /\
    newest (showTestSummary [sample_link "1" "https://x.com/a" 5;
                             sample_link "2" "https://x.com/b" 6]) = Some n /\
    (o <= n)%Z.
Proof.
  destruct (@summary_date_range [sample_link "1" "https://x.com/a" 5;
                                 sample_link "2" "https://x.com/b" 6])
    as (_ & o & n & Ho & Hn & _ & _ & H); [discriminate|].
  exists o, n. split; [exact Ho|]. split; [exact Hn|].
  inversion H as [|? ? H1 _]; subst. lia.
Defined.

Lemma distinct_fold (xs : list jsstring) :
  forall acc,
    NoDup acc ->
    NoDup (fold_left (fun acc x => set_add x acc) xs acc) /\
    forall x, In x (fold_left (fun acc x => set_add x acc) xs acc) <->
              In x acc \/ In x xs.
Proof.
  induction xs as [|y xs IH]; intros acc Hacc; simpl.
  - split; [exact Hacc | intros x; tauto].
  - destruct (IH (set_add y acc) (set_add_nodup y Hacc)) as [H1 H2].
    split; [exact H1|]. intros x. rewrite H2, set_add_in.
    split; [intros [[H|H]|H] | intros [H|[H|H]]]; auto.
Qed.

(** X24.  The channels and the users that [showTestSummary] lists are the
    channel names and the user names of the records, each listed once. *)
Theorem summary_lists_each_once (links : list LinkData) :
  (NoDup (channels (showTestSummary links)) /\
   forall x, In x (channels (showTestSummary links)) <->
             In x (map channelName links)) /\
  (NoDup (authors (showTestSummary links)) /\
   forall x, In x (authors (showTestSummary links)) <->
             In x (map authorUsername links)).
Proof.
  unfold showTestSummary, distinct; simpl. split.
  - destruct (@distinct_fold (map channelName links) [] (NoDup_nil _))
      as [H1 H2].
    split; [exact H1|]. intros x. rewrite H2. simpl. tauto.
  - destruct (@distinct_fold (map authorUsername links) [] (NoDup_nil _))
      as [H1 H2].
    split; [exact H1|]. intros x. rewrite H2. simpl. tauto.
Qed.

Lemma oldest_is_first (l : list LinkData) :
  option_map messageTimestamp
    (hd_error (sort_by (ascending messageTimestamp) l)) =
  option_map messageTimestamp
    (reduce_best (fun c o => Z.ltb (messageTimestamp c) (messageTimestamp o)) l).
Proof.
  pose proof (@reduce_best_least messageTimestamp
                (fun c o => Z.ltb (messageTimestamp c) (messageTimestamp o))
                (fun c o => eq_refl) l) as Ho.
  pose proof (@sort_by_head _ (fun d => (- messageTimestamp d)%Z)
                (ascending messageTimestamp)
                (fun e d => later_spec d e) l) as So.
  destruct (reduce_best _ l) as [o|];
    destruct (hd_error (sort_by (ascending messageTimestamp) l)) as [o'|];
    simpl.
  - destruct Ho as [Ho1 Ho2], So as [So1 So2]. rewrite Forall_forall in *.
    pose proof (Ho2 _ So1). pose proof (So2 _ Ho1). simpl in *.
    f_equal; lia.
  - subst l. destruct Ho as [[] _].
  - subst l. destruct So as [[] _].
  - reflexivity.
Qed.

Lemma newest_is_first (l : list LinkData) :
  option_map messageTimestamp
    (hd_error (sort_by (descending messageTimestamp) l)) =
  option_map messageTimestamp
    (reduce_best (fun c n => Z.ltb (messageTimestamp n) (messageTimestamp c)) l).
Proof.
  pose proof (@reduce_best_least (fun d => (- messageTimestamp d)%Z)
                (fun c n => Z.ltb (messageTimestamp n) (messageTimestamp c))
                later_spec l) as Hn.
  pose proof (@sort_by_head _ messageTimestamp
                (descending messageTimestamp)
                (fun e d => eq_refl) l) as Sn.
  destruct (reduce_best _ l) as [n|];
    destruct (hd_error (sort_by (descending messageTimestamp) l)) as [n'|];
    simpl.
  - destruct Hn as [Hn1 Hn2], Sn as [Sn1 Sn2]. rewrite Forall_forall in *.
    pose proof (Hn2 _ Sn1). pose proof (Sn2 _ Hn1). simpl in *.
    f_equal; lia.
  - subst l. destruct Hn as [[] _].
  - subst l. destruct Sn as [[] _].
  - reflexivity.
Qed.

(** X25.  [getScrapingStats] reports the number of documents, and the
    same oldest and newest message time that [showTestSummary] reports
    of the same records. *)
Theorem stats_agree_with_summary (c : Collection) :
  totalLinks (getScrapingStats c) = total (showTestSummary (docs c)) /\
  stats_oldest (getScrapingStats c) = oldest (showTestSummary (docs c)) /\
  stats_newest (getScrapingStats c) = newest (showTestSummary (docs c)).
Proof.
  split; [reflexivity|].
  split; [apply oldest_is_first | apply newest_is_first].
Qed.

(** ** The aggregation of [getTopPosters] *)

Lemma tally_absent (a : jsstring) (groups : list Poster) :
  ~ In a (map poster_id groups) -> tally a groups = 0.
Proof.
  unfold tally. induction groups as [|g groups IH]; simpl; [reflexivity|].
  intros H. destruct (jseqb (poster_id g) a) eqn:E.
  - apply jseqb_eq in E. exfalso. apply H. left; exact E.
  - apply IH. intros Hin. apply H. right; exact Hin.
Qed.

Lemma tally_present (a : jsstring) (groups : list Poster) :
  0 < tally a groups -> exists g, In g groups /\ poster_id g = a.
Proof.
  unfold tally. induction groups as [|g groups IH]; simpl; [lia|].
  destruct (jseqb (poster_id g) a) eqn:E.
  - intros _. exists g. split; [left; reflexivity | apply jseqb_eq, E].
  - intros H. destruct (IH H) as (g' & Hg & Hid). exists g'. auto.
Qed.

Lemma tally_own (g : Poster) (groups : list Poster) :
  NoDup (map poster_id groups) -> In g groups ->
  tally (poster_id g) groups = poster_count g.
Proof.
  induction groups as [|e groups IH]; simpl; intros Hnd Hin; [destruct Hin|].
  inversion Hnd as [|? ? Hn Hd]; subst. unfold tally. simpl.
  destruct Hin as [->|Hin].
  - rewrite jseqb_refl. simpl.
    fold (tally (poster_id g) groups).
    rewrite (@tally_absent (poster_id g) groups Hn). lia.
  - destruct (jseqb (poster_id e) (poster_id g)) eqn:E.
    + apply jseqb_eq in E. exfalso. apply Hn. rewrite E.
      apply in_map, Hin.
    + apply IH; assumption.
Qed.

Lemma count_in_ids (d : LinkData) (groups : list Poster) :
  map poster_id (count_in d groups) =
  if existsb (fun g => jseqb (poster_id g) (authorId d)) groups
  then map poster_id groups
  else map poster_id groups ++ [authorId d].
Proof.
  induction groups as [|g groups IH]; simpl; [reflexivity|].
  destruct (jseqb (poster_id g) (authorId d)); simpl; [reflexivity|].
  rewrite IH. destruct (existsb _ groups); reflexivity.
Qed.

Lemma count_in_nodup (d : LinkData) (groups : list Poster) :
  NoDup (map poster_id groups) -> NoDup (map poster_id (count_in d groups)).
Proof.
  intros H. rewrite count_in_ids.
  destruct (existsb _ groups) eqn:E; [exact H|].
  apply NoDup_snoc; [|exact H].
  intros Hin. apply in_map_iff in Hin as (g & Hg & Hin).
  assert (E' : existsb (fun g => jseqb (poster_id g) (authorId d)) groups = true).
  { apply existsb_exists. exists g. split; [exact Hin | apply jseqb_eq, Hg]. }
  congruence.
Qed.

Lemma count_in_tally (a : jsstring) (d : LinkData) (groups : list Poster) :
  tally a (count_in d groups) =
  tally a groups + (if jseqb (authorId d) a then 1 else 0).
Proof.
  unfold tally. induction groups as [|g groups IH]; simpl.
  - destruct (jseqb (authorId d) a); reflexivity.
  - destruct (jseqb (poster_id g) (authorId d)) eqn:E; simpl.
    + apply jseqb_eq in E. rewrite E.
      destruct (jseqb (authorId d) a); simpl; lia.
    + destruct (jseqb (poster_id g) a); simpl; rewrite IH; lia.
Qed.

Lemma count_in_positive (d : LinkData) (groups : list Poster) :
  Forall (fun g => 1 <= poster_count g) groups ->
  Forall (fun g => 1 <= poster_count g) (count_in d groups).
Proof.
  induction 1 as [|g groups Hg Hgs IH]; simpl.
  - constructor; [simpl; lia | constructor].
  - destruct (jseqb (poster_id g) (authorId d)); constructor;
      try assumption. simpl. lia.
Qed.

Lemma group_fold (ds : list LinkData) :
  forall groups,
    NoDup (map poster_id groups) ->
    Forall (fun g => 1 <= poster_count g) groups ->
    let result := fold_left (fun groups d => count_in d groups) ds groups in
    NoDup (map poster_id result) /\
    Forall (fun g => 1 <= poster_count g) result /\
    forall a, tally a result = tally a groups + links_of a ds.
Proof.
  induction ds as [|d ds IH]; intros groups Hnd Hpos; simpl.
  - split; [exact Hnd|]. split; [exact Hpos|]. intros a.
    unfold links_of. simpl. lia.
  - destruct (IH (count_in d groups) (@count_in_nodup d groups Hnd)
                (@count_in_positive d groups Hpos)) as (H1 & H2 & H3).
    split; [exact H1|]. split; [exact H2|]. intros a.
    simpl in H3. rewrite H3, count_in_tally. unfold links_of. simpl.
    destruct (jseqb (authorId d) a); simpl; lia.
Qed.

(** One row for every author, with the number of the author's records. *)
Lemma group_by_author_spec (ds : list LinkData) :
  NoDup (map poster_id (group_by_author ds)) /\
  Forall (fun g => poster_count g = links_of (poster_id g) ds /\
                   1 <= poster_count g) (group_by_author ds) /\
  forall d, In d ds -> In (authorId d) (map poster_id (group_by_author ds)).
Proof.
  destruct (@group_fold ds [] (NoDup_nil _) (Forall_nil _)) as (H1 & H2 & H3).
  fold (group_by_author ds) in H1, H2, H3. cbv zeta in H3.
  split; [exact H1|]. split.
  - rewrite Forall_forall in *. intros g Hg. split; [|apply H2, Hg].
    rewrite <- (@tally_own g (group_by_author ds) H1 Hg), H3. reflexivity.
  - intros d Hd.
    assert (Hpos : 0 < tally (authorId d) (group_by_author ds)).
    { rewrite H3. unfold tally at 1. simpl. unfold links_of.
      apply in_split in Hd as (l1 & l2 & ->).
      rewrite filter_app, length_app. simpl. rewrite jseqb_refl. simpl. lia. }
    apply tally_present in Hpos as (g & Hg & <-). apply in_map, Hg.
Qed.

Lemma count_ahead_spec (e g : Poster) :
  Nat.ltb (poster_count g) (poster_count e) =
  Z.ltb (Z.of_nat (poster_count g)) (Z.of_nat (poster_count e)).
Proof.
  destruct (Nat.ltb_spec (poster_count g) (poster_count e)),
    (Z.ltb_spec (Z.of_nat (poster_count g)) (Z.of_nat (poster_count e)));
    try reflexivity; lia.
Qed.

(** X26.  [getTopPosters] fails on a limit of 0.  Otherwise it returns at
    most [limit] rows (10 when no limit is given), no two for the same
    author, each with the number of records the author has in the
    collection, the larger numbers first; an author who has records and
    no row has no more records than any author with a row. *)
Theorem getTopPosters_result (c : Collection) (lim : option nat) :
  let n := match lim with Some n => n | None => 10 end in
  match getTopPosters c lim with
  | None => n = 0
  | Some rows =>
      n <> 0 /\
      List.length rows <= n /\
      NoDup (map poster_id rows) /\
      Forall (fun g => poster_count g = links_of (poster_id g) (docs c) /\
                       1 <= poster_count g) rows /\
      decreasing (fun g => Z.of_nat (poster_count g)) rows /\
      forall d, In d (docs c) ->
                In (authorId d) (map poster_id rows) \/
                Forall (fun g => links_of (authorId d) (docs c) <= poster_count g)
                       rows
  end.
Proof.
  intros n. unfold getTopPosters. fold n.
  destruct n as [|n]; [reflexivity|].
  destruct (group_by_author_spec (docs c)) as (Hnd & Hcount & Hall).
  pose proof (sort_by_perm (fun e g => Nat.ltb (poster_count g) (poster_count e))
                (group_by_author (docs c))) as Hp.
  pose proof (@sort_by_sorted _ (fun g => Z.of_nat (poster_count g))
                (fun e g => Nat.ltb (poster_count g) (poster_count e))
                count_ahead_spec (group_by_author (docs c))) as Hs.
  fold (sort_posters (group_by_author (docs c))) in Hp, Hs.
  rewrite <- (firstn_skipn (S n) (sort_posters (group_by_author (docs c))))
    in Hp, Hs.
  set (rows := firstn (S n) (sort_posters (group_by_author (docs c)))) in *.
  set (rest := skipn (S n) (sort_posters (group_by_author (docs c)))) in *.
  apply sorted_app in Hs as [Hs Hcross].
  split; [discriminate|]. split; [apply firstn_le_length|].
  split; [|split; [|split]].
  - apply (Permutation_map poster_id) in Hp.
    apply Permutation_sym in Hp. apply (Permutation_NoDup Hp) in Hnd.
    rewrite map_app in Hnd. apply NoDup_app_remove_r in Hnd. exact Hnd.
  - apply Permutation_sym in Hp. apply (Permutation_Forall Hp) in Hcount.
    apply Forall_app in Hcount as [Hcount _]. exact Hcount.
  - exact Hs.
  - intros d Hd. specialize (Hall d Hd).
    apply in_map_iff in Hall as (g & Hid & Hg).
    apply (Permutation_in _ (Permutation_sym Hp)) in Hg.
    apply in_app_or in Hg as [Hg|Hg].
    + left. rewrite <- Hid. apply in_map, Hg.
    + right. apply Forall_forall. intros e He.
      pose proof (Hcross e g He Hg) as Hle. simpl in Hle.
      rewrite Forall_forall in Hcount.
      assert (Hg' : In g (group_by_author (docs c))).
      { apply (Permutation_in _ Hp). apply in_or_app. right; exact Hg. }
      destruct (Hcount g Hg') as [Hc _]. rewrite <- Hid, <- Hc. lia.
Qed.

(* ================================================================== *)
(** * More about [processMessage] and [expandShortUrl] *)

Lemma no_links_no_change (cfg : Config) (env : Env) (message : Message)
      (b : Bot) :
  extractTwitterLinks (msg_content message) = [] ->
  process cfg env message b = b.
Proof.
  intros H. unfold process, processMessage. rewrite H.
  destruct (bot _); [reflexivity|].
  destruct (guild_rejected _ _); [reflexivity|].
  destruct (channel_rejected _ _); reflexivity.
Qed.

(** X27.  A message leaves the bot exactly as it is when its author is a
    bot, when a guild is configured and the message is from no guild or
    from another one, when channels are configured and the message is
    from none of them, or when its content holds no link. *)
Theorem filtered_messages_change_nothing (cfg : Config) (env : Env)
        (message : Message) (b : Bot) :
  bot (msg_author message) = true \/
  (truthy (GUILD_ID cfg) = true /\
   forall g, msg_guild message = Some g -> Some (guild_id g) <> GUILD_ID cfg) \/
  (allowedChannels cfg <> [] /\
   ~ In (channel_id (msg_channel message)) (allowedChannels cfg)) \/
  extractTwitterLinks (msg_content message) = [] ->
  process cfg env message b = b.
Proof.
  intros [H|[[Hg H]|[[Hne H]|H]]].
  - apply process_rejected. unfold accepted. rewrite H. reflexivity.
  - apply process_rejected. unfold accepted, guild_rejected. rewrite Hg.
    destruct (msg_guild message) as [g|] eqn:Eg;
      [|rewrite andb_false_r; reflexivity].
    destruct (GUILD_ID cfg) as [wanted|] eqn:Ew; [|discriminate].
    destruct (jseqb (guild_id g) wanted) eqn:E.
    + apply jseqb_eq in E. exfalso. apply (H g eq_refl). rewrite E.
      reflexivity.
    + simpl. rewrite andb_false_r. reflexivity.
  - apply process_rejected. unfold accepted, channel_rejected.
    destruct (allowedChannels cfg) as [|c l] eqn:Ea; [contradiction|].
    cbn [List.length Nat.eqb negb andb].
    destruct (existsb _ (c :: l)) eqn:E.
    + apply existsb_exists in E as (x & Hx & Ex). apply jseqb_eq in Ex.
      exfalso. apply H. rewrite Ex. exact Hx.
    + simpl. apply andb_false_r.
  - apply no_links_no_change, H.
Qed.

Lemma filtered_messages_change_nothing_witness :
  process (scraping_cfg None) sample_env
          {| msg_id := lit "5"; msg_content := lit "https://x.com/a/status/1";
             msg_createdAt := 0; msg_author := sample_author;
             msg_channel := {| channel_id := lit "901";
                               channel_name := lit "random" |};
             msg_guild := None |}
          (TwitterLinkBot fresh_db)
  = TwitterLinkBot fresh_db.
Proof.
  apply filtered_messages_change_nothing.
  right; right; left. split; [discriminate|].
  simpl. intros [H|[]]. discriminate.
Defined.

(** X28.  [expandShortUrl] always returns a URL: the one it was given, or
    the final URL of the response when [t.co] occurs in the given one and
    the response reports a non-empty URL.  A failed request, or a
    response without a final URL, gives back the URL it was given. *)
Theorem expand_result (env : Env) (u : jsstring) (b : Bot) :
  u <> [] ->
  fst (expandShortUrl env u b) <> [] /\
  (fst (expandShortUrl env u b) = u \/
   includes (lit "t.co") u = true /\
   axios_head env (ticks b) u = HeadOk (Some (fst (expandShortUrl env u b)))) /\
  (axios_head env (ticks b) u = HeadFailed \/
   axios_head env (ticks b) u = HeadOk None \/
   axios_head env (ticks b) u = HeadOk (Some []) ->
   fst (expandShortUrl env u b) = u).
Proof.
  intros Hu. unfold expandShortUrl.
  destruct (includes (lit "t.co") u); simpl.
  - unfold bind, head_request.
    destruct (axios_head env (ticks b) u) as [|[[|c rest]|]]; simpl;
      repeat split; auto; try discriminate.
    intros [H|[H|H]]; discriminate.
  - repeat split; auto.
Qed.

Lemma expand_result_witness :
  fst (expandShortUrl sample_env (lit "https://t.co/abc")
                      (TwitterLinkBot fresh_db)) <> [].
Proof.
  apply (@expand_result sample_env (lit "https://t.co/abc")
           (TwitterLinkBot fresh_db)).
  discriminate.
Defined.

(** ** Processing a message again *)

Lemma key_stored_iff (r : LinkData) (l : list LinkData) :
  existsb (same_key r) l = true <-> In (record_key r) (map record_key l).
Proof.
  split.
  - intros H. apply existsb_exists in H as (d & Hd & Hk).
    apply same_key_iff in Hk as [Hm Hu]. apply in_map_iff.
    exists d. split; [|exact Hd]. unfold record_key. rewrite Hm, Hu.
    reflexivity.
  - intros H. destruct (existsb (same_key r) l) eqn:E; [reflexivity|].
    exfalso. exact (key_not_stored _ _ E H).
Qed.

Lemma for_each_cons {A} (f : A -> M unit) (a : A) (l : list A) (b : Bot) :
  for_each f (a :: l) b = for_each f l (snd (f a b)).
Proof. simpl. unfold bind. destruct (f a b) as [[] b1]. reflexivity. Qed.

Section Replay.

Variables (cfg : Config) (env : Env) (message : Message).
Hypothesis test_mode : TEST_MODE cfg = true.

Let step (link : jsstring) : M unit :=
  expandedUrl <- expandShortUrl env link ;;
  now <- new_Date env ;;
  saveLinkToDatabase cfg env (build_linkData message link expandedUrl now).

Let keys (b : Bot) : list (jsstring * jsstring) :=
  map record_key (testModeLinks b).

Lemma step_test (link : jsstring) (b : Bot) :
  includes (lit "t.co") link = false ->
  exists r,
    record_key r = (msg_id message, link) /\
    testModeLinks (snd (step link b)) =
    if existsb (same_key r) (testModeLinks b)
    then testModeLinks b
    else testModeLinks b ++ [r].
Proof.
  intros Hno. unfold step, bind.
  rewrite (expand_identity env link b Hno). unfold new_Date at 1.
  rewrite save_test_mode by exact test_mode.
  exists (build_linkData message link link (Date_now env (ticks b))).
  split; [reflexivity|]. simpl.
  destruct (existsb _ _); reflexivity.
Qed.

Lemma links_saved (links : list jsstring) :
  (forall l, In l links -> includes (lit "t.co") l = false) ->
  forall b,
    (forall l, In l links ->
               In (msg_id message, l) (keys (snd (for_each step links b)))) /\
    (forall K, In K (keys b) -> In K (keys (snd (for_each step links b)))).
Proof.
  induction links as [|link links IH]; intros Hno b; [split; [intros l []|auto]|].
  rewrite for_each_cons.
  destruct (step_test link b (Hno link (or_introl eq_refl))) as (r & Hk & Hs).
  remember (snd (step link b)) as b1 eqn:E1.
  destruct (IH (fun l Hl => Hno l (or_intror Hl)) b1) as [IH1 IH2].
  assert (Hmono : forall K, In K (keys b) -> In K (keys b1)).
  { intros K HK. unfold keys. rewrite Hs.
    destruct (existsb _ _); [exact HK|].
    rewrite map_app. apply in_or_app. left; exact HK. }
  split.
  - intros l [<-|Hl]; [|apply IH1, Hl].
    apply IH2. unfold keys. rewrite Hs, <- Hk.
    destruct (existsb (same_key r) (testModeLinks b)) eqn:E.
    + apply key_stored_iff, E.
    + rewrite map_app. apply in_or_app. right. left; reflexivity.
  - intros K HK. apply IH2, Hmono, HK.
Qed.

Lemma links_known (links : list jsstring) :
  (forall l, In l links -> includes (lit "t.co") l = false) ->
  forall b,
    (forall l, In l links -> In (msg_id message, l) (keys b)) ->
    testModeLinks (snd (for_each step links b)) = testModeLinks b.
Proof.
  induction links as [|link links IH]; intros Hno b Hin; [reflexivity|].
  rewrite for_each_cons.
  destruct (step_test link b (Hno link (or_introl eq_refl))) as (r & Hk & Hs).
  remember (snd (step link b)) as b1 eqn:E1.
  assert (E : existsb (same_key r) (testModeLinks b) = true).
  { apply key_stored_iff. rewrite Hk. apply Hin. left; reflexivity. }
  rewrite E in Hs. rewrite <- Hs. apply IH.
  - intros l Hl. apply Hno. right; exact Hl.
  - intros l Hl. unfold keys. rewrite Hs. apply Hin. right; exact Hl.
Qed.

End Replay.

Lemma links_without_tco (txt : jsstring) :
  includes (lit "t.co") txt = false ->
  forall link, In link (extractTwitterLinks txt) ->
               includes (lit "t.co") link = false.
Proof.
  intros Hno link Hin.
  destruct (includes (lit "t.co") link) eqn:E; [|reflexivity].
  apply includes_iff in E. apply extract_occurs in Hin.
  pose proof (@occurs_in_occurs _ _ _ Hin E) as H.
  apply includes_iff in H. congruence.
Qed.

(** X29.  In test mode, processing a message a second time, at once or
    after any other messages, adds nothing to the records in memory when
    [t.co] does not occur in its content: a message that the scraper and
    the live handler both see is recorded once. *)
Theorem replay_adds_nothing (cfg : Config) (env : Env) (message : Message)
        (between : list Message) (b : Bot) :
  TEST_MODE cfg = true ->
  includes (lit "t.co") (msg_content message) = false ->
  let b1 := process_all cfg env between (process cfg env message b) in
  testModeLinks (process cfg env message b1) = testModeLinks b1.
Proof.
  intros Et Hno b1.
  pose proof (links_without_tco _ Hno) as Hl.
  unfold process at 1. unfold processMessage.
  destruct (bot (msg_author message)) eqn:E1; [reflexivity|].
  destruct (guild_rejected cfg message) eqn:E2; [reflexivity|].
  destruct (channel_rejected cfg message) eqn:E3; [reflexivity|].
  apply (@links_known cfg env message Et _ Hl).
  intros l Hin. subst b1.
  apply (@process_all_keeps cfg env
           (fun b' => In (msg_id message, l)
                         (map record_key (testModeLinks b')))).
  - intros m b' Hb'.
    apply (@process_keeps cfg env m
             (fun b2 => In (msg_id message, l)
                           (map record_key (testModeLinks b2)))).
    + intros link b2 _ _ H. exact H.
    + intros b2 H. exact H.
    + intros link expanded now b2 _ _ _ H.
      rewrite save_test_mode by exact Et. simpl.
      destruct (existsb _ _); [exact H|]. simpl.
      rewrite map_app. apply in_or_app. left; exact H.
    + exact Hb'.
  - unfold process, processMessage. rewrite E1, E2, E3.
    apply (proj1 (@links_saved cfg env message Et _ Hl b)). exact Hin.
Qed.

Lemma replay_adds_nothing_witness :
  testModeLinks
    (process test_cfg sample_env live_message
       (process_all test_cfg sample_env [two_links]
          (process test_cfg sample_env live_message (TwitterLinkBot fresh_db))))
  = testModeLinks
      (process_all test_cfg sample_env [two_links]
         (process test_cfg sample_env live_message (TwitterLinkBot fresh_db))).
Proof.
  apply (@replay_adds_nothing test_cfg sample_env live_message [two_links]
           (TwitterLinkBot fresh_db)); reflexivity.
Defined.

(* ================================================================== *)
(** * The gate, from the start of the bot *)

Section TraversalAgree.

Variable S : Type.
Variables proc1 proc2 : Message -> S -> S.
Variable P : S -> Prop.
Hypothesis agree : forall m st, P st -> proc1 m st = proc2 m st.
Hypothesis keeps : forall m st, P st -> P (proc2 m st).

Lemma run_agree (l : list Message) :
  forall st, P st ->
             fold_left (fun s m => proc1 m s) l st =
             fold_left (fun s m => proc2 m s) l st.
Proof.
  induction l as [|m l IH]; intros st H; [reflexivity|].
  simpl. rewrite (agree m H). apply IH, keeps, H.
Qed.

Lemma scrape_pages_agree (fuel : nat) fetch fromDate batch :
  forall cursor st,
    P st ->
    scrape_pages proc1 fuel fetch fromDate batch cursor st =
    scrape_pages proc2 fuel fetch fromDate batch cursor st.
Proof.
  induction fuel as [|fuel IH]; intros cursor st H; [reflexivity|].
  cbn [scrape_pages].
  destruct (fetch cursor batch) as [[|m ms]|code]; try reflexivity.
  rewrite !scan_page_spec. rewrite (run_agree _ H).
  destruct (_ && _); [|reflexivity].
  apply IH. apply (run_keeps proc2 P keeps), H.
Qed.

Lemma scrape_channels_agree (fuel : nat) (env : Env) fromDate batch chans :
  forall st,
    P st ->
    scrape_channels proc1 fuel env fromDate batch chans st =
    scrape_channels proc2 fuel env fromDate batch chans st.
Proof.
  induction chans as [|c chans IH]; intros st H; [reflexivity|].
  simpl. destruct (channels_fetch env c) as [| |name fetch]; try (apply IH, H).
  rewrite (scrape_pages_agree fuel fetch fromDate batch None H).
  destruct (scrape_pages proc2 _ _ _ _ _ _) as [st1|] eqn:E; [|reflexivity].
  apply IH.
  apply (@scrape_pages_keeps _ proc2 P keeps fuel fetch fromDate batch None st st1 E H).
Qed.

End TraversalAgree.

Lemma deliver_closed (cfg : Config) (env : Env) (events : list Message)
      (b : Bot) :
  ENABLE_HISTORICAL_SCRAPING cfg = true ->
  historicalScrapingComplete b = false ->
  deliver cfg env events b = b.
Proof.
  intros He Hc. unfold deliver.
  induction events as [|m events IH]; [reflexivity|].
  simpl. rewrite (@gate_closed cfg env m b He Hc). exact IH.
Qed.

(** [connectToMongoDB] leaves the fields of the new bot other than the
    collection as the constructor set them. *)
Lemma connect_flag (cfg : Config) (env : Env) (db : Collection) (b : Bot) :
  connectToMongoDB cfg env (TwitterLinkBot db) = Some b ->
  historicalScrapingComplete b = false.
Proof.
  destruct (TEST_MODE cfg) eqn:Et.
  - unfold connectToMongoDB. rewrite Et. intros H; inversion H; reflexivity.
  - intros H. apply (@connect_chain cfg env _ _ Et) in H
      as (_ & c1 & c2 & c3 & c4 & _ & _ & _ & _ & ->).
    reflexivity.
Qed.

(** C4.  Historical scraping switched on: the bot that the constructor
    and [connectToMongoDB] leave has [historicalScrapingComplete] unset,
    so the [messageCreate] handler leaves it exactly as it is; events
    that the handler receives while [scrapeHistoricalMessages] runs, at
    any of its waits, make no difference to the outcome; and when the
    flag is set after [scrapeHistoricalMessages], the traversal of the
    whole allow-list has returned before.  Historical scraping switched
    off: the [ready] handler leaves the bot as it is and the
    [messageCreate] handler runs [processMessage] on every event, in any
    state; for a message that passes the filters this issues the requests
    for its [t.co] links and, in test mode with no [t.co] in the content,
    leaves a record for every link of the message. *)
Theorem C4_live_gate (cfg : Config) (env : Env) :
  (ENABLE_HISTORICAL_SCRAPING cfg = true ->
   forall (db : Collection) (b : Bot) (fuel : nat) (early : list Message)
          (arrivals : Message -> list Message),
     connectToMongoDB cfg env (TwitterLinkBot db) = Some b ->
     (forall message, on_messageCreate cfg env message b = b) /\
     scrapeHistoricalMessages_among cfg env fuel early arrivals b =
       scrapeHistoricalMessages cfg env fuel b /\
     (forall b',
         scrapeHistoricalMessages cfg env fuel b = Some b' ->
         historicalScrapingComplete b' = true ->
         exists fromDate b2,
           parseScrapingDate env (SCRAPE_FROM_DATE cfg) = Some fromDate /\
           scrape_channels (process cfg env) fuel env fromDate (BATCH_SIZE cfg)
                           (allowedChannels cfg) (with_flags false true b)
             = Some b2 /\
           historicalScrapingComplete b2 = false /\
           b' = with_flags true false b2)) /\
  (ENABLE_HISTORICAL_SCRAPING cfg = false ->
   forall (b : Bot) (fuel : nat) (message : Message),
     on_ready cfg env fuel b = Some b /\
     on_messageCreate cfg env message b = process cfg env message b /\
     (accepted cfg message = true ->
      requests (on_messageCreate cfg env message b) =
        requests b ++ filter (includes (lit "t.co"))
                             (extractTwitterLinks (msg_content message)) /\
      (TEST_MODE cfg = true ->
       includes (lit "t.co") (msg_content message) = false ->
       forall link,
         In link (extractTwitterLinks (msg_content message)) ->
         In (msg_id message, link)
            (map record_key
                 (testModeLinks (on_messageCreate cfg env message b)))))).
Proof.
  split.
  - intros He db b fuel early arrivals Hconn.
    pose proof (@connect_flag cfg env db b Hconn) as Hflag.
    split; [intros m; apply gate_closed; assumption|]. split.
    + unfold scrapeHistoricalMessages_among, scrapeHistoricalMessages.
      rewrite He. cbn [negb].
      destruct (parseScrapingDate env (SCRAPE_FROM_DATE cfg)) as [fromDate|];
        [|reflexivity].
      destruct (allowedChannels cfg) as [|c chans]; [reflexivity|].
      cbv zeta. rewrite (@deliver_closed cfg env early _ He) by exact Hflag.
      rewrite (@scrape_channels_agree _ _ (process cfg env)
                 (fun st => historicalScrapingComplete st = false)).
      * reflexivity.
      * intros m st Hst. apply (@deliver_closed cfg env (arrivals m) _ He).
        unfold process. rewrite keeps_processMessage. exact Hst.
      * intros m st Hst. unfold process. rewrite keeps_processMessage.
        exact Hst.
      * exact Hflag.
    + intros b' Hs Hset. unfold scrapeHistoricalMessages in Hs.
      rewrite He in Hs. cbn [negb] in Hs.
      destruct (parseScrapingDate env (SCRAPE_FROM_DATE cfg)) as [fromDate|];
        [|inversion Hs; subst; congruence].
      destruct (allowedChannels cfg) as [|c chans];
        [inversion Hs; subst; simpl in Hset; congruence|].
      rewrite Hflag in Hs.
      destruct (scrape_channels _ _ _ _ _ _ _) as [b2|] eqn:E2; [|discriminate].
      inversion Hs; subst b'. exists fromDate, b2.
      split; [reflexivity|]. split; [exact E2|]. split; [|reflexivity].
      refine (@scrape_channels_keeps _ (process cfg env)
                (fun st => historicalScrapingComplete st = false)
                (fun m st Hst => eq_trans (keeps_processMessage cfg env m st) Hst)
                _ _ _ _ _ _ _ E2 _).
      reflexivity.
  - intros Hd b fuel message.
    assert (Hon : on_messageCreate cfg env message b = process cfg env message b)
      by (unfold on_messageCreate; rewrite Hd; reflexivity).
    split; [unfold on_ready; rewrite Hd; reflexivity|].
    split; [exact Hon|]. rewrite Hon. intros Hacc.
    unfold accepted in Hacc.
    apply andb_true_iff in Hacc as [Hacc H3].
    apply andb_true_iff in Hacc as [H1 H2].
    apply negb_true_iff in H1, H2, H3.
    unfold process, processMessage. rewrite H1, H2, H3. split.
    + apply links_requests.
    + intros Et Hno link Hin.
      apply (proj1 (@links_saved cfg env message Et _
                      (@links_without_tco _ Hno) b)).
      exact Hin.
Qed.

Lemma C4_live_gate_witness :
  let cfg := scraping_cfg (Some (lit "2024-01-01")) in
  let b0 := TwitterLinkBot fresh_db in
  scrapeHistoricalMessages_among cfg scenario_env 3 [live_message]
                                 (fun _ => [live_message; two_links]) b0 =
    scrapeHistoricalMessages cfg scenario_env 3 b0 /\
  option_map (fun b => map messageId (stored cfg b))
             (scrapeHistoricalMessages_among cfg scenario_env 3 [live_message]
                (fun _ => [live_message; two_links]) b0)
    = Some [lit "30"] /\
  In (lit "77", lit "https://x.com/foo/status/555")
     (map record_key
          (testModeLinks (on_messageCreate test_cfg sample_env live_message b0))).
Proof.
  intros cfg b0.
  pose proof (proj1 (proj2 (proj1 (C4_live_gate cfg scenario_env) eq_refl
                              fresh_db b0 3 [live_message]
                              (fun _ => [live_message; two_links]) eq_refl)))
    as E.
  split; [exact E|]. split; [rewrite E; vm_compute; reflexivity|].
  apply (proj2 (proj2 (proj2 (C4_live_gate test_cfg sample_env) eq_refl
                         b0 0 live_message)) eq_refl);
    [reflexivity | reflexivity | vm_compute; left; reflexivity].
Defined.
